(** * The [import] command of stitch-cli: a shallow embedding of
      [commands/import.go] and the properties of its orchestration.

    The command talks to many collaborators (the remote Stitch service, the
    Atlas service, the terminal, the file system, the hosting package).  They
    are modelled as functions over an abstract world; every call the command
    makes is recorded, with its arguments and its result, in the log of the
    run.  The command itself is written in a small state monad with early
    return, so that the model reads like the Go source. *)

From Stdlib Require Import String Ascii List ZArith Lia Bool.
From stdpp Require Import base option strings gmap.
Import ListNotations.

Local Open Scope string_scope.
Local Open Scope list_scope.

(** ** Errors and results *)

(** What the command asks of an error value: its dynamic type
    ([api.ErrAppNotFound] in the type switch of [importApp]), whether
    [os.IsNotExist] holds of it, and its message. *)
Inductive ErrKind : Type :=
| ErrAppNotFound
| ErrNotExist
| ErrOther.

Record error : Type := mkError { errKind : ErrKind; Error : string }.

(** [errors.New] and [fmt.Errorf] build a plain error. *)
Definition errors_New (msg : string) : error := mkError ErrOther msg.

Definition os_IsNotExist (e : error) : bool :=
  match errKind e with ErrNotExist => true | _ => false end.

(** A Go pair [(value, err)] read by the convention the command follows:
    the value is used only when [err] is nil. *)
Inductive result (A : Type) : Type :=
| Ok (a : A)
| Err (e : error).
Arguments Ok {A} a.
Arguments Err {A} e.

Definition errOf {A} (r : result A) : option error :=
  match r with Ok _ => None | Err e => Some e end.

(** ** Data of the collaborators *)

(** [models.App], as far as the command reads it. *)
Record App : Type := mkApp {
  ID : string;
  GroupID : string;
  ClientAppID : string;
  Name : string
}.

(** An Atlas project. *)
Record Group : Type := mkGroup { GroupName : string; GroupId : string }.

(** Modelled from the spec: [models.AppInstanceData] is declared outside
    src/; the spec describes it as the instance-data file carrying the
    client-facing identifier and the name.  In the source it is a Go map
    from field names to values. *)
Abbreviation AppInstanceData := (gmap string string).

(** A value the flag parser assigns to a registered flag. *)
Inductive FlagValue : Type :=
| FVString (s : string)
| FVBool (b : bool).

(** What [BaseCommand.run] leaves behind: the flags found on the command
    line, in order, the base command's own settings, and the parse error. *)
Record BaseResult : Type := mkBaseResult {
  br_assigned : list (string * FlagValue);
  br_yes : bool;
  br_configPath : string;
  br_err : option error
}.

(** ** The log of a run

    An asset cache is a value the command cannot look into.  The log names
    the cache that the hashing of the local assets leaves, the cache that is
    asked whether it is dirty and the cache that is written to the cache
    file by the text the world gives for it ([cacheText] below).  What is
    proved of these texts is proved for every such naming, the ones that
    tell any two caches apart included. *)

Inductive Event : Type :=
| EvBaseRun (args : list string) (r : BaseResult)
| EvUIError (msg : string)
| EvUIInfo (msg : string)
| EvUser (err : option error)
| EvLoggedIn (b : bool)
| EvHomedirExpand (path : string) (r : result string)
| EvStat (path : string) (err : option error)
| EvGetDirectoryContainingFile (wd file : string) (r : result string)
| EvUnmarshalFile (path : string) (r : result AppInstanceData)
| EvUnmarshalFromDir (path : string) (err : option error)
| EvJsonMarshal (r : result string)
| EvStitchClient (err : option error)
| EvFetchAppByClientAppID (clientAppID : string) (r : result App)
| EvFetchAppByGroupIDAndClientAppID (groupID clientAppID : string) (r : result App)
| EvAskYesNo (query : string) (r : result bool)
| EvAsk (query defaultVal : string) (r : result string)
| EvAskWithOptions (query defaultVal : string) (options : list string) (r : result string)
| EvAtlasClient (err : option error)
| EvGroups (r : result (list Group))
| EvGroupByName (name : string) (r : result Group)
| EvFetchAppsByGroupID (groupID : string) (r : result (list App))
| EvCreateEmptyApp (groupID name location deploymentModel : string) (r : result App)
| EvWriteAppConfigToFile (dest : string) (data : AppInstanceData) (err : option error)
| EvFilepathAbs (path : string) (r : result string)
| EvMetadataFileToAssetDescriptions (path : string) (err : option error)
| EvGetAssetCachePath (configPath : string) (r : result string)
| EvCacheFileToAssetCache (path : string) (err : option error)
| EvNewAssetCache
| EvListLocalAssetMetadata (appID rootDir : string) (cache : string) (err : option error)
| EvCacheDirty (cache : string) (b : bool)
| EvUpdateCacheFile (path : string) (cache : string) (err : option error)
| EvListAssetsForAppID (groupID appID : string) (err : option error)
| EvDiffAssetMetadata (merge : bool) (isNil : bool)
| EvAssetDiff (lines : list string)
| EvDiff (groupID appID appData strategy : string) (r : result (list string))
| EvImport (groupID appID appData strategy : string) (err : option error)
| EvImportHosting (groupID appID rootDir : string) (resetCache : bool) (err : option error)
| EvExport (groupID appID : string) (isTemplated : bool) (err : option error)
| EvWriteToDirectory (dest : string) (overwrite : bool) (err : option error)
| EvBodyClose.

(** ** The monad: state, log, early return *)

Inductive Abort : Type :=
| Panic        (* a Go run-time panic *)
| OutOfFuel.   (* the bound on the iterations of a [for] loop was reached *)

(** A statement either falls through with a value, or executes [return r],
    or the run is cut. *)
Inductive Outcome (R A : Type) : Type :=
| Val (a : A)
| Ret (r : R)
| Crash (c : Abort).
Arguments Val {R A} a.
Arguments Ret {R A} r.
Arguments Crash {R A} c.

Record Res (S R A : Type) : Type := mkRes {
  out : Outcome R A;
  st : S;
  log : list Event
}.
Arguments mkRes {S R A} out st log.
Arguments out {S R A} r.
Arguments st {S R A} r.
Arguments log {S R A} r.

Definition M (S R A : Type) : Type := S -> Res S R A.

Definition ret {S R A} (a : A) : M S R A :=
  fun s => mkRes (Val a) s [].

(** The Go statement [return r]. *)
Definition return_ {S R A} (r : R) : M S R A :=
  fun s => mkRes (Ret r) s [].

Definition crash {S R A} (c : Abort) : M S R A :=
  fun s => mkRes (Crash c) s [].

Definition prepend {S R A} (l : list Event) (r : Res S R A) : Res S R A :=
  mkRes (out r) (st r) (l ++ log r).

Definition bind {S R A B} (m : M S R A) (f : A -> M S R B) : M S R B :=
  fun s =>
    let r := m s in
    match out r with
    | Val a => prepend (log r) (f a (st r))
    | Ret x => mkRes (Ret x) (st r) (log r)
    | Crash c => mkRes (Crash c) (st r) (log r)
    end.

(** A call of a function of the command: its [return] ends the callee, not
    the caller. *)
Definition invoke {S R R'} (body : M S R' R') : M S R R' :=
  fun s =>
    let r := body s in
    match out r with
    | Val x => mkRes (Val x) (st r) (log r)
    | Ret x => mkRes (Val x) (st r) (log r)
    | Crash c => mkRes (Crash c) (st r) (log r)
    end.

Declare Scope go_scope.
Delimit Scope go_scope with go.
Notation "x <- m ;; k" := (bind m (fun x => k))
  (at level 100, m at next level, right associativity) : go_scope.
Notation "m ;; k" := (bind m (fun _ => k))
  (at level 100, right associativity) : go_scope.
Local Open Scope go_scope.

(** ** The command and its collaborators *)

(** The fields of [ImportCommand] and those of the embedded [BaseCommand]
    that [import.go] reads ([flagYes], [flagConfigPath]). *)
Record ImportCommand : Type := mkImportCommand {
  flagYes : bool;
  flagConfigPath : string;
  workingDirectory : string;
  flagAppID : string;
  flagAppPath : string;
  flagAppName : string;
  flagGroupID : string;
  flagStrategy : string;
  flagIncludeHosting : bool;
  flagResetCDNCache : bool
}.

Definition set_flagStrategy (v : string) (c : ImportCommand) : ImportCommand :=
  mkImportCommand (flagYes c) (flagConfigPath c) (workingDirectory c)
    (flagAppID c) (flagAppPath c) (flagAppName c) (flagGroupID c)
    v (flagIncludeHosting c) (flagResetCDNCache c).

(** Everything [import.go] uses and does not define: the packages [api],
    [hosting], [models], [user], [utils], the prompts and the user interface
    of [BaseCommand], and the Go libraries that touch the machine.  A call
    takes the world and gives its result and the world after it. *)
Record Collab : Type := mkCollab {
  (* opaque data *)
  W : Type;
  User : Type;
  LoadedApp : Type;
  StitchClient : Type;
  AtlasClient : Type;
  AssetDescriptions : Type;
  AssetCache : Type;
  AssetMetadata : Type;
  AssetMetadataDiffs : Type;
  Body : Type;
  (* the text by which the log of a run names an asset cache; not of the
     source, and the command never calls it *)
  cacheText : AssetCache -> string;
  (* package-level constants declared outside src/ *)
  AppConfigFileName : string;
  AppIDField : string;
  AppNameField : string;
  AppLocationField : string;
  AppDeploymentModelField : string;
  HostingFilesDirectory : string;
  HostingAttributes : string;
  ErrNotLoggedIn : error;
  (* pure functions of Go's library and of the hosting package *)
  strconv_Quote : string -> string;
  filepath_Join : string -> string -> string;
  json_Marshal : LoadedApp -> result string;
  LoggedIn : User -> bool;
  NewAssetCache : AssetCache;
  Dirty : AssetCache -> bool;
  DiffAssetMetadata :
    AssetMetadata -> AssetMetadata -> bool -> option AssetMetadataDiffs;
  AssetMetadataDiffs_Diff : AssetMetadataDiffs -> list string;
  (* BaseCommand *)
  c_baseRun : list string -> W -> BaseResult * W;
  c_UIError : string -> W -> unit * W;
  c_UIInfo : string -> W -> unit * W;
  c_User : W -> result User * W;
  c_StitchClient : W -> result StitchClient * W;
  c_AtlasClient : W -> result AtlasClient * W;
  c_AskYesNo : string -> W -> result bool * W;
  c_Ask : string -> string -> W -> result string * W;
  c_AskWithOptions : string -> string -> list string -> W -> result string * W;
  (* the machine *)
  c_homedirExpand : string -> W -> result string * W;
  c_Stat : string -> W -> option error * W;
  c_filepathAbs : string -> W -> result string * W;
  (* utils, models *)
  c_GetDirectoryContainingFile : string -> string -> W -> result string * W;
  c_UnmarshalFile : string -> W -> result AppInstanceData * W;
  c_UnmarshalFromDir : string -> W -> result LoadedApp * W;
  c_writeAppConfigToFile : string -> AppInstanceData -> W -> option error * W;
  c_writeToDirectory : string -> Body -> bool -> W -> option error * W;
  c_Close : Body -> W -> unit * W;
  (* api.StitchClient *)
  c_FetchAppByClientAppID : StitchClient -> string -> W -> result App * W;
  c_FetchAppByGroupIDAndClientAppID :
    StitchClient -> string -> string -> W -> result App * W;
  c_FetchAppsByGroupID : StitchClient -> string -> W -> result (list App) * W;
  c_CreateEmptyApp :
    StitchClient -> string -> string -> string -> string -> W -> result App * W;
  c_ListAssetsForAppID :
    StitchClient -> string -> string -> W -> result AssetMetadata * W;
  c_Diff :
    StitchClient -> string -> string -> string -> string -> W ->
    result (list string) * W;
  c_Import :
    StitchClient -> string -> string -> string -> string -> W -> option error * W;
  c_Export : StitchClient -> string -> string -> bool -> W -> result Body * W;
  (* Atlas *)
  c_Groups : AtlasClient -> W -> result (list Group) * W;
  c_GroupByName : AtlasClient -> string -> W -> result Group * W;
  (* hosting, and the rest of package commands *)
  c_MetadataFileToAssetDescriptions : string -> W -> result AssetDescriptions * W;
  c_getAssetCachePath : string -> W -> result string * W;
  c_CacheFileToAssetCache : string -> W -> result AssetCache * W;
  c_ListLocalAssetMetadata :
    string -> string -> AssetDescriptions -> AssetCache -> W ->
    (result AssetMetadata * AssetCache) * W;
  c_UpdateCacheFile : string -> AssetCache -> W -> option error * W;
  c_ImportHosting :
    string -> string -> string -> AssetMetadataDiffs -> bool -> StitchClient ->
    W -> option error * W
}.

(** The state of a run: the command (its flags are variables the run
    assigns) and the world. *)
Record State (C : Collab) : Type := mkState { ic : ImportCommand; world : W C }.
Arguments mkState {C} ic world.
Arguments ic {C} s.
Arguments world {C} s.

(** ** Constants of import.go *)

Definition importFlagPath : string := "path".
Definition importFlagStrategy : string := "strategy".
Definition importFlagAppName : string := "app-name".
Definition importFlagIncludeHosting : string := "include-hosting".
Definition importFlagResetCDNCache : string := "reset-cdn-cache".
Definition importStrategyMerge : string := "merge".
Definition importStrategyReplace : string := "replace".

(** Declared with the other commands' flags, outside src/; the names are
    those the command's own [Help] text documents. *)
Definition flagAppIDName : string := "app-id".
Definition flagProjectIDName : string := "project-id".

Definition locationOptions : list string := ["US-VA"; "US-OR"; "IE"; "AU"].
Definition deploymentModelOptions : list string := ["GLOBAL"; "LOCAL"].

Definition errCreateAppSyncFailure (err : error) : error :=
  errors_New ("failed to sync app with local directory after creation: " ++ Error err).

Definition errImportAppSyncFailure (err : error) : error :=
  errors_New ("failed to sync app with local directory after import: " ++ Error err).

Definition errIncludeHosting (err : error) : error :=
  errors_New ("--include-hosting error: " ++ Error err).

(** [isObjectIDHex]: 24 characters, and [hex.DecodeString] accepts them. *)
Definition isHexDigit (c : ascii) : bool :=
  let n := nat_of_ascii c in
  ((48 <=? n) && (n <=? 57) || (97 <=? n) && (n <=? 102)
   || (65 <=? n) && (n <=? 70))%nat.

Definition hex_DecodeString_ok (s : string) : bool :=
  Nat.even (String.length s) && forallb isHexDigit (list_ascii_of_string s).

Definition isObjectIDHex (s : string) : bool :=
  if negb (Nat.eqb (String.length s) 24) then false else hex_DecodeString_ok s.

(** ** The model of import.go *)

Section Command.

Variable C : Collab.

(** A call of a collaborator: the world moves, the call is logged. *)
Definition call {R A} (f : W C -> A * W C) (ev : A -> Event) : M (State C) R A :=
  fun s =>
    let r := f (world s) in
    mkRes (Val (fst r)) (mkState (ic s) (snd r)) [ev (fst r)].

(** A call of a pure function of a collaborator: only logged. *)
Definition observe {R} (ev : Event) : M (State C) R unit :=
  fun s => mkRes (Val tt) s [ev].

Definition getIC {R} : M (State C) R ImportCommand :=
  fun s => mkRes (Val (ic s)) s [].

Definition modifyIC {R} (f : ImportCommand -> ImportCommand) : M (State C) R unit :=
  fun s => mkRes (Val tt) (mkState (f (ic s)) (world s)) [].

Fixpoint forEach {R A} (l : list A) (body : A -> M (State C) R unit)
  : M (State C) R unit :=
  match l with
  | [] => ret tt
  | x :: l' => body x ;; forEach l' body
  end.

Definition UIError {R} (msg : string) : M (State C) R unit :=
  call (c_UIError C msg) (fun _ => EvUIError msg).

Definition UIInfo {R} (msg : string) : M (State C) R unit :=
  call (c_UIInfo C msg) (fun _ => EvUIInfo msg).

Definition AskYesNo {R} (query : string) : M (State C) R (result bool) :=
  call (c_AskYesNo C query) (EvAskYesNo query).

(** Modelled from the spec: the getters of [models.AppInstanceData] are
    declared outside src/; each reads one field of the map, the empty string
    when the field is absent. *)
Definition AppID (d : AppInstanceData) : string := default "" (d !! AppIDField C).
Definition AppName (d : AppInstanceData) : string := default "" (d !! AppNameField C).
Definition AppLocation (d : AppInstanceData) : string :=
  default "" (d !! AppLocationField C).
Definition AppDeploymentModel (d : AppInstanceData) : string :=
  default "" (d !! AppDeploymentModelField C).

(** *** fetchAppByClientAppID (import.go:337) *)
Definition fetchAppByClientAppID (clientAppID : string)
  : M (State C) (result App) (result App) :=
  sc <- call (c_StitchClient C) (fun r => EvStitchClient (errOf r)) ;;
  match sc with
  | Err err => return_ (Err err)
  | Ok stitchClient =>
    c <- getIC ;;
    if String.eqb (flagGroupID c) "" then
      r <- call (c_FetchAppByClientAppID C stitchClient clientAppID)
                (EvFetchAppByClientAppID clientAppID) ;;
      return_ r
    else
      r <- call (c_FetchAppByGroupIDAndClientAppID C stitchClient (flagGroupID c) clientAppID)
                (EvFetchAppByGroupIDAndClientAppID (flagGroupID c) clientAppID) ;;
      return_ r
  end.

(** *** resolveGroupID (import.go:350) *)

(** The [for] loop of lines 381-408; it falls through with [groupID] at a
    [break].  [fuel] bounds the number of iterations. *)
Fixpoint resolveGroupID_loop (fuel : nat) (atlasClient : AtlasClient C)
    (groups : list Group) (groupsByName : gmap string string)
  : M (State C) (result string) string :=
  match fuel with
  | O => crash OutOfFuel
  | S fuel' =>
    g0 <- match groups with
          | [] => crash Panic            (* groups[0] out of range *)
          | g :: _ => ret g
          end ;;
    r <- call (c_Ask C "Atlas Project Name or ID" (GroupName g0))
              (EvAsk "Atlas Project Name or ID" (GroupName g0)) ;;
    match r with
    | Err err => return_ (Err err)
    | Ok projectResponse =>
      if isObjectIDHex projectResponse then ret projectResponse
      else
        let groupID := default "" (groupsByName !! projectResponse) in
        if negb (String.eqb groupID "") then ret groupID
        else
          g <- call (c_GroupByName C atlasClient projectResponse)
                    (EvGroupByName projectResponse) ;;
          match g with
          | Err err => return_ (Err err)
          | Ok groupFromName =>
            let groupID := GroupId groupFromName in
            if negb (String.eqb groupID "") then ret groupID
            else
              UIInfo "Could not understand response, please try again" ;;
              resolveGroupID_loop fuel' atlasClient groups groupsByName
          end
    end
  end.

(** Go leaves the order in which a map is ranged over open; the model ranges
    in the order of [map_to_list]. *)
Definition resolveGroupID (fuel : nat) : M (State C) (result string) (result string) :=
  c <- getIC ;;
  if negb (String.eqb (flagGroupID c) "") then return_ (Ok (flagGroupID c))
  else
    a <- call (c_AtlasClient C) (fun r => EvAtlasClient (errOf r)) ;;
    match a with
    | Err err =>
      return_ (Err (errors_New ("an unexpected error occurred: " ++ Error err)))
    | Ok atlasClient =>
      g <- call (c_Groups C atlasClient) EvGroups ;;
      match g with
      | Err err => return_ (Err err)
      | Ok groups =>
        let groupsByName : gmap string string :=
          foldl (fun m group => <[GroupName group := GroupId group]> m) ∅ groups in
        if Nat.eqb (size groupsByName) 0
        then return_ (Err (errors_New "no available Projects"))
        else
          UIInfo "Available Projects:" ;;
          forEach (map_to_list groupsByName)
                  (fun kv => UIInfo (fst kv ++ " - " ++ snd kv)) ;;
          groupID <- resolveGroupID_loop fuel atlasClient groups groupsByName ;;
          return_ (Ok groupID)
      end
    end.

(** *** askCreateEmptyApp (import.go:413)

    The source returns [(app, wantedNewApp, err)] in three shapes only:
    [(nil, false, err)] is [Err err], [(nil, false, nil)] is [Ok None] and
    [(app, true, nil)] is [Ok (Some app)]. *)
Definition askCreateEmptyApp (fuel : nat)
    (query defaultAppName defaultLocation defaultDeploymentModel : string)
    (stitchClient : StitchClient C)
  : M (State C) (result (option App)) (result (option App)) :=
  c <- getIC ;;
  let defaultAppName :=
    if negb (String.eqb (flagAppName c) "") then flagAppName c else defaultAppName in
  r <- AskYesNo (query ++ ": would you like to create a new app?") ;;
  match r with
  | Err err => return_ (Err err)
  | Ok confirm =>
    if negb confirm then return_ (Ok None)
    else
      r <- call (c_Ask C "App name" defaultAppName) (EvAsk "App name" defaultAppName) ;;
      match r with
      | Err err => return_ (Err err)
      | Ok appName =>
        r <- invoke (resolveGroupID fuel) ;;
        match r with
        | Err err => return_ (Err err)
        | Ok groupID =>
          r <- call (c_FetchAppsByGroupID C stitchClient groupID)
                    (EvFetchAppsByGroupID groupID) ;;
          match r with
          | Err err => return_ (Err err)
          | Ok apps =>
            if existsb (fun app => String.eqb (Name app) appName) apps
            then return_ (Err (errors_New
                   ("app already exists with name " ++ strconv_Quote C appName)))
            else
              r <- call (c_AskWithOptions C "Location" defaultLocation locationOptions)
                        (EvAskWithOptions "Location" defaultLocation locationOptions) ;;
              match r with
              | Err err => return_ (Err err)
              | Ok location =>
                r <- call (c_AskWithOptions C "Deployment Model" defaultDeploymentModel
                             deploymentModelOptions)
                          (EvAskWithOptions "Deployment Model" defaultDeploymentModel
                             deploymentModelOptions) ;;
                match r with
                | Err err => return_ (Err err)
                | Ok deploymentModel =>
                  r <- call (c_CreateEmptyApp C stitchClient groupID appName location
                               deploymentModel)
                            (EvCreateEmptyApp groupID appName location deploymentModel) ;;
                  match r with
                  | Err err => return_ (Err err)
                  | Ok app =>
                    UIInfo ("New app created: " ++ ClientAppID app) ;;
                    return_ (Ok (Some app))
                  end
                end
              end
          end
        end
      end
  end.

(** *** resolveAppDirectory (import.go:467) *)
Definition resolveAppDirectory : M (State C) (result string) (result string) :=
  c <- getIC ;;
  if negb (String.eqb (flagAppPath c) "") then
    r <- call (c_homedirExpand C (flagAppPath c)) (EvHomedirExpand (flagAppPath c)) ;;
    match r with
    | Err err => return_ (Err err)
    | Ok path =>
      e <- call (c_Stat C path) (EvStat path) ;;
      match e with
      | Some _ => return_ (Err (errors_New "directory does not exist"))
      | None => return_ (Ok path)
      end
    end
  else
    r <- call (c_GetDirectoryContainingFile C (workingDirectory c) (AppConfigFileName C))
              (EvGetDirectoryContainingFile (workingDirectory c) (AppConfigFileName C)) ;;
    return_ r.

(** *** resolveAppInstanceData (import.go:485) *)
Definition resolveAppInstanceData (path : string)
  : M (State C) (result AppInstanceData) (result AppInstanceData) :=
  r <- call (c_UnmarshalFile C path) (EvUnmarshalFile path) ;;
  c <- getIC ;;
  match r with
  | Err err =>
    if os_IsNotExist err
    then return_ (Ok ({[ AppIDField C := flagAppID c ]} : AppInstanceData))
    else return_ (Err err)
  | Ok appInstanceDataFromFile =>
    if negb (String.eqb (flagAppID c) "")
    then return_ (Ok (<[ AppIDField C := flagAppID c ]> appInstanceDataFromFile))
    else return_ (Ok appInstanceDataFromFile)
  end.

(** *** importApp (import.go:157)

    The body of [importApp] is cut where the orchestrator changes state; the
    function is the sequence of the five parts, and a [return] in a part
    ends the function. *)

(** Lines 158-190: the user, the local declaration, the client. *)
Definition loadDeclaration
  : M (State C) (option error) (string * AppInstanceData * string * StitchClient C) :=
  u <- call (c_User C) (fun r => EvUser (errOf r)) ;;
  match u with
  | Err err => return_ (Some err)
  | Ok user =>
    observe (EvLoggedIn (LoggedIn C user)) ;;
    if negb (LoggedIn C user) then return_ (Some (ErrNotLoggedIn C))
    else
      r <- invoke resolveAppDirectory ;;
      match r with
      | Err err => return_ (Some err)
      | Ok appPath =>
        r <- invoke (resolveAppInstanceData appPath) ;;
        match r with
        | Err err => return_ (Some err)
        | Ok appInstanceData =>
          r <- call (c_UnmarshalFromDir C appPath)
                    (fun r => EvUnmarshalFromDir appPath (errOf r)) ;;
          match r with
          | Err err => return_ (Some err)
          | Ok loadedApp =>
            observe (EvJsonMarshal (json_Marshal C loadedApp)) ;;
            match json_Marshal C loadedApp with
            | Err err => return_ (Some err)
            | Ok appData =>
              r <- call (c_StitchClient C) (fun r => EvStitchClient (errOf r)) ;;
              match r with
              | Err err => return_ (Some err)
              | Ok stitchClient =>
                ret (appPath, appInstanceData, appData, stitchClient)
              end
            end
          end
        end
      end
  end.

(** Lines 192-227: the remote application, fetched or created.  Falls
    through with [(app, skipDiff, appInstanceData)]; the instance data is a
    Go map, which lines 221-222 update in place. *)
Definition resolveTarget (fuel : nat) (appPath : string)
    (appInstanceData : AppInstanceData) (stitchClient : StitchClient C)
  : M (State C) (option error) (App * bool * AppInstanceData) :=
  r <- invoke (fetchAppByClientAppID (AppID appInstanceData)) ;;
  match r with
  | Ok app => ret (app, false, appInstanceData)
  | Err err =>
    match errKind err with
    | ErrAppNotFound =>
      let err :=
        if String.eqb (AppID appInstanceData) ""
        then errors_New "this app does not exist yet" else err in
      (* appNotFound: skipDiff = true *)
      modifyIC (set_flagStrategy importStrategyReplace) ;;
      r <- invoke (askCreateEmptyApp fuel (Error err) (AppName appInstanceData)
                     (AppLocation appInstanceData)
                     (AppDeploymentModel appInstanceData) stitchClient) ;;
      match r with
      | Err err => return_ (Some err)
      | Ok None => return_ None
      | Ok (Some app) =>
        let appInstanceData : AppInstanceData :=
          <[ AppNameField C := Name app ]>
            (<[ AppIDField C := ClientAppID app ]> appInstanceData) in
        w <- call (c_writeAppConfigToFile C appPath appInstanceData)
                  (EvWriteAppConfigToFile appPath appInstanceData) ;;
        match w with
        | Some writeErr => return_ (Some (errCreateAppSyncFailure writeErr))
        | None => ret (app, true, appInstanceData)
        end
      end
    | _ => return_ (Some err)
    end
  end.

(** Lines 229-272: the hosting assets.  Falls through with
    [(rootDir, assetMetadataDiffs)]. *)
Definition prepareAssets (appPath : string) (appInstanceData : AppInstanceData)
    (app : App) (stitchClient : StitchClient C)
  : M (State C) (option error) (string * option (AssetMetadataDiffs C)) :=
  r <- call (c_filepathAbs C (filepath_Join C appPath (HostingFilesDirectory C)))
            (EvFilepathAbs (filepath_Join C appPath (HostingFilesDirectory C))) ;;
  match r with
  | Err dirErr => return_ (Some dirErr)
  | Ok rootDir =>
    c <- getIC ;;
    if flagIncludeHosting c then
      r <- call (c_MetadataFileToAssetDescriptions C
                   (filepath_Join C appPath (HostingAttributes C)))
                (fun r => EvMetadataFileToAssetDescriptions
                            (filepath_Join C appPath (HostingAttributes C)) (errOf r)) ;;
      match r with
      | Err fileErr =>
        return_ (Some (errIncludeHosting
                   (errors_New ("error loading metadata.json file: " ++ Error fileErr))))
      | Ok assetDescs =>
        r <- call (c_getAssetCachePath C (flagConfigPath c))
                  (EvGetAssetCachePath (flagConfigPath c)) ;;
        match r with
        | Err cPErr => return_ (Some cPErr)
        | Ok cachePath =>
          r <- call (c_CacheFileToAssetCache C cachePath)
                    (fun r => EvCacheFileToAssetCache cachePath (errOf r)) ;;
          assetCache <- match r with
                        | Err cErr =>
                          if negb (os_IsNotExist cErr) then return_ (Some cErr)
                          else observe EvNewAssetCache ;; ret (NewAssetCache C)
                        | Ok assetCache => ret assetCache
                        end ;;
          r <- call (c_ListLocalAssetMetadata C (AppID appInstanceData) rootDir
                       assetDescs assetCache)
                    (fun r => EvListLocalAssetMetadata (AppID appInstanceData) rootDir
                                (cacheText C (snd r)) (errOf (fst r))) ;;
          (* the call updates the cache it is given *)
          let assetCache := snd r in
          match fst r with
          | Err aMErr =>
            return_ (Some (errIncludeHosting
                       (errors_New ("error processing local assets " ++ rootDir
                                    ++ ": " ++ Error aMErr))))
          | Ok localAssetMetadata =>
            observe (EvCacheDirty (cacheText C assetCache) (Dirty C assetCache)) ;;
            (if Dirty C assetCache then
               u <- call (c_UpdateCacheFile C cachePath assetCache)
                         (EvUpdateCacheFile cachePath (cacheText C assetCache)) ;;
               match u with
               | Some uError => UIError (Error uError)
               | None => ret tt
               end
             else ret tt) ;;
            r <- call (c_ListAssetsForAppID C stitchClient (GroupID app) (ID app))
                      (fun r => EvListAssetsForAppID (GroupID app) (ID app) (errOf r)) ;;
            match r with
            | Err rAMErr =>
              return_ (Some (errIncludeHosting
                         (errors_New ("error retrieving remote assets: " ++ Error rAMErr))))
            | Ok remoteAssetMetadata =>
              c <- getIC ;;
              let merge := String.eqb (flagStrategy c) importStrategyMerge in
              let assetMetadataDiffs :=
                DiffAssetMetadata C localAssetMetadata remoteAssetMetadata merge in
              observe (EvDiffAssetMetadata merge
                         (match assetMetadataDiffs with Some _ => false | None => true end)) ;;
              ret (rootDir, assetMetadataDiffs)
            end
          end
        end
      end
    else ret (rootDir, None)
  end.

(** Lines 274-304: the diff and its confirmation. *)
Definition confirmDiff (app : App) (appData : string)
    (assetMetadataDiffs : option (AssetMetadataDiffs C)) (skipDiff : bool)
    (stitchClient : StitchClient C)
  : M (State C) (option error) unit :=
  c <- getIC ;;
  if negb (flagYes c) && negb skipDiff then
    r <- call (c_Diff C stitchClient (GroupID app) (ID app) appData (flagStrategy c))
              (EvDiff (GroupID app) (ID app) appData (flagStrategy c)) ;;
    match r with
    | Err diffErr =>
      return_ (Some (errors_New ("failed to diff app with currently deployed instance: "
                                 ++ Error diffErr)))
    | Ok diffs =>
      diffs <- (if flagIncludeHosting c then
                  match assetMetadataDiffs with
                  | Some d =>
                    let hostingDiff := AssetMetadataDiffs_Diff C d in
                    observe (EvAssetDiff hostingDiff) ;;
                    ret (diffs ++ hostingDiff)
                  | None => ret diffs
                  end
                else ret diffs) ;;
      if Nat.eqb (length diffs) 0 then
        UIInfo "Deployed app is identical to proposed version, nothing to do." ;;
        return_ None
      else
        forEach diffs UIInfo ;;
        r <- AskYesNo "Please confirm the changes shown above:" ;;
        match r with
        | Err askErr => return_ (Some askErr)
        | Ok confirm => if negb confirm then return_ None else ret tt
        end
    end
  else ret tt.

(** Lines 306-334: the push, the assets, the re-fetch.  [body.Close] is
    deferred at line 326: it runs when the function returns.  Every path
    of this part ends in a [return]. *)
Definition applyAndSync (appPath : string) (app : App) (appData rootDir : string)
    (assetMetadataDiffs : option (AssetMetadataDiffs C))
    (stitchClient : StitchClient C)
  : M (State C) (option error) (option error) :=
  UIInfo "Importing app..." ;;
  c <- getIC ;;
  e <- call (c_Import C stitchClient (GroupID app) (ID app) appData (flagStrategy c))
            (EvImport (GroupID app) (ID app) appData (flagStrategy c)) ;;
  match e with
  | Some importErr =>
    return_ (Some (errors_New ("failed to import app: " ++ Error importErr)))
  | None =>
    UIInfo "Done." ;;
    (if flagIncludeHosting c then
       match assetMetadataDiffs with
       | Some d =>
         UIInfo "Importing hosting assets..." ;;
         e <- call (c_ImportHosting C (GroupID app) (ID app) rootDir d
                      (flagResetCDNCache c) stitchClient)
                   (EvImportHosting (GroupID app) (ID app) rootDir (flagResetCDNCache c)) ;;
         match e with
         | Some hostingImportErr =>
           return_ (Some (errors_New ("failed to import hosting assets "
                                      ++ Error hostingImportErr)))
         | None => UIInfo "Done."
         end
       | None => ret tt
       end
     else ret tt) ;;
    r <- call (c_Export C stitchClient (GroupID app) (ID app) false)
              (fun r => EvExport (GroupID app) (ID app) false (errOf r)) ;;
    match r with
    | Err err => return_ (Some (errImportAppSyncFailure err))
    | Ok body =>
      e <- call (c_writeToDirectory C appPath body true)
                (EvWriteToDirectory appPath true) ;;
      match e with
      | Some err =>
        call (c_Close C body) (fun _ => EvBodyClose) ;;
        return_ (Some (errImportAppSyncFailure err))
      | None =>
        UIInfo ("Successfully imported '" ++ ClientAppID app ++ "'") ;;
        call (c_Close C body) (fun _ => EvBodyClose) ;;
        return_ None
      end
    end
  end.

Definition importApp (fuel : nat) : M (State C) (option error) (option error) :=
  l <- loadDeclaration ;;
  let '(appPath, appInstanceData, appData, stitchClient) := l in
  t <- resolveTarget fuel appPath appInstanceData stitchClient ;;
  let '(app, skipDiff, appInstanceData) := t in
  a <- prepareAssets appPath appInstanceData app stitchClient ;;
  let '(rootDir, assetMetadataDiffs) := a in
  confirmDiff app appData assetMetadataDiffs skipDiff stitchClient ;;
  applyAndSync appPath app appData rootDir assetMetadataDiffs stitchClient.

(** *** Run (import.go:128) *)

(** Lines 131-137: each [flags.StringVar] and [flags.BoolVar] gives its
    variable the default value. *)
Definition registerFlags (c : ImportCommand) : ImportCommand :=
  mkImportCommand (flagYes c) (flagConfigPath c) (workingDirectory c)
    "" "" "" "" importStrategyMerge false false.

(** The flag set assigns a parsed value to the variable registered under
    the flag's name. *)
Definition setFlag (c : ImportCommand) (a : string * FlagValue) : ImportCommand :=
  let '(name, v) := a in
  match v with
  | FVString s =>
    if String.eqb name flagAppIDName then
      mkImportCommand (flagYes c) (flagConfigPath c) (workingDirectory c)
        s (flagAppPath c) (flagAppName c) (flagGroupID c) (flagStrategy c)
        (flagIncludeHosting c) (flagResetCDNCache c)
    else if String.eqb name importFlagPath then
      mkImportCommand (flagYes c) (flagConfigPath c) (workingDirectory c)
        (flagAppID c) s (flagAppName c) (flagGroupID c) (flagStrategy c)
        (flagIncludeHosting c) (flagResetCDNCache c)
    else if String.eqb name flagProjectIDName then
      mkImportCommand (flagYes c) (flagConfigPath c) (workingDirectory c)
        (flagAppID c) (flagAppPath c) (flagAppName c) s (flagStrategy c)
        (flagIncludeHosting c) (flagResetCDNCache c)
    else if String.eqb name importFlagAppName then
      mkImportCommand (flagYes c) (flagConfigPath c) (workingDirectory c)
        (flagAppID c) (flagAppPath c) s (flagGroupID c) (flagStrategy c)
        (flagIncludeHosting c) (flagResetCDNCache c)
    else if String.eqb name importFlagStrategy then set_flagStrategy s c
    else c
  | FVBool b =>
    if String.eqb name importFlagIncludeHosting then
      mkImportCommand (flagYes c) (flagConfigPath c) (workingDirectory c)
        (flagAppID c) (flagAppPath c) (flagAppName c) (flagGroupID c) (flagStrategy c)
        b (flagResetCDNCache c)
    else if String.eqb name importFlagResetCDNCache then
      mkImportCommand (flagYes c) (flagConfigPath c) (workingDirectory c)
        (flagAppID c) (flagAppPath c) (flagAppName c) (flagGroupID c) (flagStrategy c)
        (flagIncludeHosting c) b
    else c
  end.

Definition setBase (br : BaseResult) (c : ImportCommand) : ImportCommand :=
  mkImportCommand (br_yes br) (br_configPath br) (workingDirectory c)
    (flagAppID c) (flagAppPath c) (flagAppName c) (flagGroupID c) (flagStrategy c)
    (flagIncludeHosting c) (flagResetCDNCache c).

(** Modelled from the spec: [BaseCommand.run] is declared outside src/; the
    spec leaves flag and argument parsing to a collaborator and lists the
    flags of the command.  The parser reports the flags it found on the
    command line; the flag set assigns them, in order, to the variables
    registered for them, and the base command keeps its own settings. *)
Definition BaseCommand_run (args : list string)
  : M (State C) (option error) (option error) :=
  br <- call (c_baseRun C args) (EvBaseRun args) ;;
  modifyIC (fun c => fold_left setFlag (br_assigned br) (setBase br c)) ;;
  return_ (br_err br).

Definition Run (fuel : nat) (args : list string) : M (State C) Z Z :=
  modifyIC registerFlags ;;
  err <- invoke (BaseCommand_run args) ;;
  match err with
  | Some err => UIError (Error err) ;; return_ 1%Z
  | None =>
    c <- getIC ;;
    if negb (String.eqb (flagStrategy c) importStrategyMerge)
       && negb (String.eqb (flagStrategy c) importStrategyReplace)
    then
      UIError ("unknown import strategy " ++ strconv_Quote C (flagStrategy c)
               ++ "; accepted values are [" ++ importStrategyMerge ++ "|"
               ++ importStrategyReplace ++ "]") ;;
      return_ 1%Z
    else
      err <- invoke (importApp fuel) ;;
      match err with
      | Some err => UIError (Error err) ;; return_ 1%Z
      | None => return_ 0%Z
      end
  end.

End Command.

Arguments call {C R A} f ev.
Arguments observe {C R} ev.
Arguments getIC {C R}.
Arguments modifyIC {C R} f.
Arguments UIError {C R} msg.
Arguments UIInfo {C R} msg.
Arguments AskYesNo {C R} query.
Arguments forEach {C R A} l body.

(** ** A scripted world, to run the model

    The world is the list of the answers still to come at the yes/no
    prompts; everything else is fixed by the scenario. *)
Record Scenario : Type := mkScenario {
  sc_strategy : option string;     (* the value of --strategy, when given *)
  sc_yes : bool;                   (* the unconditional-yes override *)
  sc_hosting : bool;               (* --include-hosting *)
  sc_decodeFails : bool;           (* the local declaration is malformed *)
  sc_appFound : bool;              (* the remote lookup finds the app *)
  sc_dirty : bool;                 (* the asset cache after hashing *)
  sc_cacheWriteFails : bool;
  sc_diff : list string;           (* the remote configuration diff *)
  sc_assetDiff : list string;      (* the asset diff lines *)
  sc_importFails : bool;
  sc_exportFails : bool;
  sc_writeBackFails : bool
}.

Definition scriptedApp : App := mkApp "5d1" "g-1" "my-app-nysja" "my-app".

Definition failIf {A} (b : bool) (msg : string) (a : A) : result A :=
  if b then Err (errors_New msg) else Ok a.

Definition failIfE (b : bool) (msg : string) : option error :=
  if b then Some (errors_New msg) else None.

Definition popAnswer (w : list bool) : result bool * list bool :=
  match w with
  | [] => (Ok false, [])
  | b :: w' => (Ok b, w')
  end.

Definition scripted (sc : Scenario) : Collab :=
  {| W := list bool; User := unit; LoadedApp := unit; StitchClient := unit;
     AtlasClient := unit; AssetDescriptions := unit; AssetCache := bool;
     AssetMetadata := unit; AssetMetadataDiffs := list string; Body := unit;
     AppConfigFileName := "stitch.json";
     AppIDField := "app_id"; AppNameField := "name";
     AppLocationField := "location"; AppDeploymentModelField := "deployment_model";
     HostingFilesDirectory := "hosting/files";
     HostingAttributes := "hosting/metadata.json";
     ErrNotLoggedIn := errors_New "you are not logged in";
     strconv_Quote := fun s => ("'" ++ s ++ "'")%string;
     filepath_Join := fun a b => (a ++ "/" ++ b)%string;
     json_Marshal := fun _ => Ok "{}";
     LoggedIn := fun _ => true;
     NewAssetCache := false;
     Dirty := fun b => b;
     cacheText := fun b => if b then "hashed" else "as read";
     DiffAssetMetadata := fun _ _ _ => Some (sc_assetDiff sc);
     AssetMetadataDiffs_Diff := fun d => d;
     c_baseRun := fun _ w =>
       (mkBaseResult
          ((match sc_strategy sc with
            | Some s => [(importFlagStrategy, FVString s)]
            | None => []
            end) ++ [(importFlagIncludeHosting, FVBool (sc_hosting sc))])
          (sc_yes sc) "/home/u/.config/stitch" None, w);
     c_UIError := fun _ w => (tt, w);
     c_UIInfo := fun _ w => (tt, w);
     c_User := fun w => (Ok tt, w);
     c_StitchClient := fun w => (Ok tt, w);
     c_AtlasClient := fun w => (Ok tt, w);
     c_AskYesNo := fun _ w => popAnswer w;
     c_Ask := fun _ d w => (Ok d, w);
     c_AskWithOptions := fun _ d _ w => (Ok d, w);
     c_homedirExpand := fun p w => (Ok p, w);
     c_Stat := fun _ w => (None, w);
     c_filepathAbs := fun p w => (Ok p, w);
     c_GetDirectoryContainingFile := fun wd _ w => (Ok wd, w);
     c_UnmarshalFile := fun _ w =>
       (Ok ({[ "app_id" := "my-app-nysja" ]} : AppInstanceData), w);
     c_UnmarshalFromDir := fun _ w =>
       (failIf (sc_decodeFails sc) "invalid character in services/a.json" tt, w);
     c_writeAppConfigToFile := fun _ _ w => (None, w);
     c_writeToDirectory := fun _ _ _ w =>
       (failIfE (sc_writeBackFails sc) "disk full", w);
     c_Close := fun _ w => (tt, w);
     c_FetchAppByClientAppID := fun _ _ w =>
       (if sc_appFound sc then Ok scriptedApp
        else Err (mkError ErrAppNotFound "app not found"), w);
     c_FetchAppByGroupIDAndClientAppID := fun _ _ _ w =>
       (if sc_appFound sc then Ok scriptedApp
        else Err (mkError ErrAppNotFound "app not found"), w);
     c_FetchAppsByGroupID := fun _ _ w => (Ok [], w);
     c_CreateEmptyApp := fun _ _ _ _ _ w => (Ok scriptedApp, w);
     c_ListAssetsForAppID := fun _ _ _ w => (Ok tt, w);
     c_Diff := fun _ _ _ _ _ w => (Ok (sc_diff sc), w);
     c_Import := fun _ _ _ _ _ w => (failIfE (sc_importFails sc) "bad gateway", w);
     c_Export := fun _ _ _ _ w => (failIf (sc_exportFails sc) "timeout" tt, w);
     c_Groups := fun _ w => (Ok [mkGroup "Project 0" "5a0000000000000000000001"], w);
     c_GroupByName := fun _ _ w => (Ok (mkGroup "" ""), w);
     c_MetadataFileToAssetDescriptions := fun _ w => (Ok tt, w);
     c_getAssetCachePath := fun p w => (Ok (p ++ "/hosting_cache.json")%string, w);
     c_CacheFileToAssetCache := fun _ w => (Ok false, w);
     c_ListLocalAssetMetadata := fun _ _ _ _ w => ((Ok tt, sc_dirty sc), w);
     c_UpdateCacheFile := fun _ _ w =>
       (failIfE (sc_cacheWriteFails sc) "permission denied", w);
     c_ImportHosting := fun _ _ _ _ _ _ w => (None, w)
  |}.

(** The command as the factory makes it, in a world with the given answers. *)
Definition freshCommand : ImportCommand :=
  mkImportCommand false "" "/work/app" "" "" "" "" "" false false.

Definition start (sc : Scenario) (answers : list bool) : State (scripted sc) :=
  @mkState (scripted sc) freshCommand answers.

(** ** Reasoning about runs

    Three judgements on a computation, each with a rule for [bind], so that
    a proof follows the text of the model:
    - [emits Inv K m]: from a command that satisfies [Inv], every event [m]
      logs is in the class [K], and [Inv] holds of the command afterwards;
    - [upon P E Q m]: when [m] logs an event [e] of [E], the events before
      it are in [P], and [Q e post o] holds of what [m] logs after it and of
      how [m] ends;
    - [precedes X E m]: when [m] logs an event of [E], it has logged an
      event of [X] before. *)

(** How a computation ends, its value apart. *)
Inductive Fate (R : Type) : Type :=
| Falls
| Returns (r : R)
| Cut (c : Abort).
Arguments Falls {R}.
Arguments Returns {R} r.
Arguments Cut {R} c.

Definition fate {R A} (o : Outcome R A) : Fate R :=
  match o with
  | Val _ => Falls
  | Ret r => Returns r
  | Crash c => Cut c
  end.

(** What holds when a part falls through holds whatever comes next. *)
Definition lasting {R} (Q : Event -> list Event -> Fate R -> Prop) : Prop :=
  forall e post l o, Q e post Falls -> Q e (post ++ l) o.

Definition anyIC : ImportCommand -> Prop := fun _ => True.

Section Judgements.

Context {C : Collab}.

Definition emits {R A} (Inv : ImportCommand -> Prop) (K : Event -> Prop)
    (m : M (State C) R A) : Prop :=
  forall s, Inv (ic s) -> Forall K (log (m s)) /\ Inv (ic (st (m s))).

Definition upon {R A} (P E : Event -> Prop)
    (Q : Event -> list Event -> Fate R -> Prop) (m : M (State C) R A) : Prop :=
  forall s pre e post,
    log (m s) = pre ++ e :: post -> E e ->
    Forall P pre /\ Q e post (fate (out (m s))).

Definition precedes {R A} (X E : Event -> Prop) (m : M (State C) R A) : Prop :=
  forall s pre e post,
    log (m s) = pre ++ e :: post -> E e -> Exists X pre.

End Judgements.

(** ** Classes of events

    One class for each part of [importApp]: the events the part can log. *)

Definition confirmQuery : string := "Please confirm the changes shown above:".

Definition noopNotice : string :=
  "Deployed app is identical to proposed version, nothing to do.".

Definition isCreateQuery (q : string) : Prop :=
  exists x, q = (x ++ ": would you like to create a new app?")%string.

Definition K_appDirectory (e : Event) : Prop :=
  match e with
  | EvHomedirExpand _ _ | EvStat _ _ | EvGetDirectoryContainingFile _ _ _ => True
  | _ => False
  end.

Definition K_appInstanceData (e : Event) : Prop :=
  match e with EvUnmarshalFile _ _ => True | _ => False end.

Definition K_load (e : Event) : Prop :=
  match e with
  | EvUser _ | EvLoggedIn _ | EvHomedirExpand _ _ | EvStat _ _
  | EvGetDirectoryContainingFile _ _ _ | EvUnmarshalFile _ _
  | EvUnmarshalFromDir _ _ | EvJsonMarshal _ | EvStitchClient _ => True
  | _ => False
  end.

Definition K_fetch (e : Event) : Prop :=
  match e with
  | EvStitchClient _ | EvFetchAppByClientAppID _ _
  | EvFetchAppByGroupIDAndClientAppID _ _ _ => True
  | _ => False
  end.

Definition K_groupID (e : Event) : Prop :=
  match e with
  | EvAtlasClient _ | EvGroups _ | EvUIInfo _ | EvAsk _ _ _ | EvGroupByName _ _ => True
  | _ => False
  end.

Definition K_create (e : Event) : Prop :=
  match e with
  | EvAskYesNo q _ => isCreateQuery q
  | EvAsk _ _ _ | EvAskWithOptions _ _ _ _ | EvAtlasClient _ | EvGroups _
  | EvGroupByName _ _ | EvFetchAppsByGroupID _ _ | EvCreateEmptyApp _ _ _ _ _
  | EvUIInfo _ => True
  | _ => False
  end.

Definition K_target (e : Event) : Prop :=
  match e with
  | EvAskYesNo q _ => isCreateQuery q
  | EvStitchClient _ | EvFetchAppByClientAppID _ _
  | EvFetchAppByGroupIDAndClientAppID _ _ _
  | EvAsk _ _ _ | EvAskWithOptions _ _ _ _ | EvAtlasClient _ | EvGroups _
  | EvGroupByName _ _ | EvFetchAppsByGroupID _ _ | EvCreateEmptyApp _ _ _ _ _
  | EvUIInfo _ | EvWriteAppConfigToFile _ _ _ => True
  | _ => False
  end.

Definition K_assets (e : Event) : Prop :=
  match e with
  | EvFilepathAbs _ _ | EvMetadataFileToAssetDescriptions _ _
  | EvGetAssetCachePath _ _ | EvCacheFileToAssetCache _ _ | EvNewAssetCache
  | EvListLocalAssetMetadata _ _ _ _ | EvCacheDirty _ _ | EvUpdateCacheFile _ _ _
  | EvUIError _ | EvListAssetsForAppID _ _ _ | EvDiffAssetMetadata _ _ => True
  | _ => False
  end.

Definition K_confirm (e : Event) : Prop :=
  match e with
  | EvAskYesNo q _ => q = confirmQuery
  | EvDiff _ _ _ _ _ | EvAssetDiff _ | EvUIInfo _ => True
  | _ => False
  end.

Definition K_apply (e : Event) : Prop :=
  match e with
  | EvUIInfo _ | EvImport _ _ _ _ _ | EvImportHosting _ _ _ _ _
  | EvExport _ _ _ _ | EvWriteToDirectory _ _ _ | EvBodyClose => True
  | _ => False
  end.

Definition K_import (e : Event) : Prop :=
  K_load e \/ K_target e \/ K_assets e \/ K_confirm e \/ K_apply e.

Definition K_run (e : Event) : Prop :=
  match e with
  | EvBaseRun _ _ | EvUIError _ => True
  | _ => K_import e
  end.

(** What changes the remote application or the local directory after the
    confirmation: the push, the asset operations, the re-fetch and the
    write-back. *)
Definition isApplyStep (e : Event) : Prop :=
  match e with
  | EvImport _ _ _ _ _ | EvImportHosting _ _ _ _ _ | EvExport _ _ _ _
  | EvWriteToDirectory _ _ _ => True
  | _ => False
  end.

(** The events of [importApp] after its first part, and after its second. *)
Definition K_afterLoad (e : Event) : Prop :=
  K_target e \/ K_assets e \/ K_confirm e \/ K_apply e.

Definition K_afterTarget (e : Event) : Prop :=
  K_assets e \/ K_confirm e \/ K_apply e.

Definition isBaseRun (e : Event) : Prop :=
  match e with EvBaseRun _ _ => True | _ => False end.

Definition isUIError (e : Event) : Prop :=
  match e with EvUIError _ => True | _ => False end.

(** ** The statements of the claims: classes of events and what holds upon them *)

Definition isDecodeFailure (e : Event) : Prop :=
  match e with EvUnmarshalFromDir _ (Some _) => True | _ => False end.

(** The calls that change the remote side: the creation of an application,
    the push, the asset operations. *)
Definition isRemoteMutation (e : Event) : Prop :=
  match e with
  | EvCreateEmptyApp _ _ _ _ _ | EvImport _ _ _ _ _ | EvImportHosting _ _ _ _ _ => True
  | _ => False
  end.

Definition notRemoteMutation (e : Event) : Prop := ~ isRemoteMutation e.

Definition decodeFailureReturned (e : Event) (post : list Event)
    (o : Fate (option error)) : Prop :=
  match e with
  | EvUnmarshalFromDir _ (Some err) => post = [] /\ o = Returns (Some err)
  | _ => False
  end.

Definition decodeFailureReported (e : Event) (post : list Event) (o : Fate Z) : Prop :=
  match e with
  | EvUnmarshalFromDir _ (Some err) =>
    post = [EvUIError (Error err)] /\ o = Returns 1%Z
  | _ => False
  end.

(** ** Scenarios *)

Definition scDecodeFails : Scenario :=
  mkScenario None false false true true false false [] [] false false false.

(** What can come after the push. *)
Definition isAfterPush (e : Event) : Prop :=
  match e with
  | EvImportHosting _ _ _ _ _ | EvExport _ _ _ _ | EvWriteToDirectory _ _ _
  | EvBodyClose => True
  | _ => False
  end.

Definition notAfterPush (e : Event) : Prop := ~ isAfterPush e.

Definition K_afterPush (e : Event) : Prop :=
  match e with EvUIInfo _ => True | _ => isAfterPush e end.

Definition isPushFailure (e : Event) : Prop :=
  match e with EvImport _ _ _ _ (Some _) => True | _ => False end.

Definition pushFailureMessage (importErr : error) : string :=
  "failed to import app: " ++ Error importErr.

Definition pushFailureReturned (e : Event) (post : list Event)
    (o : Fate (option error)) : Prop :=
  match e with
  | EvImport _ _ _ _ (Some importErr) =>
    post = [] /\ o = Returns (Some (errors_New (pushFailureMessage importErr)))
  | _ => False
  end.

Definition pushFailureReported (e : Event) (post : list Event) (o : Fate Z) : Prop :=
  match e with
  | EvImport _ _ _ _ (Some importErr) =>
    post = [EvUIError (pushFailureMessage importErr)] /\ o = Returns 1%Z
  | _ => False
  end.
Definition notApplyStep (e : Event) : Prop := ~ isApplyStep e.

(** The user answers no at a yes/no prompt. *)
Definition isDecline (e : Event) : Prop :=
  match e with EvAskYesNo _ (Ok false) => True | _ => False end.

Definition isConfirmDecline (e : Event) : Prop :=
  match e with EvAskYesNo q (Ok false) => q = confirmQuery | _ => False end.

Definition createDeclined (e : Event) (post : list Event)
    (o : Fate (result (option App))) : Prop :=
  post = [] /\ o = Returns (Ok None).

Definition declineReturned (e : Event) (post : list Event)
    (o : Fate (option error)) : Prop :=
  post = [] /\ o = Returns None.

Definition declineReported (e : Event) (post : list Event) (o : Fate Z) : Prop :=
  post = [] /\ o = Returns 0%Z.

Definition isWriteAppConfig (e : Event) : Prop :=
  match e with EvWriteAppConfigToFile _ _ _ => True | _ => False end.

Definition isAssetDiff (e : Event) : Prop :=
  match e with EvAssetDiff _ => True | _ => False end.

Definition isUIInfo (e : Event) : Prop :=
  match e with EvUIInfo _ => True | _ => False end.

(** The lookup finds the app, the diff has one line, and the user is asked
    to confirm. *)
Definition scConfirm : Scenario :=
  mkScenario None false false false true false false ["+ service: twilio"] []
    false false false.

(** The lookup finds no app, and the user is asked whether to create one. *)
Definition scNotFound : Scenario :=
  mkScenario (Some "merge") false false false false false false ["+ service: twilio"] []
    false false false.

(** The remote configuration diff is computed and has no line. *)
Definition isEmptyDiff (e : Event) : Prop :=
  match e with EvDiff _ _ _ _ (Ok []) => True | _ => False end.

(** No asset diff line is merged in. *)
Definition noAssetLines (l : list Event) : Prop :=
  forall lines, In (EvAssetDiff lines) l -> lines = [].

Definition noopEnd {R} (r : R) (e : Event) (post : list Event) (o : Fate R) : Prop :=
  noAssetLines post ->
  o = Returns r
  /\ (post = [EvUIInfo noopNotice] \/ post = [EvAssetDiff []; EvUIInfo noopNotice]).

Definition K_afterDiff (e : Event) : Prop :=
  match e with
  | EvAskYesNo _ _ | EvAssetDiff _ | EvUIInfo _ => True
  | _ => False
  end.



Definition isNewAssetCache (e : Event) : Prop :=
  match e with EvNewAssetCache => True | _ => False end.


Definition K_afterAssets (e : Event) : Prop := K_confirm e \/ K_apply e.

(** The diff is empty, with and without hosting. *)
Definition scNoop : Scenario :=
  mkScenario None false true false true false false [] [] false false false.


(** The re-fetch of the deployed application or the write-back into the
    local directory fails. *)
Definition syncFailure (e : Event) : option error :=
  match e with
  | EvExport _ _ _ (Some err) | EvWriteToDirectory _ _ (Some err) => Some err
  | _ => None
  end.

Definition isSyncFailure (e : Event) : Prop :=
  match syncFailure e with Some _ => True | None => False end.

Definition isPushSuccess (e : Event) : Prop :=
  match e with EvImport _ _ _ _ None => True | _ => False end.

Definition anyEvent (e : Event) : Prop := True.

Definition syncFailureEnd {R} (wrap : error -> R) (tail : error -> list Event)
    (e : Event) (post : list Event) (o : Fate R) : Prop :=
  match e with
  | EvExport _ _ _ (Some err) => post = tail err /\ o = Returns (wrap err)
  | EvWriteToDirectory _ _ (Some err) =>
    post = EvBodyClose :: tail err /\ o = Returns (wrap err)
  | _ => False
  end.

(** The messages of the failures of the apply step itself. *)
Definition isApplyFailureMessage (msg : string) : Prop :=
  exists err,
    msg = ("failed to import app: " ++ Error err)%string
    \/ msg = ("failed to import hosting assets " ++ Error err)%string.

Definition K_hosting (e : Event) : Prop :=
  match e with EvUIInfo _ | EvImportHosting _ _ _ _ _ => True | _ => False end.

Definition scExportFails : Scenario :=
  mkScenario None true false false true false false [] [] false true false.

(** The command and the state after the flags were registered and parsed
    (import.go:129-139). *)
Definition parsedCommand (C : Collab) (args : list string) (s : State C)
  : ImportCommand :=
  let br := fst (c_baseRun C args (world s)) in
  fold_left setFlag (br_assigned br) (setBase br (registerFlags (ic s))).

Definition parsedState (C : Collab) (args : list string) (s : State C) : State C :=
  mkState (parsedCommand C args s) (snd (c_baseRun C args (world s))).

(** The test of import.go:144, and the message of line 145. *)
Definition validStrategy (strategy : string) : bool :=
  negb (negb (String.eqb strategy importStrategyMerge)
        && negb (String.eqb strategy importStrategyReplace)).

Definition unknownStrategyMessage (C : Collab) (strategy : string) : string :=
  "unknown import strategy " ++ strconv_Quote C strategy
  ++ "; accepted values are [" ++ importStrategyMerge ++ "|"
  ++ importStrategyReplace ++ "]".

(** Everything that reads or writes asset state: the metadata file, the
    asset cache and its file, the hashing of the local assets, the remote
    listing, the asset diff, the asset operations. *)
Definition isAssetEvent (e : Event) : Prop :=
  match e with
  | EvMetadataFileToAssetDescriptions _ _ | EvGetAssetCachePath _ _
  | EvCacheFileToAssetCache _ _ | EvNewAssetCache | EvListLocalAssetMetadata _ _ _ _
  | EvCacheDirty _ _ | EvUpdateCacheFile _ _ _ | EvListAssetsForAppID _ _ _
  | EvDiffAssetMetadata _ _ | EvAssetDiff _ | EvImportHosting _ _ _ _ _ => True
  | _ => False
  end.

Definition notAssetEvent (e : Event) : Prop := ~ isAssetEvent e.

Definition hostingOff (c : ImportCommand) : Prop := flagIncludeHosting c = false.

Definition scPlain : Scenario :=
  mkScenario None true false false true false false [] [] false false false.

Definition scBadStrategy : Scenario :=
  mkScenario (Some "overwrite") false false false true false false [] []
    false false false.

(** The lookup finds no app and the user has one created (the answer yes at
    the prompt). *)
Definition scCreate : Scenario :=
  mkScenario (Some "merge") false false false false false false ["+ service: twilio"] []
    false false false.

Definition scPushFails : Scenario :=
  mkScenario None true false false true false false [] [] true false false.

(** The remote lookup reports that the application is not found. *)
Definition isNotFoundLookup (e : Event) : Prop :=
  match e with
  | EvFetchAppByClientAppID _ (Err err)
  | EvFetchAppByGroupIDAndClientAppID _ _ (Err err) => errKind err = ErrAppNotFound
  | _ => False
  end.

(** The remote configuration diff and the confirmation prompt. *)
Definition isDiffOrConfirm (e : Event) : Prop :=
  match e with
  | EvDiff _ _ _ _ _ => True
  | EvAskYesNo q _ => q = confirmQuery
  | _ => False
  end.

Definition notDiffOrConfirm (e : Event) : Prop := ~ isDiffOrConfirm e.

(** Every push is made with the strategy [replace]. *)
Definition pushesReplace (e : Event) : Prop :=
  match e with
  | EvImport _ _ _ strategy _ => strategy = importStrategyReplace
  | _ => True
  end.

Definition strategyReplace (c : ImportCommand) : Prop :=
  flagStrategy c = importStrategyReplace.

Definition notFoundReturned (e : Event) (post : list Event)
    (o : Fate (result App)) : Prop :=
  post = [] /\ exists err, o = Returns (Err err) /\ errKind err = ErrAppNotFound.

Definition skipped (e : Event) : Prop := notDiffOrConfirm e /\ pushesReplace e.

(** The computation never ends in a run-time panic. *)
Definition noPanic {C : Collab} {R A} (m : M (State C) R A) : Prop :=
  forall s, out (m s) <> Crash Panic.

(** ** A second scripted world

    The world holds the answers still to come at the yes/no prompts and at
    the text prompts; a text prompt with no answer left takes its default. *)
Record Script : Type := mkScript {
  x_flags : list (string * FlagValue);   (* the flags on the command line *)
  x_yes : bool;                          (* the unconditional-yes override *)
  x_fileAppID : option string;           (* the app id of stitch.json, if the file exists *)
  x_appFound : bool;                     (* the remote lookup finds the app *)
  x_groups : list Group;                 (* the projects Atlas lists *)
  x_apps : list App;                     (* the apps of the project *)
  x_cacheMissing : bool;                 (* there is no asset cache file *)
  x_listAssetsFails : bool;
  x_diff : list string
}.

Definition popText (d : string) (w : list bool * list string)
  : result string * (list bool * list string) :=
  match snd w with
  | [] => (Ok d, w)
  | t :: ts => (Ok t, (fst w, ts))
  end.

Definition popYesNo (w : list bool * list string)
  : result bool * (list bool * list string) :=
  match fst w with
  | [] => (Ok true, w)
  | b :: bs => (Ok b, (bs, snd w))
  end.

Definition played (x : Script) : Collab :=
  {| W := list bool * list string; User := unit; LoadedApp := unit;
     StitchClient := unit; AtlasClient := unit; AssetDescriptions := unit;
     AssetCache := bool; AssetMetadata := unit; AssetMetadataDiffs := list string;
     Body := unit;
     AppConfigFileName := "stitch.json";
     AppIDField := "app_id"; AppNameField := "name";
     AppLocationField := "location"; AppDeploymentModelField := "deployment_model";
     HostingFilesDirectory := "hosting/files";
     HostingAttributes := "hosting/metadata.json";
     ErrNotLoggedIn := errors_New "you are not logged in";
     strconv_Quote := fun s => ("'" ++ s ++ "'")%string;
     filepath_Join := fun a b => (a ++ "/" ++ b)%string;
     json_Marshal := fun _ => Ok "{}";
     LoggedIn := fun _ => true;
     NewAssetCache := false;
     Dirty := fun b => b;
     cacheText := fun b => if b then "hashed" else "as read";
     DiffAssetMetadata := fun _ _ _ => Some [];
     AssetMetadataDiffs_Diff := fun d => d;
     c_baseRun := fun _ w => (mkBaseResult (x_flags x) (x_yes x) "/cfg" None, w);
     c_UIError := fun _ w => (tt, w);
     c_UIInfo := fun _ w => (tt, w);
     c_User := fun w => (Ok tt, w);
     c_StitchClient := fun w => (Ok tt, w);
     c_AtlasClient := fun w => (Ok tt, w);
     c_AskYesNo := fun _ w => popYesNo w;
     c_Ask := fun _ d w => popText d w;
     c_AskWithOptions := fun _ d _ w => (Ok d, w);
     c_homedirExpand := fun p w => (Ok p, w);
     c_Stat := fun _ w => (None, w);
     c_filepathAbs := fun p w => (Ok p, w);
     c_GetDirectoryContainingFile := fun wd _ w => (Ok wd, w);
     c_UnmarshalFile := fun _ w =>
       (match x_fileAppID x with
        | Some id => Ok ({[ "app_id" := id ]} : AppInstanceData)
        | None => Err (mkError ErrNotExist "stitch.json: no such file")
        end, w);
     c_UnmarshalFromDir := fun _ w => (Ok tt, w);
     c_writeAppConfigToFile := fun _ _ w => (None, w);
     c_writeToDirectory := fun _ _ _ w => (None, w);
     c_Close := fun _ w => (tt, w);
     c_FetchAppByClientAppID := fun _ _ w =>
       (if x_appFound x then Ok scriptedApp
        else Err (mkError ErrAppNotFound "app not found"), w);
     c_FetchAppByGroupIDAndClientAppID := fun _ _ _ w =>
       (if x_appFound x then Ok scriptedApp
        else Err (mkError ErrAppNotFound "app not found"), w);
     c_FetchAppsByGroupID := fun _ _ w => (Ok (x_apps x), w);
     c_CreateEmptyApp := fun _ g n _ _ w =>
       (Ok (mkApp "5d2" g (n ++ "-abcde")%string n), w);
     c_ListAssetsForAppID := fun _ _ _ w =>
       (failIf (x_listAssetsFails x) "service unavailable" tt, w);
     c_Diff := fun _ _ _ _ _ w => (Ok (x_diff x), w);
     c_Import := fun _ _ _ _ _ w => (None, w);
     c_Export := fun _ _ _ _ w => (Ok tt, w);
     c_Groups := fun _ w => (Ok (x_groups x), w);
     c_GroupByName := fun _ n w => (Ok (mkGroup n ""), w);
     c_MetadataFileToAssetDescriptions := fun _ w => (Ok tt, w);
     c_getAssetCachePath := fun p w => (Ok (p ++ "/hosting_cache.json")%string, w);
     c_CacheFileToAssetCache := fun _ w =>
       (if x_cacheMissing x
        then Err (mkError ErrNotExist "hosting_cache.json: no such file")
        else Ok false, w);
     c_ListLocalAssetMetadata := fun _ _ _ c w => ((Ok tt, c), w);
     c_UpdateCacheFile := fun _ _ w => (None, w);
     c_ImportHosting := fun _ _ _ _ _ _ w => (None, w)
  |}.

Definition onStage (x : Script) (yesNo : list bool) (texts : list string)
  : State (played x) :=
  @mkState (played x) freshCommand (yesNo, texts).

Definition twoProjects : list Group :=
  [mkGroup "Project 0" "5a0000000000000000000001";
   mkGroup "Sandbox" "5a0000000000000000000002"].

(** ** Further properties of the command: classes and invariants *)

(** The command was given the unconditional-yes override. *)
Definition yesGiven (c : ImportCommand) : Prop := flagYes c = true.

(** The strategy a diff or a push is made with is the one given or
    [replace], and one of the two the service knows; the asset diff merges
    only when the strategy given is [merge]. *)
Definition usesStrategy (given : string) (e : Event) : Prop :=
  match e with
  | EvDiff _ _ _ strategy _ | EvImport _ _ _ strategy _ =>
    (strategy = given \/ strategy = importStrategyReplace)
    /\ (strategy = importStrategyMerge \/ strategy = importStrategyReplace)
  | EvDiffAssetMetadata merge _ => merge = true -> given = importStrategyMerge
  | _ => True
  end.

Definition strategyFrom (given : string) (c : ImportCommand) : Prop :=
  (flagStrategy c = given \/ flagStrategy c = importStrategyReplace)
  /\ validStrategy (flagStrategy c) = true.

Definition projectPrompt : string := "Atlas Project Name or ID".

(** How the project id of the command line routes the calls: without one,
    the application is looked up by its client app id alone; with one, it
    is looked up and created in that project, and neither Atlas nor the
    user is asked for a project. *)
Definition routed (project : string) (e : Event) : Prop :=
  match e with
  | EvFetchAppByClientAppID _ _ => project = ""
  | EvFetchAppByGroupIDAndClientAppID g _ _ => g = project /\ project <> ""
  | EvAtlasClient _ | EvGroups _ | EvGroupByName _ _ => project = ""
  | EvAsk q _ _ => q = projectPrompt -> project = ""
  | EvFetchAppsByGroupID g _ | EvCreateEmptyApp g _ _ _ _ => project <> "" -> g = project
  | _ => True
  end.

Definition projectIs (project : string) (c : ImportCommand) : Prop :=
  flagGroupID c = project.

Definition isGroups (e : Event) : Prop :=
  match e with EvGroups _ => True | _ => False end.

Section FurtherJudgements.

Context {C : Collab}.

(** [yields Inv V m]: from a command that satisfies [Inv], the value [m]
    falls through with is in [V]. *)
Definition yields {R A} (Inv : ImportCommand -> Prop) (V : A -> Prop)
    (m : M (State C) R A) : Prop :=
  forall s a, Inv (ic s) -> out (m s) = Val a -> V a.

(** [outOfFuelAfter X m]: [m] exceeds the bound on the iterations of the
    prompt loop only after it has logged an event of [X]. *)
Definition outOfFuelAfter {R A} (X : Event -> Prop) (m : M (State C) R A) : Prop :=
  forall s, out (m s) = Crash OutOfFuel -> Exists X (log (m s)).

End FurtherJudgements.

(** The project id is given and the lookup finds the app. *)
Definition xsProject : Script :=
  mkScript [("project-id", FVString "5a0000000000000000000002")] true
    (Some "my-app-nysja") true twoProjects [] false false [].

(** No stitch.json, no app: the user has one created in the project
    "Sandbox", named at the second attempt. *)
Definition xsCreate : Script :=
  mkScript [("include-hosting", FVBool true)] false None false twoProjects []
    true false ["+ a"].

(** *** Failures

    The message the command reports when a call fails and the command does
    not go on.  It goes on after four failures, for which there is no
    message: a stitch.json or an asset cache file that does not exist, a
    lookup that finds no app, an asset cache file that cannot be written. *)
Definition reportOf (C : Collab) (e : Event) : option string :=
  match e with
  | EvUser (Some err) | EvHomedirExpand _ (Err err)
  | EvGetDirectoryContainingFile _ _ (Err err) | EvUnmarshalFromDir _ (Some err)
  | EvJsonMarshal (Err err)
  | EvAskYesNo _ (Err err) | EvAsk _ _ (Err err) | EvAskWithOptions _ _ _ (Err err)
  | EvGroups (Err err) | EvGroupByName _ (Err err) | EvFetchAppsByGroupID _ (Err err)
  | EvCreateEmptyApp _ _ _ _ (Err err) | EvFilepathAbs _ (Err err)
  | EvGetAssetCachePath _ (Err err) => Some (Error err)
  | EvLoggedIn false => Some (Error (ErrNotLoggedIn C))
  | EvStat _ (Some _) => Some "directory does not exist"
  | EvUnmarshalFile _ (Err err) | EvCacheFileToAssetCache _ (Some err) =>
    if os_IsNotExist err then None else Some (Error err)
  | EvStitchClient (Some err) | EvFetchAppByClientAppID _ (Err err)
  | EvFetchAppByGroupIDAndClientAppID _ _ (Err err) =>
    match errKind err with
    | ErrAppNotFound => None
    | _ => Some (Error err)
    end
  | EvAtlasClient (Some err) => Some ("an unexpected error occurred: " ++ Error err)%string
  | EvGroups (Ok []) => Some "no available Projects"
  | EvWriteAppConfigToFile _ _ (Some err) => Some (Error (errCreateAppSyncFailure err))
  | EvMetadataFileToAssetDescriptions _ (Some err) =>
    Some ("--include-hosting error: error loading metadata.json file: "
          ++ Error err)%string
  | EvListLocalAssetMetadata _ rootDir _ (Some err) =>
    Some ("--include-hosting error: error processing local assets " ++ rootDir
          ++ ": " ++ Error err)%string
  | EvListAssetsForAppID _ _ (Some err) =>
    Some ("--include-hosting error: error retrieving remote assets: "
          ++ Error err)%string
  | EvDiff _ _ _ _ (Err err) =>
    Some ("failed to diff app with currently deployed instance: " ++ Error err)%string
  | EvImport _ _ _ _ (Some err) => Some ("failed to import app: " ++ Error err)%string
  | EvImportHosting _ _ _ _ (Some err) =>
    Some ("failed to import hosting assets " ++ Error err)%string
  | EvExport _ _ _ (Some err) | EvWriteToDirectory _ _ (Some err) =>
    Some (Error (errImportAppSyncFailure err))
  | _ => None
  end.

(** The failure of a call after which the command does not go on. *)
Definition isFatal (C : Collab) (e : Event) : Prop := reportOf C e <> None.

(** What holds upon a failure: the function returns an error that carries
    the message of the failure, and what it logs on the way is in [tail]. *)
Definition failsWith (C : Collab) {R} (wrap : error -> R -> Prop)
    (tail : list Event -> Prop)
    (e : Event) (post : list Event) (o : Fate R) : Prop :=
  tail post
  /\ exists err r, o = Returns r /\ wrap err r /\ reportOf C e = Some (Error err).

Definition asErr {A} (err : error) (r : result A) : Prop := r = Err err.

Definition asOtherErr {A} (err : error) (r : result A) : Prop :=
  r = Err err /\ errKind err <> ErrAppNotFound.

Definition asSomeErr (err : error) (r : option error) : Prop := r = Some err.

Definition nothingAfter (post : list Event) : Prop := post = [].

Definition onlyClose (post : list Event) : Prop := post = [] \/ post = [EvBodyClose].

(** Upon a failure, in [Run]: the body of the export is closed if there is
    one, the message of the failure is reported, the exit code is 1. *)
Definition failureReported (C : Collab) (e : Event) (post : list Event) (o : Fate Z)
  : Prop :=
  o = Returns 1%Z
  /\ exists msg,
       reportOf C e = Some msg
       /\ (post = [EvUIError msg] \/ post = [EvBodyClose; EvUIError msg]).

(** A call of [ic.StitchClient()]. *)
Definition isClientCall (e : Event) : bool :=
  match e with EvStitchClient _ => true | _ => false end.

Definition clientCalled (e : Event) : Prop := isClientCall e = true.

Definition isClientFailure (e : Event) : Prop :=
  match e with EvStitchClient (Some _) => True | _ => False end.

Definition clientFailureReturned (e : Event) (post : list Event)
    (o : Fate (option error)) : Prop :=
  match e with
  | EvStitchClient (Some err) => post = [] /\ o = Returns (Some err)
  | _ => False
  end.

(** The message the command reports when the call logged as [e], after the
    events [pre], fails and the command does not go on.  Two failures are
    read at their place in the run.  An error of [BaseCommand.run] (line
    139) is reported as it is.  The first call of [ic.StitchClient()] in a
    run is that of line 187, and the command returns its error whatever it
    is; a later call is that of [fetchAppByClientAppID], and its error goes
    through the type switch of line 194, as [reportOf] has it. *)
Definition reportAt (C : Collab) (pre : list Event) (e : Event) : option string :=
  match e with
  | EvBaseRun _ r =>
    match br_err r with
    | Some err => Some (Error err)
    | None => None
    end
  | EvStitchClient (Some err) =>
    if existsb isClientCall pre then reportOf C e else Some (Error err)
  | _ => reportOf C e
  end.

(** The world [C], but for the client of the service: there [ic.StitchClient()]
    fails with [err]. *)
Definition clientDown (C : Collab) (err : error) : Collab :=
  {| W := W C; User := User C; LoadedApp := LoadedApp C;
     StitchClient := StitchClient C; AtlasClient := AtlasClient C;
     AssetDescriptions := AssetDescriptions C; AssetCache := AssetCache C;
     AssetMetadata := AssetMetadata C; AssetMetadataDiffs := AssetMetadataDiffs C;
     Body := Body C; AppConfigFileName := AppConfigFileName C;
     AppIDField := AppIDField C; AppNameField := AppNameField C;
     AppLocationField := AppLocationField C;
     AppDeploymentModelField := AppDeploymentModelField C;
     HostingFilesDirectory := HostingFilesDirectory C;
     HostingAttributes := HostingAttributes C; ErrNotLoggedIn := ErrNotLoggedIn C;
     strconv_Quote := strconv_Quote C; filepath_Join := filepath_Join C;
     json_Marshal := json_Marshal C; LoggedIn := LoggedIn C;
     NewAssetCache := NewAssetCache C; Dirty := Dirty C; cacheText := cacheText C;
     DiffAssetMetadata := DiffAssetMetadata C;
     AssetMetadataDiffs_Diff := AssetMetadataDiffs_Diff C; c_baseRun := c_baseRun C;
     c_UIError := c_UIError C; c_UIInfo := c_UIInfo C; c_User := c_User C;
     c_StitchClient := fun w => (Err err, w); c_AtlasClient := c_AtlasClient C;
     c_AskYesNo := c_AskYesNo C; c_Ask := c_Ask C;
     c_AskWithOptions := c_AskWithOptions C; c_homedirExpand := c_homedirExpand C;
     c_Stat := c_Stat C; c_filepathAbs := c_filepathAbs C;
     c_GetDirectoryContainingFile := c_GetDirectoryContainingFile C;
     c_UnmarshalFile := c_UnmarshalFile C; c_UnmarshalFromDir := c_UnmarshalFromDir C;
     c_writeAppConfigToFile := c_writeAppConfigToFile C;
     c_writeToDirectory := c_writeToDirectory C; c_Close := c_Close C;
     c_FetchAppByClientAppID := c_FetchAppByClientAppID C;
     c_FetchAppByGroupIDAndClientAppID := c_FetchAppByGroupIDAndClientAppID C;
     c_FetchAppsByGroupID := c_FetchAppsByGroupID C;
     c_CreateEmptyApp := c_CreateEmptyApp C;
     c_ListAssetsForAppID := c_ListAssetsForAppID C; c_Diff := c_Diff C;
     c_Import := c_Import C; c_Export := c_Export C; c_Groups := c_Groups C;
     c_GroupByName := c_GroupByName C;
     c_MetadataFileToAssetDescriptions := c_MetadataFileToAssetDescriptions C;
     c_getAssetCachePath := c_getAssetCachePath C;
     c_CacheFileToAssetCache := c_CacheFileToAssetCache C;
     c_ListLocalAssetMetadata := c_ListLocalAssetMetadata C;
     c_UpdateCacheFile := c_UpdateCacheFile C; c_ImportHosting := c_ImportHosting C |}.

(** The app is there, the client of the service cannot be made: the error
    is of the type the lookup takes for an app that is not found. *)
Definition offline : Collab :=
  clientDown (played xsProject) (mkError ErrAppNotFound "no client for this app").

Definition offlineStart : State offline := @mkState offline freshCommand ([], []).

(** The listing of the remote assets fails. *)
Definition xsListFails : Script :=
  mkScript [("include-hosting", FVBool true)] true (Some "my-app-nysja") true
    twoProjects [] false true [].

(** *** The asset cache file is missing *)

Definition isMissingCache (e : Event) : Prop :=
  match e with
  | EvCacheFileToAssetCache _ (Some err) => os_IsNotExist err = true
  | _ => False
  end.

Definition notNewAssetCache (e : Event) : Prop := ~ isNewAssetCache e.

(** A fresh cache is made, and the local assets are hashed with it. *)
Definition freshCacheNext {R} (e : Event) (post : list Event) (o : Fate R) : Prop :=
  exists appID rootDir cache r rest,
    post = EvNewAssetCache :: EvListLocalAssetMetadata appID rootDir cache r :: rest.

(** *** The exported body *)

Definition isExport (e : Event) : Prop :=
  match e with EvExport _ _ _ _ => True | _ => False end.

Definition notClose (e : Event) : Prop :=
  match e with EvBodyClose => False | _ => True end.

(** After the re-fetch: when it failed, no body is closed; when it
    succeeded, the write-back comes next, then what [tail] allows, the close
    of the body among it.  The function does not go on. *)
Definition bodyClosed {R} (tail : list Event -> Prop)
    (e : Event) (post : list Event) (o : Fate R) : Prop :=
  o <> Falls
  /\ match e with
     | EvExport _ _ _ None =>
       exists dest w rest, post = EvWriteToDirectory dest true w :: rest /\ tail rest
     | EvExport _ _ _ (Some _) => Forall notClose post
     | _ => False
     end.

(** The body is closed once, as the last thing. *)
Definition closedLast (rest : list Event) : Prop :=
  exists mid, rest = mid ++ [EvBodyClose] /\ Forall notClose mid.

(** The body is closed once, an error report may follow. *)
Definition closedOnce (rest : list Event) : Prop :=
  exists mid tail, rest = mid ++ EvBodyClose :: tail
                   /\ Forall notClose mid /\ Forall notClose tail.

(** *** One push *)

Definition isPush (e : Event) : Prop :=
  match e with EvImport _ _ _ _ _ => True | _ => False end.

Definition notPush (e : Event) : Prop := ~ isPush e.

Definition noPushAfter {R} (e : Event) (post : list Event) (o : Fate R) : Prop :=
  o <> Falls /\ Forall notPush post.

(** *** The name of a new app *)

(** An app is created in the project [g] under the name [n]. *)
Definition isCreateIn (g n : string) (e : Event) : Prop :=
  match e with
  | EvCreateEmptyApp g' n' _ _ _ => g' = g /\ n' = n
  | _ => False
  end.

(** The apps of the project [g] are listed, and none has the name [n]. *)
Definition listsWithout (g n : string) (e : Event) : Prop :=
  match e with
  | EvFetchAppsByGroupID g' (Ok apps) =>
    g' = g /\ existsb (fun app => String.eqb (Name app) n) apps = false
  | _ => False
  end.

(** *** Values *)

Section ValueJudgement.

Context {C : Collab}.

(** [gives V G m]: the value [m] falls through with is in [V], the value
    it returns is in [G]. *)
Definition gives {R A} (V : A -> Prop) (G : R -> Prop) (m : M (State C) R A) : Prop :=
  forall s,
    match out (m s) with
    | Val a => V a
    | Ret r => G r
    | Crash _ => True
    end.

End ValueJudgement.

Definition anyValue {A} (a : A) : Prop := True.

(** A project id that was resolved is not empty. *)
Definition resolved (r : result string) : Prop :=
  match r with Ok groupID => groupID <> "" | Err _ => True end.

(** The calls that take a project id get one that is not empty. *)
Definition projectGiven (e : Event) : Prop :=
  match e with
  | EvFetchAppsByGroupID g _ | EvCreateEmptyApp g _ _ _ _ => g <> ""
  | _ => True
  end.

(** *** The instance data *)

(** What the file stitch.json gives: its data, or nothing when there is no
    such file. *)
Definition fileData (r : result AppInstanceData) : AppInstanceData :=
  match r with Ok d => d | Err _ => ∅ end.

(** The app id is given on the command line and stitch.json has another. *)
Definition xsOverride : Script :=
  mkScript [("app-id", FVString "cli-app")] true (Some "file-app") true
    twoProjects [] false false [].

(** *** A new app is recorded *)

Definition isCreated (e : Event) : Prop :=
  match e with EvCreateEmptyApp _ _ _ _ (Ok _) => True | _ => False end.

Definition notWriteAppConfig (e : Event) : Prop := ~ isWriteAppConfig e.

(** The instance data carries the identity of the app. *)
Definition recordsApp (C : Collab) (app : App) (d : AppInstanceData) : Prop :=
  d !! AppNameField C = Some (Name app)
  /\ (AppIDField C <> AppNameField C -> d !! AppIDField C = Some (ClientAppID app)).

(** Upon the creation of an app, in [askCreateEmptyApp]: the notice, and
    the app is returned. *)
Definition createdReturned (e : Event) (post : list Event)
    (o : Fate (result (option App))) : Prop :=
  match e with
  | EvCreateEmptyApp _ _ _ _ (Ok app) =>
    post = [EvUIInfo ("New app created: " ++ ClientAppID app)]
    /\ o = Returns (Ok (Some app))
  | _ => False
  end.

(** Upon the creation of an app, in [importApp]: the notice, then the
    instance data with the identity of the app is written. *)
Definition createdRecorded (C : Collab) {R} (e : Event) (post : list Event)
    (o : Fate R) : Prop :=
  match e with
  | EvCreateEmptyApp _ _ _ _ (Ok app) =>
    exists dest d w rest,
      post = EvUIInfo ("New app created: " ++ ClientAppID app)
             :: EvWriteAppConfigToFile dest d w :: rest
      /\ recordsApp C app d
  | _ => False
  end.

(** *** Consent and target *)

(** The user answers yes at a yes/no prompt. *)
Definition isConsent (e : Event) : Prop :=
  match e with
  | EvAskYesNo q (Ok true) => q = confirmQuery \/ isCreateQuery q
  | _ => False
  end.

(** The remote lookup or the creation gives the app. *)
Definition givesApp (app : App) (e : Event) : Prop :=
  match e with
  | EvFetchAppByClientAppID _ (Ok app')
  | EvFetchAppByGroupIDAndClientAppID _ _ (Ok app')
  | EvCreateEmptyApp _ _ _ _ (Ok app') => app' = app
  | _ => False
  end.

(** The remote calls on an app are made on the app [app]. *)
Definition targets (app : App) (e : Event) : Prop :=
  match e with
  | EvListAssetsForAppID g id _ | EvDiff g id _ _ _ | EvImport g id _ _ _
  | EvImportHosting g id _ _ _ | EvExport g id _ _ => g = GroupID app /\ id = ID app
  | _ => True
  end.

(** A remote call on an app. *)
Definition isOnApp (e : Event) : Prop :=
  match e with
  | EvListAssetsForAppID _ _ _ | EvDiff _ _ _ _ _ | EvImport _ _ _ _ _
  | EvImportHosting _ _ _ _ _ | EvExport _ _ _ _ => True
  | _ => False
  end.

Definition yesNotGiven (c : ImportCommand) : Prop := flagYes c = false.

Section UnlessJudgement.

Context {C : Collab}.

(** [unless X V G m]: unless [m] has logged an event of [X], the value it
    falls through with is in [V] and the value it returns is in [G]. *)
Definition unless {R A} (X : Event -> Prop) (V : A -> Prop) (G : R -> Prop)
    (m : M (State C) R A) : Prop :=
  forall s,
    Exists X (log (m s))
    \/ match out (m s) with
       | Val a => V a
       | Ret r => G r
       | Crash _ => True
       end.

End UnlessJudgement.

(** The app is not the one the target part falls through with. *)
Definition otherTarget (C : Collab) (app : App) (t : App * bool * AppInstanceData) : Prop :=
  fst (fst t) <> app.

(** The target part falls through with [skipDiff] unset. *)
Definition diffNotSkipped (t : App * bool * AppInstanceData) : Prop :=
  snd (fst t) = false.

(** The parts of [importApp] that come after the target part. *)
Definition afterTarget (C : Collab) (appPath : string) (appInstanceData : AppInstanceData)
    (app : App) (appData : string) (skipDiff : bool) (stitchClient : StitchClient C)
  : M (State C) (option error) (option error) :=
  (a <- prepareAssets C appPath appInstanceData app stitchClient ;;
   let '(rootDir, assetMetadataDiffs) := a in
   confirmDiff C app appData assetMetadataDiffs skipDiff stitchClient ;;
   applyAndSync C appPath app appData rootDir assetMetadataDiffs stitchClient)%go.

(** *** The login *)

Definition isLoggedInUser (e : Event) : Prop :=
  match e with EvLoggedIn true => True | _ => False end.

(** Everything the command does past the parsing of the flags and the
    check of the login, the report of an error apart. *)
Definition needsLogin (e : Event) : Prop :=
  match e with
  | EvBaseRun _ _ | EvUIError _ | EvUser _ | EvLoggedIn _ => False
  | _ => True
  end.

Definition never {A} (a : A) : Prop := False.

(** *** The app directory *)

(** The app directory an event names. *)
Definition pathOf (e : Event) : option string :=
  match e with
  | EvUnmarshalFile p _ | EvUnmarshalFromDir p _ | EvWriteAppConfigToFile p _ _
  | EvWriteToDirectory p _ _ => Some p
  | _ => None
  end.

Definition namesPath (p : string) (e : Event) : Prop := pathOf e = Some p.

Definition notNamesPath (p : string) (e : Event) : Prop := pathOf e <> Some p.

(** The event reads or writes nothing outside the app directory [p]. *)
Definition usesPath (C : Collab) (p : string) (e : Event) : Prop :=
  match e with
  | EvUnmarshalFile p' _ | EvUnmarshalFromDir p' _ | EvWriteAppConfigToFile p' _ _
  | EvWriteToDirectory p' _ _ => p' = p
  | EvFilepathAbs x _ => x = filepath_Join C p (HostingFilesDirectory C)
  | EvMetadataFileToAssetDescriptions x _ => x = filepath_Join C p (HostingAttributes C)
  | _ => True
  end.

Section SidedJudgement.

Context {C : Collab}.

(** [sided A B V m]: every event [m] logs is in [A], and then a value it
    falls through with satisfies [V]; or every event it logs is in [B], and
    then a value it falls through with does not satisfy [V]. *)
Definition sided {R A0} (A B : Event -> Prop) (V : A0 -> bool)
    (m : M (State C) R A0) : Prop :=
  forall s,
    (Forall A (log (m s)) /\ forall a, out (m s) = Val a -> V a = true)
    \/ (Forall B (log (m s)) /\ forall a, out (m s) = Val a -> V a = false).

End SidedJudgement.

(** The declaration was loaded from the directory [p]. *)
Definition loadedFrom (C : Collab) (p : string)
    (l : string * AppInstanceData * string * StitchClient C) : bool :=
  String.eqb (fst (fst (fst l))) p.

(** *** The questions about a new app *)

Definition createSuffix : string := ": would you like to create a new app?".

(** What the user is asked when the app is not found, for the instance
    data [d] and the app name [flagName] of the command line: the question
    says that the app does not exist yet when the data has no app id; the
    name proposed is the one of the command line, or else the one of the
    data; the location and the deployment model proposed are those of the
    data. *)
Definition asksAbout (C : Collab) (d : AppInstanceData) (flagName : string)
    (e : Event) : Prop :=
  match e with
  | EvAskYesNo q _ =>
    isCreateQuery q
    /\ (AppID C d = "" -> q = ("this app does not exist yet" ++ createSuffix)%string)
  | EvAsk q def _ =>
    (q = "App name"
     /\ def = if String.eqb flagName "" then AppName C d else flagName)
    \/ q = projectPrompt
  | EvAskWithOptions q def options _ =>
    (q = "Location" /\ def = AppLocation C d /\ options = locationOptions)
    \/ (q = "Deployment Model" /\ def = AppDeploymentModel C d
        /\ options = deploymentModelOptions)
  | _ => True
  end.

Definition appNameIs (flagName : string) (c : ImportCommand) : Prop :=
  flagAppName c = flagName.

(** *** The asset import *)

(** The assets under [root] are imported into the app [g], [id]. *)
Definition isAssetImport (g id root : string) (e : Event) : Prop :=
  match e with
  | EvImportHosting g' id' root' _ _ => g' = g /\ id' = id /\ root' = root
  | _ => False
  end.

(** The local assets under [root] were hashed. *)
Definition isHashed (root : string) (e : Event) : Prop :=
  match e with
  | EvListLocalAssetMetadata _ root' _ None => root' = root
  | _ => False
  end.

(** The remote assets of the app [g], [id] were listed. *)
Definition isListed (g id : string) (e : Event) : Prop :=
  match e with
  | EvListAssetsForAppID g' id' None => g' = g /\ id' = id
  | _ => False
  end.

(** No asset import of [root] into [g], [id] can follow from what the asset
    part falls through with. *)
Definition noAssetImport (C : Collab) (app : App) (g id root : string)
    (a : string * option (AssetMetadataDiffs C)) : Prop :=
  snd a = None \/ fst a <> root \/ GroupID app <> g \/ ID app <> id.

(** The app is found and has hosting assets to import. *)
Definition xsHosting : Script :=
  mkScript [("include-hosting", FVBool true)] true (Some "my-app-nysja") true
    twoProjects [] false false [].

(** *** The answer at the project prompt *)

(** How the answer [resp] at the project prompt gives the project id
    [groupID], with the projects listed in [groupsByName]: as an id, as the
    name of a project listed, or as the name of a project Atlas knows. *)
Definition understoodAs (groupsByName : gmap string string) (resp groupID : string)
    (after : list Event) : Prop :=
  (isObjectIDHex resp = true /\ groupID = resp /\ after = [])
  \/ (isObjectIDHex resp = false /\ groupsByName !! resp = Some groupID
      /\ groupID <> "" /\ after = [])
  \/ (isObjectIDHex resp = false /\ default "" (groupsByName !! resp) = ""
      /\ groupID <> ""
      /\ exists g, GroupId g = groupID /\ after = [EvGroupByName resp (Ok g)]).

(** The project is named at the second attempt. *)
Definition xsLoop : Script :=
  mkScript [] false None false twoProjects [] false false [].
(** ** Rules *)

Lemma app_eq_mid {A} (l1 l2 pre post : list A) (e : A) :
  l1 ++ l2 = pre ++ e :: post ->
  (exists post1, l1 = pre ++ e :: post1 /\ post = post1 ++ l2)
  \/ (exists pre2, l2 = pre2 ++ e :: post /\ pre = l1 ++ pre2).
Proof.
  revert pre. induction l1 as [|x l1 IH]; intros pre H; simpl in H.
  - right. exists pre. split; [assumption | reflexivity].
  - destruct pre as [|y pre]; simpl in H; injection H as -> H.
    + left. exists l1. split; [reflexivity | symmetry; assumption].
    + destruct (IH _ H) as [(post1 & -> & ->) | (pre2 & -> & ->)].
      * left. exists post1. split; reflexivity.
      * right. exists pre2. split; reflexivity.
Qed.

Lemma string_length_app (a b : string) :
  String.length (a ++ b) = String.length a + String.length b.
Proof. induction a as [|c a IH]; simpl; [reflexivity | rewrite IH; reflexivity]. Qed.

(** The prompt of [askCreateEmptyApp] is never the confirmation prompt. *)
Lemma createQuery_not_confirm (q : string) : isCreateQuery q -> q <> confirmQuery.
Proof.
  intros [x ->] H.
  assert (Hlen : String.length (x ++ ": would you like to create a new app?")
                 = String.length confirmQuery) by (rewrite H; reflexivity).
  rewrite string_length_app in Hlen. simpl in Hlen.
  destruct x as [|a [|b [|c x]]]; simpl in Hlen; try lia.
  cbv in H. discriminate H.
Qed.

Section Logic.

Context {C : Collab}.

(** *** Rules for [emits] *)

Lemma emits_weaken {R A} (Inv : ImportCommand -> Prop) (K K' : Event -> Prop)
    (m : M (State C) R A) :
  emits Inv K m -> (forall e, K e -> K' e) -> emits Inv K' m.
Proof.
  intros H HK s Hs. destruct (H s Hs) as [H1 H2]. split; [|assumption].
  eapply Forall_impl; eauto.
Qed.

Lemma emits_ret {R A} Inv K (a : A) : emits Inv K (ret a : M (State C) R A).
Proof. intros s Hs. split; [constructor | assumption]. Qed.

Lemma emits_return {R A} Inv K (r : R) : emits Inv K (return_ r : M (State C) R A).
Proof. intros s Hs. split; [constructor | assumption]. Qed.

Lemma emits_crash {R A} Inv K c : emits Inv K (crash c : M (State C) R A).
Proof. intros s Hs. split; [constructor | assumption]. Qed.

Lemma emits_getIC {R} Inv K : emits Inv K (getIC : M (State C) R _).
Proof. intros s Hs. split; [constructor | assumption]. Qed.

Lemma emits_modifyIC {R} (Inv : ImportCommand -> Prop) K f :
  (forall c, Inv c -> Inv (f c)) -> emits Inv K (modifyIC f : M (State C) R _).
Proof. intros H s Hs. split; [constructor | apply H; assumption]. Qed.

Lemma emits_call {R A} Inv (K : Event -> Prop) (f : W C -> A * W C) ev :
  (forall a, K (ev a)) -> emits Inv K (call f ev : M (State C) R A).
Proof.
  intros H s Hs. split; [|assumption]. simpl. constructor; [apply H | constructor].
Qed.

Lemma emits_observe {R} Inv (K : Event -> Prop) ev :
  K ev -> emits Inv K (observe ev : M (State C) R unit).
Proof.
  intros H s Hs. split; [|assumption]. simpl. constructor; [assumption | constructor].
Qed.

Lemma emits_bind {R A B} Inv K (m : M (State C) R A) (f : A -> M (State C) R B) :
  emits Inv K m -> (forall a, emits Inv K (f a)) -> emits Inv K (bind m f).
Proof.
  intros Hm Hf s Hs. destruct (Hm s Hs) as [H1 H2]. unfold bind.
  destruct (out (m s)) as [a| |]; simpl; [|split; assumption..].
  destruct (Hf a (st (m s)) H2) as [H3 H4].
  split; [apply Forall_app; split; assumption | assumption].
Qed.

(** After [getIC] the command read is known to satisfy the invariant. *)
Lemma emits_getIC_bind {R B} (Inv : ImportCommand -> Prop) K
    (k : ImportCommand -> M (State C) R B) :
  (forall c, Inv c -> emits Inv K (k c)) -> emits Inv K (bind getIC k).
Proof. intros H s Hs. unfold bind. simpl. exact (H (ic s) Hs s Hs). Qed.

Lemma emits_invoke {R R'} Inv K (body : M (State C) R' R') :
  emits Inv K body -> emits Inv K (invoke body : M (State C) R R').
Proof.
  intros H s Hs. destruct (H s Hs) as [H1 H2]. unfold invoke.
  destruct (out (body s)); simpl; split; assumption.
Qed.

Lemma emits_forEach {R A} Inv K (l : list A) (body : A -> M (State C) R unit) :
  (forall x, emits Inv K (body x)) -> emits Inv K (forEach l body).
Proof.
  intros H. induction l as [|x l IH]; simpl.
  - apply emits_ret.
  - apply emits_bind; [apply H | intros _; exact IH].
Qed.

(** An event of the log of a computation is in the class it emits. *)
Lemma emits_In {R A} K (m : M (State C) R A) s e :
  emits anyIC K m -> In e (log (m s)) -> K e.
Proof.
  intros H Hin. destruct (H s I) as [Hall _].
  rewrite List.Forall_forall in Hall. apply Hall, Hin.
Qed.

(** *** Rules for [upon] *)

Lemma upon_never {R A} P E (Q : _ -> _ -> Fate R -> Prop) K (m : M (State C) R A) :
  emits anyIC K m -> (forall e, K e -> ~ E e) -> upon P E Q m.
Proof.
  intros Hm HK s pre e post Hlog He. exfalso.
  destruct (Hm s I) as [H _]. rewrite Hlog in H.
  apply Forall_app in H as [_ H]. inversion H; subst. eapply HK; eauto.
Qed.

Lemma upon_bind {R A B} P E (Q : _ -> _ -> Fate R -> Prop)
    (m : M (State C) R A) (f : A -> M (State C) R B) :
  lasting Q -> emits anyIC P m -> upon P E Q m -> (forall a, upon P E Q (f a)) ->
  upon P E Q (bind m f).
Proof.
  intros HQ Hem Hm Hf s pre e post Hlog He. unfold bind in *.
  destruct (out (m s)) as [a|r|c] eqn:Ho; simpl in *.
  - apply app_eq_mid in Hlog as [(post1 & H1 & ->) | (pre2 & H2 & ->)].
    + destruct (Hm s _ _ _ H1 He) as [Hp Hq]. rewrite Ho in Hq.
      split; [exact Hp | apply HQ, Hq].
    + destruct (Hf a _ _ _ _ H2 He) as [Hp Hq]. split; [|exact Hq].
      apply Forall_app. split; [apply (Hem s I) | exact Hp].
  - destruct (Hm s _ _ _ Hlog He) as [Hp Hq]. rewrite Ho in Hq. split; assumption.
  - destruct (Hm s _ _ _ Hlog He) as [Hp Hq]. rewrite Ho in Hq. split; assumption.
Qed.

(** Past a part that logs no event of [E]. *)
Lemma upon_skip {R A B} P E (Q : _ -> _ -> Fate R -> Prop) K
    (m : M (State C) R A) (f : A -> M (State C) R B) :
  emits anyIC K m -> (forall e, K e -> P e /\ ~ E e) ->
  (forall a, upon P E Q (f a)) -> upon P E Q (bind m f).
Proof.
  intros Hm HK Hf s pre e post Hlog He. unfold bind in *.
  destruct (Hm s I) as [Hall _].
  assert (Hno : forall pre' post', log (m s) = pre' ++ e :: post' -> False).
  { intros pre' post' H. rewrite H in Hall. apply Forall_app in Hall as [_ Hall].
    inversion Hall; subst. eapply HK; eauto. }
  destruct (out (m s)) as [a|r|c] eqn:Ho; simpl in *;
    [|exfalso; eapply Hno; eauto..].
  apply app_eq_mid in Hlog as [(post1 & H1 & ->) | (pre2 & H2 & ->)].
  - exfalso. eapply Hno; eauto.
  - destruct (Hf a _ _ _ _ H2 He) as [Hp Hq]. split; [|exact Hq].
    apply Forall_app. split; [|exact Hp].
    eapply Forall_impl; [exact Hall|]. intros x Hx. apply HK, Hx.
Qed.

(** At a call whose event may be in [E]. *)
Lemma upon_call {R A B} (P E : Event -> Prop) (Q : _ -> _ -> Fate R -> Prop)
    (f : W C -> A * W C) ev (k : A -> M (State C) R B) :
  (forall a, P (ev a)) ->
  (forall a s, E (ev a) -> Q (ev a) (log (k a s)) (fate (out (k a s)))) ->
  (forall a, upon P E Q (k a)) ->
  upon P E Q (bind (call f ev) k).
Proof.
  intros HP Hnow Hk s pre e post Hlog He. unfold bind, call in Hlog |- *.
  simpl in *. destruct pre as [|x pre]; simpl in Hlog; injection Hlog as Hx Hlog.
  - subst e. split; [constructor|]. rewrite <- Hlog. apply Hnow, He.
  - subst x. destruct (Hk _ _ _ _ _ Hlog He) as [Hp Hq].
    split; [constructor; [apply HP | exact Hp] | exact Hq].
Qed.

Lemma upon_observe {R B} (P E : Event -> Prop) (Q : _ -> _ -> Fate R -> Prop)
    ev (k : unit -> M (State C) R B) :
  P ev ->
  (forall s, E ev -> Q ev (log (k tt s)) (fate (out (k tt s)))) ->
  upon P E Q (k tt) ->
  upon P E Q (bind (observe ev) k).
Proof.
  intros HP Hnow Hk s pre e post Hlog He. unfold bind, observe in Hlog |- *.
  simpl in *. destruct pre as [|x pre]; simpl in Hlog; injection Hlog as Hx Hlog.
  - subst e. split; [constructor|]. rewrite <- Hlog. apply Hnow, He.
  - subst x. destruct (Hk _ _ _ _ Hlog He) as [Hp Hq].
    split; [constructor; assumption | exact Hq].
Qed.

(** *** Rules for [precedes] *)

Lemma precedes_never {R A} X E K (m : M (State C) R A) :
  emits anyIC K m -> (forall e, K e -> ~ E e) -> precedes X E m.
Proof.
  intros Hm HK s pre e post Hlog He. exfalso.
  destruct (Hm s I) as [H _]. rewrite Hlog in H.
  apply Forall_app in H as [_ H]. inversion H; subst. eapply HK; eauto.
Qed.

Lemma precedes_bind {R A B} X E (m : M (State C) R A) (f : A -> M (State C) R B) :
  precedes X E m -> (forall a, precedes X E (f a)) -> precedes X E (bind m f).
Proof.
  intros Hm Hf s pre e post Hlog He. unfold bind in *.
  destruct (out (m s)) as [a|r|c] eqn:Ho; simpl in *;
    [|exact (Hm s _ _ _ Hlog He)..].
  apply app_eq_mid in Hlog as [(post1 & H1 & ->) | (pre2 & H2 & ->)].
  - exact (Hm s _ _ _ H1 He).
  - apply Exists_app. right. exact (Hf a _ _ _ _ H2 He).
Qed.

(** Past a call that is not in [E]: either its event is in [X], or the
    rest provides one. *)
Lemma precedes_call {R A B} (X E : Event -> Prop)
    (f : W C -> A * W C) ev (k : A -> M (State C) R B) :
  (forall a, ~ E (ev a)) ->
  (forall a, X (ev a) \/ precedes X E (k a)) ->
  precedes X E (bind (call f ev) k).
Proof.
  intros HE Hk s pre e post Hlog He. unfold bind, call in Hlog. simpl in Hlog.
  destruct pre as [|x pre]; simpl in Hlog; injection Hlog as Hx Hlog.
  - subst e. exfalso. eapply HE, He.
  - subst x. destruct (Hk (fst (f (world s)))) as [HX | Hp].
    + apply Exists_cons. left. exact HX.
    + apply Exists_cons. right. exact (Hp _ _ _ _ Hlog He).
Qed.

End Logic.

(** ** The events of each function of the command *)

Ltac emits_step :=
  lazymatch goal with
  | |- emits _ _ (ret _) => apply emits_ret
  | |- emits _ _ (return_ _) => apply emits_return
  | |- emits _ _ (crash _) => apply emits_crash
  | |- emits _ _ getIC => apply emits_getIC
  | |- emits _ _ (observe _) => apply emits_observe; simpl; try exact I
  | |- emits _ _ (call _ _) =>
    apply emits_call; intros; simpl; first [exact I | eexists; reflexivity | idtac]
  | |- emits _ _ (modifyIC _) => apply emits_modifyIC; intros; try assumption
  | |- emits _ _ (forEach _ _) => apply emits_forEach; intros
  | |- emits _ _ (invoke _) => apply emits_invoke
  | |- emits _ _ (bind getIC _) => apply emits_getIC_bind; intros
  | |- emits _ _ (bind _ _) => apply emits_bind; [ | intros ]
  | |- emits _ _ (match ?x with _ => _ end) => destruct x
  | |- emits _ _ (let _ := _ in _) => cbv zeta
  end.

Ltac emits_go := unfold UIInfo, UIError, AskYesNo; repeat emits_step.

Section Emits.

Context {C : Collab}.
Variable Inv : ImportCommand -> Prop.

Lemma emits_fetchAppByClientAppID id :
  emits Inv K_fetch (fetchAppByClientAppID C id).
Proof. unfold fetchAppByClientAppID. emits_go. Qed.

Lemma emits_resolveGroupID_loop fuel a g m :
  emits Inv K_groupID (resolveGroupID_loop C fuel a g m).
Proof.
  revert a g m. induction fuel as [|fuel IH]; intros; simpl; emits_go. apply IH.
Qed.

Lemma emits_resolveGroupID fuel : emits Inv K_groupID (resolveGroupID C fuel).
Proof. unfold resolveGroupID. emits_go. apply emits_resolveGroupID_loop. Qed.

Lemma emits_askCreateEmptyApp fuel q n l d cl :
  emits Inv K_create (askCreateEmptyApp C fuel q n l d cl).
Proof.
  unfold askCreateEmptyApp. emits_go.
  eapply emits_weaken; [apply emits_resolveGroupID|].
  intros e; destruct e; simpl; tauto.
Qed.

Lemma emits_resolveAppDirectory : emits Inv K_appDirectory (resolveAppDirectory C).
Proof. unfold resolveAppDirectory. emits_go. Qed.

Lemma emits_resolveAppInstanceData p :
  emits Inv K_appInstanceData (resolveAppInstanceData C p).
Proof. unfold resolveAppInstanceData. emits_go. Qed.

Lemma emits_loadDeclaration : emits Inv K_load (loadDeclaration C).
Proof.
  unfold loadDeclaration. emits_go.
  - eapply emits_weaken; [apply emits_resolveAppDirectory|].
    intros e; destruct e; simpl; tauto.
  - eapply emits_weaken; [apply emits_resolveAppInstanceData|].
    intros e; destruct e; simpl; tauto.
Qed.

Lemma emits_resolveTarget fuel p d cl :
  (forall c, Inv c -> Inv (set_flagStrategy importStrategyReplace c)) ->
  emits Inv K_target (resolveTarget C fuel p d cl).
Proof.
  intros HInv. unfold resolveTarget. emits_go.
  - eapply emits_weaken; [apply emits_fetchAppByClientAppID|].
    intros e; destruct e; simpl; tauto.
  - apply HInv; assumption.
  - eapply emits_weaken; [apply emits_askCreateEmptyApp|].
    intros ev; destruct ev; simpl; tauto.
Qed.

Lemma emits_prepareAssets p d app cl : emits Inv K_assets (prepareAssets C p d app cl).
Proof. unfold prepareAssets. emits_go. Qed.

Lemma emits_confirmDiff app data d skip cl :
  emits Inv K_confirm (confirmDiff C app data d skip cl).
Proof. unfold confirmDiff. emits_go. Qed.

Lemma emits_applyAndSync p app data root d cl :
  emits Inv K_apply (applyAndSync C p app data root d cl).
Proof. unfold applyAndSync. emits_go. Qed.

Lemma emits_importApp fuel :
  (forall c, Inv c -> Inv (set_flagStrategy importStrategyReplace c)) ->
  emits Inv K_import (importApp C fuel).
Proof.
  intros HInv. unfold importApp, K_import. emits_go.
  - eapply emits_weaken; [apply emits_loadDeclaration | tauto].
  - eapply emits_weaken; [apply emits_resolveTarget, HInv | tauto].
  - eapply emits_weaken; [apply emits_prepareAssets | tauto].
  - eapply emits_weaken; [apply emits_confirmDiff | tauto].
  - eapply emits_weaken; [apply emits_applyAndSync | tauto].
Qed.

End Emits.

(** *** Derived rules and tactics for [upon] *)

Section UponDerived.

Context {C : Collab}.

Lemma upon_silent {R A} P E (Q : _ -> _ -> Fate R -> Prop) (m : M (State C) R A) :
  (forall s, log (m s) = []) -> upon P E Q m.
Proof. intros H s pre e post Hlog. rewrite H in Hlog. destruct pre; discriminate. Qed.

Lemma upon_silent_bind {R A B} P E (Q : _ -> _ -> Fate R -> Prop)
    (m : M (State C) R A) (f : A -> M (State C) R B) :
  (forall s, log (m s) = []) -> (forall a, upon P E Q (f a)) -> upon P E Q (bind m f).
Proof.
  intros H Hf. eapply upon_skip with (K := fun _ => False); [|tauto|exact Hf].
  intros s _. rewrite H. split; [constructor | exact I].
Qed.

(** At a call of a function of the command in which the event may occur:
    [Q'] is what holds of the callee, the caller goes on from the value the
    callee returns, and what follows the call logs no event of [E]. *)
Lemma upon_invoke_end {R R' B} (P E : Event -> Prop) (Q : _ -> _ -> Fate R -> Prop)
    (Q' : _ -> _ -> Fate R' -> Prop) K (body : M (State C) R' R')
    (k : R' -> M (State C) R B) :
  upon P E Q' body ->
  (forall e post l o, E e -> Q' e post Falls -> Q e (post ++ l) o) ->
  (forall e post c, E e -> Q' e post (Cut c) -> Q e post (Cut c)) ->
  (forall e post r' s, E e -> Q' e post (Returns r') ->
     Q e (post ++ log (k r' s)) (fate (out (k r' s)))) ->
  (forall a, emits anyIC K (k a)) -> (forall e, K e -> ~ E e) ->
  upon P E Q (bind (invoke body) k).
Proof.
  intros Hb Hfall Hcut Hret Hk HK s pre e post Hlog He.
  unfold bind, invoke in Hlog |- *.
  assert (Hno : forall a s' pre' post', log (k a s') = pre' ++ e :: post' -> False).
  { intros a s' pre' post' H. destruct (Hk a s' I) as [Hall _]. rewrite H in Hall.
    apply Forall_app in Hall as [_ Hall]. inversion Hall; subst. eapply HK; eauto. }
  destruct (out (body s)) as [a|r'|c] eqn:Ho; simpl in *.
  - apply app_eq_mid in Hlog as [(post1 & H1 & ->) | (pre2 & H2 & ->)].
    + destruct (Hb s _ _ _ H1 He) as [Hp Hq]. rewrite Ho in Hq.
      split; [exact Hp | apply Hfall; assumption].
    + exfalso. eapply Hno; eauto.
  - apply app_eq_mid in Hlog as [(post1 & H1 & ->) | (pre2 & H2 & ->)].
    + destruct (Hb s _ _ _ H1 He) as [Hp Hq]. rewrite Ho in Hq.
      split; [exact Hp | apply Hret; assumption].
    + exfalso. eapply Hno; eauto.
  - destruct (Hb s _ _ _ Hlog He) as [Hp Hq]. rewrite Ho in Hq.
    split; [exact Hp | apply Hcut; assumption].
Qed.

(** When what follows a part logs no event of [E]. *)
Lemma upon_then_never {R A B} P E (Q : _ -> _ -> Fate R -> Prop) K
    (m : M (State C) R A) (f : A -> M (State C) R B) :
  lasting Q -> upon P E Q m ->
  (forall a, emits anyIC K (f a)) -> (forall e, K e -> ~ E e) ->
  upon P E Q (bind m f).
Proof.
  intros HQ Hm Hf HK s pre e post Hlog He. unfold bind in *.
  destruct (out (m s)) as [a|r|c] eqn:Ho; simpl in *.
  - apply app_eq_mid in Hlog as [(post1 & H1 & ->) | (pre2 & H2 & ->)].
    + destruct (Hm s _ _ _ H1 He) as [Hp Hq]. rewrite Ho in Hq.
      split; [exact Hp | apply HQ, Hq].
    + exfalso. destruct (Hf a (st (m s)) I) as [Hall _]. rewrite H2 in Hall.
      apply Forall_app in Hall as [_ Hall]. inversion Hall; subst. eapply HK; eauto.
  - destruct (Hm s _ _ _ Hlog He) as [Hp Hq]. rewrite Ho in Hq. split; assumption.
  - destruct (Hm s _ _ _ Hlog He) as [Hp Hq]. rewrite Ho in Hq. split; assumption.
Qed.

(** From the judgement to a statement on the log. *)
Lemma upon_In {R A} P E (Q : _ -> _ -> Fate R -> Prop) (m : M (State C) R A) s e :
  upon P E Q m -> In e (log (m s)) -> E e ->
  exists pre post,
    log (m s) = pre ++ e :: post /\ Forall P pre /\ Q e post (fate (out (m s))).
Proof.
  intros H Hin He. apply in_split in Hin as (pre & post & Hlog).
  destruct (H s pre e post Hlog He) as [Hp Hq]. exists pre, post. auto.
Qed.

End UponDerived.

Ltac upon_silent_tac := intros; reflexivity.

Ltac event_cases :=
  let e := fresh "e" in
  intros e; destruct e; simpl; unfold K_import, K_afterLoad, K_afterTarget; simpl;
  try tauto; try (intuition (try discriminate; try congruence)).

(** Side conditions that relate what holds of a callee to what holds of
    its caller. *)
Ltac transfer_cases :=
  let e := fresh "e" in
  intros e; destruct e; simpl; intros; try tauto;
  repeat match goal with
         | x : option _ |- _ => destruct x
         | x : result _ |- _ => destruct x
         | x : bool |- _ => destruct x
         | H : _ /\ _ |- _ => destruct H
         | H : Returns _ = Returns _ |- _ => injection H as H
         | H : Some _ = Some _ |- _ => injection H as H
         end;
  simpl in *; subst; simpl; try tauto; try discriminate; try congruence; auto;
  try (intuition (try discriminate; try congruence)).


Ltac emits_known :=
  first
    [ apply emits_fetchAppByClientAppID | apply emits_resolveGroupID
    | apply emits_askCreateEmptyApp | apply emits_resolveAppDirectory
    | apply emits_resolveAppInstanceData ].

(** One step along the text of the model.  Calls are taken with
    [upon_call]; the side conditions are left when they do not hold by
    computation. *)
Ltac upon_step :=
  lazymatch goal with
  | |- upon _ _ _ (ret _) => apply upon_silent; upon_silent_tac
  | |- upon _ _ _ (return_ _) => apply upon_silent; upon_silent_tac
  | |- upon _ _ _ (crash _) => apply upon_silent; upon_silent_tac
  | |- upon _ _ _ (bind getIC _) => apply upon_silent_bind; [upon_silent_tac | intros]
  | |- upon _ _ _ (bind (modifyIC _) _) =>
    apply upon_silent_bind; [upon_silent_tac | intros]
  | |- upon _ _ _ (bind (call _ _) _) =>
    apply upon_call;
    [ solve [intros; simpl; first [exact I | tauto | eexists; reflexivity]]
    | solve [ intros ? ? ?; simpl in *;
              first [ contradiction
                    | repeat match goal with
                             | x : result _ |- _ => destruct x
                             | x : option _ |- _ => destruct x
                             | x : bool |- _ => destruct x
                             end; simpl in *; first [contradiction | tauto | auto] ] ]
    | intros ]
  | |- upon _ _ _ (bind (observe _) _) =>
    apply upon_observe;
    [ solve [simpl; first [exact I | tauto]]
    | solve [intros ? ?; simpl in *; contradiction]
    | ]
  | |- upon _ _ _ (bind (invoke _) _) =>
    eapply upon_skip; [apply emits_invoke; emits_known | solve [event_cases] | intros]
  | |- upon _ _ _ (match ?x with _ => _ end) => destruct x
  | |- upon _ _ _ (let _ := _ in _) => cbv zeta
  end.

Ltac upon_go := unfold UIInfo, UIError, AskYesNo; repeat upon_step.


(** A part of [importApp], in a class that contains the part's own. *)
Ltac emits_phase :=
  first
    [ eapply emits_weaken; [apply emits_loadDeclaration | ]
    | eapply emits_weaken; [apply emits_resolveTarget; intros; exact I | ]
    | eapply emits_weaken; [apply emits_prepareAssets | ]
    | eapply emits_weaken; [apply emits_confirmDiff | ]
    | eapply emits_weaken; [apply emits_applyAndSync | ] ];
  unfold K_import, K_afterLoad, K_afterTarget; intros; tauto.

(** *** From [importApp] to [Run] *)

Section RunRules.

Context {C : Collab}.

Lemma emits_BaseCommand_run Inv args :
  (forall c br, Inv c -> Inv (fold_left setFlag (br_assigned br) (setBase br c))) ->
  emits Inv isBaseRun (BaseCommand_run C args).
Proof. intros H. unfold BaseCommand_run. emits_go. apply H; assumption. Qed.

(** What holds of [importApp] upon an event carries over to [Run], which
    reports the error returned, if any, and turns it into the exit code. *)
Lemma Run_upon (P E : Event -> Prop) (Q : Event -> list Event -> Fate Z -> Prop)
    (Q' : Event -> list Event -> Fate (option error) -> Prop) fuel args :
  upon P E Q' (importApp C fuel) ->
  (forall e, isBaseRun e -> P e) ->
  (forall e, isBaseRun e \/ isUIError e -> ~ E e) ->
  (forall e post l o, E e -> Q' e post Falls -> Q e (post ++ l) o) ->
  (forall e post c, E e -> Q' e post (Cut c) -> Q e post (Cut c)) ->
  (forall e post err, E e -> Q' e post (Returns (Some err)) ->
     Q e (post ++ [EvUIError (Error err)]) (Returns 1%Z)) ->
  (forall e post, E e -> Q' e post (Returns None) -> Q e post (Returns 0%Z)) ->
  upon P E Q (Run C fuel args).
Proof.
  intros Himp HP HE Hfall Hcut Herr Hok. unfold Run.
  apply upon_silent_bind; [reflexivity | intros _].
  eapply upon_skip with (K := isBaseRun).
  { apply emits_invoke, emits_BaseCommand_run. intros; exact I. }
  { intros e He. split; [apply HP, He | apply HE; left; exact He]. }
  intros [err|].
  { eapply upon_never with (K := isUIError); [emits_go | intros e He; apply HE; tauto]. }
  apply upon_silent_bind; [reflexivity | intros c].
  destruct (negb _ && negb _).
  { eapply upon_never with (K := isUIError); [emits_go | intros e He; apply HE; tauto]. }
  eapply upon_invoke_end with (Q' := Q') (K := isUIError).
  - exact Himp.
  - exact Hfall.
  - exact Hcut.
  - intros e post [err|] s He Hq; simpl.
    + apply Herr; assumption.
    + rewrite app_nil_r. apply Hok; assumption.
  - intros [err|]; emits_go.
  - intros e He. apply HE. tauto.
Qed.

End RunRules.


(** ** The index of line 382 is in range

    [groups[0]] is read only after line 370 has returned on an empty map of
    projects, and the map is empty exactly when the list is: the command
    never panics. *)

Section NoPanic.

Context {C : Collab}.

Lemma noPanic_bind {R A B} (m : M (State C) R A) (f : A -> M (State C) R B) :
  noPanic m -> (forall a, noPanic (f a)) -> noPanic (bind m f).
Proof.
  intros Hm Hf s. unfold bind. specialize (Hm s).
  destruct (out (m s)) as [a|r|c]; simpl; [apply Hf | discriminate |].
  intros H. apply Hm. injection H as ->. reflexivity.
Qed.

Lemma noPanic_invoke {R R'} (body : M (State C) R' R') :
  noPanic body -> noPanic (invoke body : M (State C) R R').
Proof.
  intros Hb s. unfold invoke. specialize (Hb s).
  destruct (out (body s)) as [x|x|c]; simpl; [discriminate | discriminate |].
  intros H. apply Hb. injection H as ->. reflexivity.
Qed.

Lemma noPanic_forEach {R A} (l : list A) (body : A -> M (State C) R unit) :
  (forall x, noPanic (body x)) -> noPanic (forEach l body).
Proof.
  intros H. induction l as [|x l IH]; simpl.
  - intros s. discriminate.
  - apply noPanic_bind; [apply H | intros _; exact IH].
Qed.

Ltac noPanic_step :=
  lazymatch goal with
  | |- noPanic (ret _) => intros ?; discriminate
  | |- noPanic (return_ _) => intros ?; discriminate
  | |- noPanic (crash OutOfFuel) => intros ?; discriminate
  | |- noPanic getIC => intros ?; discriminate
  | |- noPanic (observe _) => intros ?; discriminate
  | |- noPanic (call _ _) => intros ?; discriminate
  | |- noPanic (modifyIC _) => intros ?; discriminate
  | |- noPanic (forEach _ _) => apply noPanic_forEach; intros
  | |- noPanic (invoke _) => apply noPanic_invoke
  | |- noPanic (bind _ _) => apply noPanic_bind; [ | intros ]
  | |- noPanic (match ?x with _ => _ end) => destruct x
  | |- noPanic (let _ := _ in _) => cbv zeta
  end.

Ltac noPanic_go := unfold UIInfo, UIError, AskYesNo; repeat noPanic_step.

Lemma resolveGroupID_loop_noPanic fuel a g groups m :
  noPanic (resolveGroupID_loop C fuel a (g :: groups) m).
Proof. induction fuel as [|fuel IH]; simpl; noPanic_go. exact IH. Qed.

Lemma resolveGroupID_noPanic fuel : noPanic (resolveGroupID C fuel).
Proof.
  unfold resolveGroupID.
  apply noPanic_bind; [noPanic_go | intros c].
  destruct (negb _); [noPanic_go|].
  apply noPanic_bind; [noPanic_go | intros [atlasClient|err]]; [|noPanic_go].
  apply noPanic_bind; [noPanic_go | intros [groups|err]]; [|noPanic_go].
  destruct groups as [|g groups]; cbv zeta.
  - simpl foldl. rewrite map_size_empty. simpl. noPanic_go.
  - destruct (Nat.eqb _ 0); noPanic_go. apply resolveGroupID_loop_noPanic.
Qed.

Lemma askCreateEmptyApp_noPanic fuel q n l d cl :
  noPanic (askCreateEmptyApp C fuel q n l d cl).
Proof. unfold askCreateEmptyApp. noPanic_go. apply resolveGroupID_noPanic. Qed.

Lemma importApp_noPanic fuel : noPanic (importApp C fuel).
Proof.
  unfold importApp, loadDeclaration, resolveTarget, prepareAssets, confirmDiff,
    applyAndSync, resolveAppDirectory, resolveAppInstanceData, fetchAppByClientAppID.
  noPanic_go. apply askCreateEmptyApp_noPanic.
Qed.

Lemma Run_noPanic fuel args : noPanic (Run C fuel args).
Proof. unfold Run, BaseCommand_run. noPanic_go. apply importApp_noPanic. Qed.

End NoPanic.
(** ** C8: a malformed declaration *)

Section C8.

Context {C : Collab}.

Lemma loadDeclaration_decodeFailure :
  upon notRemoteMutation isDecodeFailure decodeFailureReturned (loadDeclaration C).
Proof. unfold loadDeclaration, notRemoteMutation. upon_go. Qed.

Lemma importApp_decodeFailure fuel :
  upon notRemoteMutation isDecodeFailure decodeFailureReturned (importApp C fuel).
Proof.
  unfold importApp. apply upon_bind.
  - intros e post l o. destruct e; simpl; try tauto.
    destruct err; [intros [_ H]; discriminate | tauto].
  - eapply emits_weaken; [apply emits_loadDeclaration | unfold notRemoteMutation; event_cases].
  - apply loadDeclaration_decodeFailure.
  - intros [[[appPath d] data] cl].
    eapply upon_never with (K := K_afterLoad); [|event_cases].
    unfold K_afterLoad. emits_go; emits_phase.
Qed.

Lemma Run_decodeFailure fuel args :
  upon notRemoteMutation isDecodeFailure decodeFailureReported (Run C fuel args).
Proof.
  eapply Run_upon; [apply importApp_decodeFailure | unfold notRemoteMutation..].
  1-2: event_cases.
  all: transfer_cases.
Qed.

End C8.

(** C8.  When decoding the local declaration directory fails, the run
    stops there: [Run] reports that very error and exits with code 1, and
    nothing that changes the remote side (no creation of an application, no
    push, no asset operation) has been called before. *)
Theorem C8_decode_failure_aborts_before_mutation
    (C : Collab) (fuel : nat) (args : list string) (s : State C)
    (path : string) (err : error) :
  In (EvUnmarshalFromDir path (Some err)) (log (Run C fuel args s)) ->
  out (Run C fuel args s) = Ret 1%Z
  /\ exists pre,
       log (Run C fuel args s)
       = pre ++ [EvUnmarshalFromDir path (Some err); EvUIError (Error err)]
       /\ Forall notRemoteMutation pre.
Proof.
  intros Hin.
  destruct (upon_In _ _ _ _ s _ (Run_decodeFailure fuel args) Hin I)
    as (pre & post & Hlog & Hpre & Hpost & Hout).
  subst post. split.
  - destruct (out (Run C fuel args s)); simpl in Hout; congruence.
  - exists pre. auto.
Qed.

Lemma C8_witness :
  out (Run (scripted scDecodeFails) 1 [] (start scDecodeFails [])) = Ret 1%Z
  /\ exists pre,
       log (Run (scripted scDecodeFails) 1 [] (start scDecodeFails []))
       = pre ++ [EvUnmarshalFromDir "/work/app"
                   (Some (errors_New "invalid character in services/a.json"));
                 EvUIError "invalid character in services/a.json"]
       /\ Forall notRemoteMutation pre.
Proof.
  apply (C8_decode_failure_aborts_before_mutation (scripted scDecodeFails) 1 []
           (start scDecodeFails []) "/work/app"
           (errors_New "invalid character in services/a.json")).
  vm_compute. tauto.
Defined.

(** ** C5: the push fails *)

Section C5.

Context {C : Collab}.

Lemma applyAndSync_pushFailure p app data root d cl :
  upon notAfterPush isPushFailure pushFailureReturned (applyAndSync C p app data root d cl).
Proof.
  unfold applyAndSync, notAfterPush. upon_go.
  eapply upon_never with (K := K_afterPush); [emits_go | event_cases].
Qed.

Lemma importApp_pushFailure fuel :
  upon notAfterPush isPushFailure pushFailureReturned (importApp C fuel).
Proof.
  unfold importApp, notAfterPush.
  eapply upon_skip; [apply emits_loadDeclaration | event_cases | intros [[[p d] data] cl]].
  eapply upon_skip;
    [apply emits_resolveTarget; intros; exact I | event_cases | intros [[app skip] d']].
  eapply upon_skip; [apply emits_prepareAssets | event_cases | intros [root diffs]].
  eapply upon_skip; [apply emits_confirmDiff | event_cases | intros _].
  apply applyAndSync_pushFailure.
Qed.

Lemma Run_pushFailure fuel args :
  upon notAfterPush isPushFailure pushFailureReported (Run C fuel args).
Proof.
  eapply Run_upon; [apply importApp_pushFailure | unfold notAfterPush..].
  1-2: event_cases.
  all: transfer_cases.
Qed.

End C5.

(** C5.  When the configuration push fails, the run stops there: the only
    thing that happens after the failed [Import] call is the report of the
    error, whose message wraps the failure; the exit code is 1; no asset
    operation, no re-fetch and no write-back is called, before or after. *)
Theorem C5_push_failure_aborts
    (C : Collab) (fuel : nat) (args : list string) (s : State C)
    (groupID appID appData strategy : string) (importErr : error) :
  In (EvImport groupID appID appData strategy (Some importErr))
     (log (Run C fuel args s)) ->
  out (Run C fuel args s) = Ret 1%Z
  /\ exists pre,
       log (Run C fuel args s)
       = pre ++ [EvImport groupID appID appData strategy (Some importErr);
                 EvUIError ("failed to import app: " ++ Error importErr)]
       /\ Forall notAfterPush pre.
Proof.
  intros Hin.
  destruct (upon_In _ _ _ _ s _ (Run_pushFailure fuel args) Hin I)
    as (pre & post & Hlog & Hpre & Hpost & Hout).
  subst post. split.
  - destruct (out (Run C fuel args s)); simpl in Hout; congruence.
  - exists pre. auto.
Qed.

(** ** C2 and C9: the user declines *)

Section Decline.

Context {C : Collab}.

Lemma upon_sub {R A} P (E E' : Event -> Prop) (Q : _ -> _ -> Fate R -> Prop)
    (m : M (State C) R A) :
  upon P E Q m -> (forall e, E' e -> E e) -> upon P E' Q m.
Proof. intros H HE s pre e post Hlog He. apply (H s pre e post Hlog), HE, He. Qed.

Lemma askCreateEmptyApp_decline fuel q n l d cl :
  upon notApplyStep isDecline createDeclined (askCreateEmptyApp C fuel q n l d cl).
Proof. unfold askCreateEmptyApp, notApplyStep, createDeclined. upon_go. Qed.

Lemma resolveTarget_decline fuel p d cl :
  upon notApplyStep isDecline declineReturned (resolveTarget C fuel p d cl).
Proof.
  unfold resolveTarget, notApplyStep. upon_go.
  eapply upon_invoke_end with (Q' := createDeclined) (K := isWriteAppConfig).
  - apply askCreateEmptyApp_decline.
  - unfold createDeclined. intros ? ? ? ? _ [_ H]. discriminate.
  - unfold createDeclined. intros ? ? ? _ [_ H]. discriminate.
  - unfold createDeclined, declineReturned. intros ? ? ? ? _ [-> H].
    injection H as ->. simpl. auto.
  - intros [[app|]|err]; emits_go.
  - event_cases.
Qed.

Lemma confirmDiff_decline app data diffs skip cl :
  upon notApplyStep isDecline declineReturned (confirmDiff C app data diffs skip cl).
Proof.
  unfold confirmDiff, notApplyStep, declineReturned. upon_go.
  eapply upon_skip with (K := isAssetDiff); [emits_go | event_cases | intros lines].
  destruct (Nat.eqb (length lines) 0); upon_go.
  eapply upon_skip with (K := isUIInfo); [emits_go | event_cases | intros _].
  upon_go.
Qed.

Lemma importApp_decline fuel :
  upon notApplyStep isDecline declineReturned (importApp C fuel).
Proof.
  assert (Hlast : lasting (declineReturned)).
  { intros e post l o [_ H]. discriminate. }
  unfold importApp.
  eapply upon_skip;
    [apply emits_loadDeclaration | unfold notApplyStep; event_cases
    | intros [[[p d] data] cl]].
  apply upon_bind; [exact Hlast | | apply resolveTarget_decline | intros [[app skip] d']].
  { eapply emits_weaken; [apply emits_resolveTarget; intros; exact I|].
    unfold notApplyStep; event_cases. }
  eapply upon_skip;
    [apply emits_prepareAssets | unfold notApplyStep; event_cases | intros [root diffs]].
  apply upon_bind; [exact Hlast | | apply confirmDiff_decline | intros _].
  { eapply emits_weaken; [apply emits_confirmDiff|]. unfold notApplyStep; event_cases. }
  eapply upon_never; [apply emits_applyAndSync | event_cases].
Qed.

Lemma Run_decline fuel args :
  upon notApplyStep isDecline declineReported (Run C fuel args).
Proof.
  eapply Run_upon;
    [apply importApp_decline | unfold notApplyStep, declineReturned, declineReported..].
  1-2: event_cases.
  all: intros; intuition (try discriminate; try congruence).
Qed.

End Decline.

Lemma emits_Run {C : Collab} fuel args : emits anyIC K_run (Run C fuel args).
Proof.
  unfold Run. emits_go; try exact I.
  - eapply emits_weaken; [apply emits_BaseCommand_run; intros; exact I|].
    intros e; destruct e; simpl; tauto.
  - eapply emits_weaken; [apply emits_importApp; intros; exact I|].
    intros e; destruct e; simpl; tauto.
Qed.

(** C2.  When the user declines the diff shown at the confirmation prompt,
    the run ends there with exit code 0: nothing is called after the
    prompt, and neither the push, nor an asset operation, nor the re-fetch
    or the write-back has been called before it. *)
Theorem C2_declined_diff_no_mutation
    (C : Collab) (fuel : nat) (args : list string) (s : State C) :
  In (EvAskYesNo confirmQuery (Ok false)) (log (Run C fuel args s)) ->
  out (Run C fuel args s) = Ret 0%Z
  /\ exists pre,
       log (Run C fuel args s) = pre ++ [EvAskYesNo confirmQuery (Ok false)]
       /\ Forall notApplyStep pre.
Proof.
  intros Hin.
  assert (Hup : upon notApplyStep isConfirmDecline declineReported (Run C fuel args)).
  { eapply upon_sub; [apply Run_decline|].
    intros e He. destruct e; simpl in *; try contradiction.
    destruct r as [[|]|]; tauto. }
  destruct (upon_In _ _ _ _ s _ Hup Hin eq_refl)
    as (pre & post & Hlog & Hpre & Hpost & Hout).
  subst post. split.
  - destruct (out (Run C fuel args s)); simpl in Hout; congruence.
  - exists pre. auto.
Qed.

Lemma C2_witness :
  out (Run (scripted scConfirm) 1 [] (start scConfirm [false])) = Ret 0%Z
  /\ exists pre,
       log (Run (scripted scConfirm) 1 [] (start scConfirm [false]))
       = pre ++ [EvAskYesNo confirmQuery (Ok false)]
       /\ Forall notApplyStep pre.
Proof.
  apply (C2_declined_diff_no_mutation (scripted scConfirm) 1 []
           (start scConfirm [false])).
  vm_compute. tauto.
Defined.

(** C9.  When the user answers no at a yes/no prompt, which is either the
    question whether to create a new app or the confirmation of the diff,
    the command exits with code 0, and the run ends at that answer without
    a push, an asset operation, a re-fetch or a write-back. *)
Theorem C9_decline_exits_zero
    (C : Collab) (fuel : nat) (args : list string) (s : State C) (query : string) :
  In (EvAskYesNo query (Ok false)) (log (Run C fuel args s)) ->
  out (Run C fuel args s) = Ret 0%Z
  /\ (isCreateQuery query \/ query = confirmQuery)
  /\ exists pre,
       log (Run C fuel args s) = pre ++ [EvAskYesNo query (Ok false)]
       /\ Forall notApplyStep pre.
Proof.
  intros Hin.
  destruct (upon_In _ _ _ _ s _ (Run_decline fuel args) Hin I)
    as (pre & post & Hlog & Hpre & Hpost & Hout).
  subst post. split; [|split].
  - destruct (out (Run C fuel args s)); simpl in Hout; congruence.
  - pose proof (emits_In _ _ s _ (emits_Run fuel args) Hin) as HK.
    simpl in HK. unfold K_import in HK. simpl in HK. tauto.
  - exists pre. auto.
Qed.

Lemma C9_witness :
  out (Run (scripted scNotFound) 1 [] (start scNotFound [false])) = Ret 0%Z
  /\ (isCreateQuery "app not found: would you like to create a new app?"
      \/ "app not found: would you like to create a new app?" = confirmQuery)
  /\ exists pre,
       log (Run (scripted scNotFound) 1 [] (start scNotFound [false]))
       = pre ++ [EvAskYesNo "app not found: would you like to create a new app?"
                   (Ok false)]
       /\ Forall notApplyStep pre.
Proof.
  apply (C9_decline_exits_zero (scripted scNotFound) 1 []
           (start scNotFound [false])
           "app not found: would you like to create a new app?").
  vm_compute. tauto.
Defined.

(** ** C3: an empty diff *)

Section C3.

Context {C : Collab}.

Lemma noopEnd_falls {R R'} (r : R) (r' : R') e post l o :
  noopEnd r e post Falls -> noopEnd r' e (post ++ l) o.
Proof.
  intros H Hno. exfalso.
  destruct H as [H _]; [|discriminate].
  intros lines Hin. apply Hno, in_or_app. left. exact Hin.
Qed.

Lemma noopEnd_lasting {R} (r : R) : lasting (noopEnd r).
Proof. intros e post l o. apply noopEnd_falls. Qed.

Lemma confirmDiff_noop app data diffs skip cl :
  upon notApplyStep isEmptyDiff (noopEnd None) (confirmDiff C app data diffs skip cl).
Proof.
  unfold confirmDiff, notApplyStep. upon_go.
  apply upon_call.
  - intros; simpl; tauto.
  - intros [[|x lines]|err] s He; simpl in He; try contradiction.
    match goal with
    | |- context [flagIncludeHosting ?c] => destruct (flagIncludeHosting c)
    end; [destruct diffs as [d|]|].
    + remember (AssetMetadataDiffs_Diff C d) as h eqn:Hh.
      intros Hno. assert (h = []) as ->.
      { apply Hno. unfold bind, observe. simpl. left. reflexivity. }
      simpl. auto.
    + intros _. simpl. auto.
    + intros _. simpl. auto.
  - intros r. eapply upon_never with (K := K_afterDiff); [|event_cases].
    destruct r; emits_go.
Qed.

Lemma importApp_noop fuel :
  upon notApplyStep isEmptyDiff (noopEnd None) (importApp C fuel).
Proof.
  unfold importApp.
  eapply upon_skip;
    [apply emits_loadDeclaration | unfold notApplyStep; event_cases
    | intros [[[p d] data] cl]].
  eapply upon_skip;
    [apply emits_resolveTarget; intros; exact I | unfold notApplyStep; event_cases
    | intros [[app skip] d']].
  eapply upon_skip;
    [apply emits_prepareAssets | unfold notApplyStep; event_cases | intros [root diffs]].
  eapply upon_then_never;
    [apply noopEnd_lasting | apply confirmDiff_noop | intros _; apply emits_applyAndSync
    | event_cases].
Qed.

Lemma Run_noop fuel args :
  upon notApplyStep isEmptyDiff (noopEnd 0%Z) (Run C fuel args).
Proof.
  eapply Run_upon; [apply importApp_noop | unfold notApplyStep..].
  1-2: event_cases.
  - intros e post l o _ H. exact (noopEnd_falls _ _ e post l o H).
  - intros e post c _ H Hno. destruct (H Hno) as [? _]. discriminate.
  - intros e post err _ H Hno. exfalso.
    destruct H as [H _]; [|discriminate].
    intros lines Hin. apply Hno, in_or_app. left. exact Hin.
  - intros e post _ H Hno. destruct (H Hno) as [_ Hpost]. auto.
Qed.

End C3.

(** C3.  When the remote configuration diff is computed and has no line,
    and no asset diff line is merged in, the run ends successfully: it
    shows the notice that there is nothing to do and exits with code 0,
    and neither the push, nor an asset operation, nor the re-fetch or the
    write-back is called. *)
Theorem C3_empty_diff_is_noop
    (C : Collab) (fuel : nat) (args : list string) (s : State C)
    (groupID appID appData strategy : string) :
  In (EvDiff groupID appID appData strategy (Ok [])) (log (Run C fuel args s)) ->
  (forall lines, In (EvAssetDiff lines) (log (Run C fuel args s)) -> lines = []) ->
  out (Run C fuel args s) = Ret 0%Z
  /\ (exists pre, log (Run C fuel args s) = pre ++ [EvUIInfo noopNotice])
  /\ Forall notApplyStep (log (Run C fuel args s)).
Proof.
  intros Hin Hno.
  destruct (upon_In _ _ _ _ s _ (Run_noop fuel args) Hin I)
    as (pre & post & Hlog & Hpre & Hq).
  assert (Hpost : noAssetLines post).
  { intros lines Hl. apply Hno. rewrite Hlog. apply in_or_app. right. right. exact Hl. }
  destruct (Hq Hpost) as [Hout Hshape]. split; [|split].
  - destruct (out (Run C fuel args s)); simpl in Hout; congruence.
  - destruct Hshape as [-> | ->].
    + exists (pre ++ [EvDiff groupID appID appData strategy (Ok [])]).
      rewrite Hlog, <- app_assoc. reflexivity.
    + exists (pre ++ [EvDiff groupID appID appData strategy (Ok []); EvAssetDiff []]).
      rewrite Hlog, <- app_assoc. reflexivity.
  - rewrite Hlog. apply Forall_app. split; [exact Hpre|].
    destruct Hshape as [-> | ->]; repeat constructor; unfold notApplyStep; simpl; tauto.
Qed.

Lemma C3_witness :
  out (Run (scripted scNoop) 1 [] (start scNoop [])) = Ret 0%Z
  /\ (exists pre, log (Run (scripted scNoop) 1 [] (start scNoop []))
                  = pre ++ [EvUIInfo noopNotice])
  /\ Forall notApplyStep (log (Run (scripted scNoop) 1 [] (start scNoop []))).
Proof.
  apply (C3_empty_diff_is_noop (scripted scNoop) 1 [] (start scNoop [])
           "g-1" "5d1" "{}" "merge").
  - vm_compute. tauto.
  - vm_compute. intros lines H.
    repeat (destruct H as [H|H]; [try discriminate H; injection H as <-; reflexivity|]).
    contradiction.
Defined.

(** ** C6: the re-sync fails *)

Section C6.

Context {C : Collab}.

Lemma precedes_invoke {R R'} X E (body : M (State C) R' R') :
  precedes X E body -> precedes X E (invoke body : M (State C) R R').
Proof.
  intros H s pre e post Hlog He. apply (H s pre e post); [|exact He].
  unfold invoke in Hlog. destruct (out (body s)); exact Hlog.
Qed.

Lemma precedes_skip {R A B} X E K (m : M (State C) R A) (f : A -> M (State C) R B) :
  emits anyIC K m -> (forall e, K e -> ~ E e) ->
  (forall a, precedes X E (f a)) -> precedes X E (bind m f).
Proof.
  intros Hm HK Hf. apply precedes_bind; [|exact Hf].
  eapply precedes_never; eauto.
Qed.

Lemma applyAndSync_syncFailure p app data root d cl :
  upon anyEvent isSyncFailure (syncFailureEnd (fun err => Some (errImportAppSyncFailure err)) (fun _ => []))
       (applyAndSync C p app data root d cl).
Proof.
  unfold applyAndSync, anyEvent. upon_go.
  eapply upon_skip with (K := K_hosting); [emits_go | event_cases | intros _].
  upon_go.
Qed.

Lemma importApp_syncFailure fuel :
  upon anyEvent isSyncFailure (syncFailureEnd (fun err => Some (errImportAppSyncFailure err)) (fun _ => []))
       (importApp C fuel).
Proof.
  unfold importApp, anyEvent.
  eapply upon_skip; [apply emits_loadDeclaration | event_cases | intros [[[p d] data] cl]].
  eapply upon_skip;
    [apply emits_resolveTarget; intros; exact I | event_cases | intros [[app skip] d']].
  eapply upon_skip; [apply emits_prepareAssets | event_cases | intros [root diffs]].
  eapply upon_skip; [apply emits_confirmDiff | event_cases | intros _].
  apply applyAndSync_syncFailure.
Qed.

Lemma Run_syncFailure fuel args :
  upon anyEvent isSyncFailure
       (syncFailureEnd (fun _ => 1%Z)
          (fun err => [EvUIError (Error (errImportAppSyncFailure err))]))
       (Run C fuel args).
Proof.
  eapply Run_upon; [apply importApp_syncFailure | unfold anyEvent..].
  1-2: event_cases.
  all: transfer_cases.
Qed.

Lemma applyAndSync_pushFirst p app data root d cl :
  precedes isPushSuccess isSyncFailure (applyAndSync C p app data root d cl).
Proof.
  unfold applyAndSync, UIInfo.
  apply precedes_call; [intros; simpl; tauto | intros _; right].
  eapply precedes_skip with (K := fun _ => False);
    [apply emits_getIC | tauto | intros c].
  apply precedes_call; [intros; simpl; tauto | intros [importErr|]].
  - right. eapply precedes_never with (K := fun _ => False); [emits_go | tauto].
  - left. exact I.
Qed.

Lemma importApp_pushFirst fuel :
  precedes isPushSuccess isSyncFailure (importApp C fuel).
Proof.
  unfold importApp.
  eapply precedes_skip; [apply emits_loadDeclaration | event_cases | intros [[[p d] data] cl]].
  eapply precedes_skip;
    [apply emits_resolveTarget; intros; exact I | event_cases | intros [[app skip] d']].
  eapply precedes_skip; [apply emits_prepareAssets | event_cases | intros [root diffs]].
  eapply precedes_skip; [apply emits_confirmDiff | event_cases | intros _].
  apply applyAndSync_pushFirst.
Qed.

Lemma Run_pushFirst fuel args :
  precedes isPushSuccess isSyncFailure (Run C fuel args).
Proof.
  unfold Run.
  eapply precedes_skip with (K := fun _ => False);
    [apply emits_modifyIC; intros; exact I | tauto | intros _].
  eapply precedes_skip;
    [apply emits_invoke, emits_BaseCommand_run; intros; exact I | event_cases | intros err].
  destruct err as [err|].
  { eapply precedes_never with (K := isUIError); [emits_go | event_cases]. }
  eapply precedes_skip with (K := fun _ => False);
    [apply emits_getIC | tauto | intros c].
  destruct (negb _ && negb _).
  { eapply precedes_never with (K := isUIError); [emits_go | event_cases]. }
  apply precedes_bind; [apply precedes_invoke, importApp_pushFirst | intros r].
  eapply precedes_never with (K := isUIError); [destruct r; emits_go | event_cases].
Qed.

End C6.

Lemma syncFailure_message_distinct (err : error) :
  ~ isApplyFailureMessage (Error (errImportAppSyncFailure err)).
Proof. intros [err' [H | H]]; cbn in H; discriminate H. Qed.

(** C6.  When the re-fetch of the deployed application or the write-back
    into the local directory fails, the push has succeeded before, the
    command exits with code 1, and the last thing it does is to show the
    error of the sync class, "failed to sync app with local directory after
    import: ...", which is not a message of a failure of the apply step. *)
Theorem C6_sync_failure_reported_distinctly
    (C : Collab) (fuel : nat) (args : list string) (s : State C)
    (e : Event) (err : error) :
  syncFailure e = Some err ->
  In e (log (Run C fuel args s)) ->
  out (Run C fuel args s) = Ret 1%Z
  /\ (exists pre mid,
        log (Run C fuel args s)
        = pre ++ e :: mid
              ++ [EvUIError ("failed to sync app with local directory after import: "
                             ++ Error err)]
        /\ Exists isPushSuccess pre
        /\ (mid = [] \/ mid = [EvBodyClose]))
  /\ ~ isApplyFailureMessage
         ("failed to sync app with local directory after import: " ++ Error err).
Proof.
  intros Hfail Hin.
  assert (He : isSyncFailure e) by (unfold isSyncFailure; rewrite Hfail; exact I).
  destruct (upon_In _ _ _ _ s _ (Run_syncFailure fuel args) Hin He)
    as (pre & post & Hlog & _ & Hq).
  pose proof (Run_pushFirst fuel args s pre e post Hlog He) as Hpush.
  destruct (out (Run C fuel args s)) as [a|r|c].
  all: split; [|split]; [| |apply (syncFailure_message_distinct err)].
  all: destruct e; simpl in Hfail; try discriminate Hfail.
  all: destruct err0; try discriminate Hfail; injection Hfail as ->.
  all: destruct Hq as [-> Hout]; simpl in Hout; try discriminate Hout.
  all: try (injection Hout as ->; reflexivity).
  - exists pre, []. auto.
  - exists pre, [EvBodyClose]. auto.
Qed.


Lemma C6_witness :
  out (Run (scripted scExportFails) 1 [] (start scExportFails [])) = Ret 1%Z
  /\ (exists pre mid,
        log (Run (scripted scExportFails) 1 [] (start scExportFails []))
        = pre ++ EvExport "g-1" "5d1" false (Some (errors_New "timeout")) :: mid
              ++ [EvUIError ("failed to sync app with local directory after import: "
                             ++ "timeout")]
        /\ Exists isPushSuccess pre
        /\ (mid = [] \/ mid = [EvBodyClose]))
  /\ ~ isApplyFailureMessage
         ("failed to sync app with local directory after import: " ++ "timeout").
Proof.
  apply (C6_sync_failure_reported_distinctly (scripted scExportFails) 1 []
           (start scExportFails [])
           (EvExport "g-1" "5d1" false (Some (errors_New "timeout")))
           (errors_New "timeout")).
  - reflexivity.
  - vm_compute. tauto.
Defined.

(** ** The shape of a run of the command *)

Section RunShape.

Context {C : Collab}.

(** The command stops at a parse error, or at an unknown strategy, or it
    runs [importApp] from the parsed state and reports the error it
    returns, if any. *)
Lemma Run_cases fuel args s :
  let br := fst (c_baseRun C args (world s)) in
  let cmd := parsedCommand C args s in
  match br_err br with
  | Some err =>
    log (Run C fuel args s) = [EvBaseRun args br; EvUIError (Error err)]
    /\ out (Run C fuel args s) = Ret 1%Z
    /\ ic (st (Run C fuel args s)) = cmd
  | None =>
    if validStrategy (flagStrategy cmd) then
      exists tail,
        log (Run C fuel args s)
        = EvBaseRun args br :: log (importApp C fuel (parsedState C args s)) ++ tail
        /\ Forall isUIError tail
        /\ ic (st (Run C fuel args s))
           = ic (st (importApp C fuel (parsedState C args s)))
    else
      log (Run C fuel args s)
      = [EvBaseRun args br; EvUIError (unknownStrategyMessage C (flagStrategy cmd))]
      /\ out (Run C fuel args s) = Ret 1%Z
      /\ ic (st (Run C fuel args s)) = cmd
  end.
Proof.
  intros br cmd. subst br cmd.
  unfold validStrategy, unknownStrategyMessage, parsedState, parsedCommand.
  unfold Run. remember (importApp C fuel) as imp eqn:Himp.
  unfold BaseCommand_run, bind, invoke, call, modifyIC, getIC, UIError, call,
    return_. simpl.
  destruct (br_err (fst (c_baseRun C args (world s)))) as [err|]; simpl; [auto|].
  destruct (negb _ && negb _); simpl; [auto|].
  match goal with
  | |- context [out (imp ?s1)] => destruct (out (imp s1)) as [[err|]|[err|]|c]
  end; simpl.
  all: try (exists [EvUIError (Error err)]; split; [reflexivity|];
            split; [repeat constructor | reflexivity]).
  all: exists []; split; [rewrite ?app_nil_r; reflexivity|];
    split; [constructor | reflexivity].
Qed.

(** The same, by the log alone. *)
Lemma Run_shape fuel args s :
  let br := fst (c_baseRun C args (world s)) in
  (exists msg,
     log (Run C fuel args s) = [EvBaseRun args br; EvUIError msg]
     /\ out (Run C fuel args s) = Ret 1%Z
     /\ ic (st (Run C fuel args s)) = parsedCommand C args s)
  \/ (exists tail,
        log (Run C fuel args s)
        = EvBaseRun args br :: log (importApp C fuel (parsedState C args s)) ++ tail
        /\ Forall isUIError tail
        /\ ic (st (Run C fuel args s))
           = ic (st (importApp C fuel (parsedState C args s)))).
Proof.
  intros br. pose proof (Run_cases fuel args s) as H. cbv zeta in H. fold br in H.
  destruct (br_err br) as [err|]; [left; eauto|].
  destruct (validStrategy _); [right; exact H | left; eauto].
Qed.

End RunShape.

(** ** C10: no asset sync *)

Section C10.

Context {C : Collab}.

Lemma prepareAssets_hostingOff p d app cl :
  emits hostingOff notAssetEvent (prepareAssets C p d app cl).
Proof.
  unfold prepareAssets, notAssetEvent.
  apply emits_bind; [emits_go; tauto | intros [rootDir|dirErr]]; [|emits_go].
  apply emits_getIC_bind. intros c Hc. unfold hostingOff in Hc. rewrite Hc.
  emits_go.
Qed.

Lemma prepareAssets_nil p d app cl s rootDir diffs :
  hostingOff (ic s) ->
  out (prepareAssets C p d app cl s) = Val (rootDir, diffs) -> diffs = None.
Proof.
  unfold hostingOff, prepareAssets, bind, call, getIC. simpl. intros Hc.
  destruct (fst (c_filepathAbs C _ (world s))); simpl; [|discriminate].
  rewrite Hc. simpl. congruence.
Qed.

Lemma confirmDiff_hostingOff app data diffs skip cl :
  emits hostingOff notAssetEvent (confirmDiff C app data diffs skip cl).
Proof.
  unfold confirmDiff, notAssetEvent.
  apply emits_getIC_bind. intros c Hc. unfold hostingOff in Hc. rewrite Hc.
  emits_go; tauto.
Qed.

Lemma applyAndSync_hostingOff p app data root diffs cl :
  emits hostingOff notAssetEvent (applyAndSync C p app data root diffs cl).
Proof.
  unfold applyAndSync, notAssetEvent.
  apply emits_bind; [emits_go; tauto | intros _].
  apply emits_getIC_bind. intros c Hc. unfold hostingOff in Hc. rewrite Hc.
  emits_go; tauto.
Qed.

Lemma importApp_hostingOff fuel :
  emits hostingOff notAssetEvent (importApp C fuel).
Proof.
  unfold importApp. emits_go.
  - eapply emits_weaken; [apply emits_loadDeclaration | unfold notAssetEvent; event_cases].
  - eapply emits_weaken; [apply emits_resolveTarget | unfold notAssetEvent; event_cases].
    intros c Hc. exact Hc.
  - apply prepareAssets_hostingOff.
  - apply confirmDiff_hostingOff.
  - apply applyAndSync_hostingOff.
Qed.

(** [importApp] never assigns the include-hosting flag. *)
Lemma importApp_keeps_hosting fuel b :
  emits (fun c => flagIncludeHosting c = b) K_import (importApp C fuel).
Proof. apply emits_importApp. intros c Hc. exact Hc. Qed.

End C10.

(** C10.  When the include-hosting flag is false, a run touches no asset
    state: the asset metadata file and the asset cache file are not read,
    the cache file is not written, no local asset is hashed, the remote
    assets are not listed, no asset diff is computed or shown, and no
    asset operation is applied after the push; the asset part of
    [importApp] falls through with a nil asset diff.  The flag is read on
    the command after the run: nothing assigns it once the flags are
    parsed, so it is the flag the command line gave. *)
Theorem C10_no_hosting_no_asset_state
    (C : Collab) (fuel : nat) (args : list string) (s : State C) :
  flagIncludeHosting (ic (st (Run C fuel args s))) = false ->
  flagIncludeHosting (parsedCommand C args s) = false
  /\ Forall notAssetEvent (log (Run C fuel args s))
  /\ (forall s', flagIncludeHosting (ic s') = false ->
        Forall notAssetEvent (log (importApp C fuel s'))
        /\ forall p d app cl rootDir diffs,
             out (prepareAssets C p d app cl s') = Val (rootDir, diffs) ->
             diffs = None).
Proof.
  intros Hoff.
  assert (Hparsed : flagIncludeHosting (parsedCommand C args s) = false).
  { destruct (Run_shape fuel args s) as [(msg & _ & _ & Hic) | (tail & _ & _ & Hic)].
    - rewrite <- Hic. exact Hoff.
    - destruct (flagIncludeHosting (parsedCommand C args s)) eqn:Hb; [|reflexivity].
      pose proof (proj2 (importApp_keeps_hosting fuel true (parsedState C args s) Hb)).
      congruence. }
  split; [exact Hparsed|]. split.
  - destruct (Run_shape fuel args s) as [(msg & -> & _) | (tail & -> & Htail & Hic)].
    + repeat constructor; unfold notAssetEvent; simpl; tauto.
    + constructor; [unfold notAssetEvent; simpl; tauto|].
      apply Forall_app. split.
      * apply (importApp_hostingOff fuel (parsedState C args s)). exact Hparsed.
      * eapply Forall_impl; [exact Htail|].
        intros e; destruct e; unfold notAssetEvent; simpl; tauto.
  - intros s' Hs'. split.
    + apply (importApp_hostingOff fuel s' Hs').
    + intros p d app cl rootDir diffs. apply prepareAssets_nil. exact Hs'.
Qed.

Lemma C10_witness :
  flagIncludeHosting (parsedCommand (scripted scPlain) [] (start scPlain [])) = false
  /\ Forall notAssetEvent (log (Run (scripted scPlain) 1 [] (start scPlain [])))
  /\ (forall s', flagIncludeHosting (ic s') = false ->
        Forall notAssetEvent (log (importApp (scripted scPlain) 1 s'))
        /\ forall p d app cl rootDir diffs,
             out (prepareAssets (scripted scPlain) p d app cl s') = Val (rootDir, diffs) ->
             diffs = None).
Proof.
  apply (C10_no_hosting_no_asset_state (scripted scPlain) 1 [] (start scPlain [])).
  vm_compute. reflexivity.
Defined.

(** ** C1: the remote application is not found *)

Section C1.

Context {C : Collab}.

Lemma fetchAppByClientAppID_notFound id :
  upon anyEvent isNotFoundLookup notFoundReturned (fetchAppByClientAppID C id).
Proof.
  unfold fetchAppByClientAppID, anyEvent, notFoundReturned. upon_go.
  - apply upon_call; [intros; exact I | | intros; upon_go].
    intros [app|err] s He; simpl in *; [contradiction|]. eauto.
  - apply upon_call; [intros; exact I | | intros; upon_go].
    intros [app|err] s He; simpl in *; [contradiction|]. eauto.
Qed.

(** With [skipDiff] set, the diff part does nothing. *)
Lemma confirmDiff_skip Inv app data diffs cl :
  emits Inv (fun _ => False) (confirmDiff C app data diffs true cl).
Proof.
  unfold confirmDiff. apply emits_getIC_bind. intros c _.
  rewrite andb_false_r. emits_go.
Qed.

Lemma applyAndSync_replace p app data root diffs cl :
  emits strategyReplace skipped (applyAndSync C p app data root diffs cl).
Proof.
  unfold applyAndSync, skipped, notDiffOrConfirm.
  apply emits_bind; [emits_go; tauto | intros _].
  apply emits_getIC_bind. intros c Hc. unfold strategyReplace in Hc. rewrite Hc.
  emits_go; simpl; tauto.
Qed.

(** What follows a target that was not found. *)
Lemma afterTarget_skip p d app data cl :
  emits strategyReplace skipped
    (bind (prepareAssets C p d app cl)
       (fun a =>
          let '(rootDir, assetMetadataDiffs) := a in
          bind (confirmDiff C app data assetMetadataDiffs true cl)
            (fun _ => applyAndSync C p app data rootDir assetMetadataDiffs cl))).
Proof.
  apply emits_bind; [|intros [root diffs]; apply emits_bind; [|intros _]].
  - eapply emits_weaken; [apply emits_prepareAssets|].
    unfold skipped, notDiffOrConfirm. event_cases.
  - eapply emits_weaken; [apply confirmDiff_skip | intros e []].
  - apply applyAndSync_replace.
Qed.

(** The events of the creation of an application, after the lookup. *)
Lemma emits_afterLookup Inv fuel p d cl err :
  emits Inv (fun e => K_target e /\ ~ isNotFoundLookup e)
    (bind (invoke (askCreateEmptyApp C fuel (Error err) (AppName C d) (AppLocation C d)
                     (AppDeploymentModel C d) cl))
       (fun r =>
          match r with
          | Err err => return_ (Some err)
          | Ok None => return_ None
          | Ok (Some app) =>
            let appInstanceData : AppInstanceData :=
              <[ AppNameField C := Name app ]>
                (<[ AppIDField C := ClientAppID app ]> d) in
            bind (call (c_writeAppConfigToFile C p appInstanceData)
                       (EvWriteAppConfigToFile p appInstanceData))
              (fun w =>
                 match w with
                 | Some writeErr => return_ (Some (errCreateAppSyncFailure writeErr))
                 | None => ret (app, true, appInstanceData)
                 end)
          end)).
Proof.
  emits_go; try tauto.
  eapply emits_weaken; [apply emits_askCreateEmptyApp|].
  intros ev; destruct ev; simpl; tauto.
Qed.

Lemma bind_inv {S R A B} (m : M S R A) (f : A -> M S R B) (s : S) :
  match out (m s) with
  | Val a => bind m f s = prepend (log (m s)) (f a (st (m s)))
  | Ret r => bind m f s = mkRes (Ret r) (st (m s)) (log (m s))
  | Crash c => bind m f s = mkRes (Crash c) (st (m s)) (log (m s))
  end.
Proof. unfold bind. destruct (out (m s)); reflexivity. Qed.

Lemma lookup_notFound {R} id s e :
  In e (log (invoke (R := R) (fetchAppByClientAppID C id) s)) -> isNotFoundLookup e ->
  exists err,
    out (invoke (R := R) (fetchAppByClientAppID C id) s) = Val (Err err)
    /\ errKind err = ErrAppNotFound.
Proof.
  intros Hin He.
  assert (Hin' : In e (log (fetchAppByClientAppID C id s))).
  { unfold invoke in Hin. destruct (out (fetchAppByClientAppID C id s)); exact Hin. }
  apply in_split in Hin' as (pre & post & Hlog).
  destruct (fetchAppByClientAppID_notFound id s pre e post Hlog He)
    as [_ [_ (err & Hf & Hkind)]].
  exists err. split; [|exact Hkind].
  unfold invoke. destruct (out (fetchAppByClientAppID C id s)); simpl in Hf;
    try discriminate. injection Hf as ->. reflexivity.
Qed.

(** When the lookup reports that the application is not found, the target
    part leaves the strategy [replace] in the command, and if it falls
    through, then with [skipDiff] set. *)
Lemma resolveTarget_notFound fuel p d cl s e :
  In e (log (resolveTarget C fuel p d cl s)) -> isNotFoundLookup e ->
  strategyReplace (ic (st (resolveTarget C fuel p d cl s)))
  /\ forall app skipDiff d',
       out (resolveTarget C fuel p d cl s) = Val (app, skipDiff, d') -> skipDiff = true.
Proof.
  unfold resolveTarget. intros Hin He.
  match type of Hin with
  | In _ (log (bind ?m ?k s)) =>
    pose proof (bind_inv m k s) as Hb;
    pose proof (lookup_notFound (R := option error) (AppID C d) s e) as Hm;
    remember (bind m k s) as r eqn:Hr; clear Hr;
    destruct (out (m s)) as [x|x|c] eqn:Hom
  end.
  2,3: subst r; simpl in Hin; destruct (Hm Hin He) as (err & Hf & _); discriminate.
  subst r. simpl in Hin.
  assert (Hx : exists err, x = Err err /\ errKind err = ErrAppNotFound).
  { apply in_app_or in Hin as [Hin|Hin].
    - destruct (Hm Hin He) as (err & Hf & Hkind). injection Hf as ->. eauto.
    - destruct x as [app|err]; [simpl in Hin; contradiction|].
      destruct (errKind err) eqn:Hkind; [eauto | simpl in Hin; contradiction..]. }
  destruct Hx as (err & -> & Hkind). rewrite Hkind. clear Hin Hm.
  cbv zeta. unfold bind at 1. unfold bind at 2. simpl.
  match goal with
  | |- context [bind ?m ?k ?s0] =>
    pose proof (emits_afterLookup strategyReplace fuel p d cl
                  (if String.eqb (AppID C d) "" then errors_New "this app does not exist yet"
                   else err) s0 eq_refl) as [_ Hinv]
  end.
  split; [exact Hinv|]. clear Hinv.
  intros app skipDiff d' Hout.
  unfold bind, invoke, call, return_, ret in Hout. simpl in Hout.
  repeat match type of Hout with
         | context [match ?x with _ => _ end] => destruct x; simpl in Hout
         end; congruence.
Qed.

Lemma K_load_skipped e : K_load e -> skipped e /\ ~ isNotFoundLookup e.
Proof. destruct e; unfold skipped, notDiffOrConfirm; simpl; tauto. Qed.

Lemma K_target_skipped e : K_target e -> skipped e.
Proof.
  destruct e; unfold skipped, notDiffOrConfirm; simpl; try tauto.
  intros H. split; [|exact I]. apply createQuery_not_confirm, H.
Qed.

Lemma K_afterTarget_found e : K_afterTarget e -> ~ isNotFoundLookup e.
Proof. destruct e; unfold K_afterTarget; simpl; tauto. Qed.

Lemma importApp_notFound fuel s e :
  In e (log (importApp C fuel s)) -> isNotFoundLookup e ->
  strategyReplace (ic (st (importApp C fuel s)))
  /\ Forall skipped (log (importApp C fuel s)).
Proof.
  unfold importApp. intros Hin He.
  (* the declaration *)
  match type of Hin with
  | In _ (log (bind ?m ?k s)) =>
    pose proof (bind_inv m k s) as Hb;
    pose proof (emits_loadDeclaration anyIC s I) as [Hl1 _];
    remember (bind m k s) as r eqn:Hr; clear Hr;
    destruct (out (m s)) as [[[[p d] data] cl]|x|c]
  end.
  2,3: subst r; cbn [log st out prepend] in Hin; exfalso;
       rewrite List.Forall_forall in Hl1; apply (K_load_skipped e (Hl1 e Hin)), He.
  subst r. cbn [log st out prepend] in Hin |- *.
  apply in_app_or in Hin as [Hin|Hin].
  { exfalso. rewrite List.Forall_forall in Hl1.
    apply (K_load_skipped e (Hl1 e Hin)), He. }
  assert (Hs1 : Forall skipped (log (loadDeclaration C s))).
  { eapply Forall_impl; [exact Hl1|]. intros x Hx. apply K_load_skipped, Hx. }
  rewrite Forall_app.
  remember (st (loadDeclaration C s)) as s1 eqn:Hs1eq. clear Hs1eq Hl1.
  cut (forall r1,
         r1 = (bind (resolveTarget C fuel p d cl)
                 (fun t =>
                    let '(app, skipDiff, appInstanceData) := t in
                    bind (prepareAssets C p appInstanceData app cl)
                      (fun a =>
                         let '(rootDir, assetMetadataDiffs) := a in
                         bind (confirmDiff C app data assetMetadataDiffs skipDiff cl)
                           (fun _ => applyAndSync C p app data rootDir
                                       assetMetadataDiffs cl))) s1) ->
         In e (log r1) -> strategyReplace (ic (st r1)) /\ Forall skipped (log r1)).
  { intros Hcut. destruct (Hcut _ eq_refl Hin) as [H1 H2]. auto. }
  clear Hin Hs1. intros r1 Hr1 Hin.
  (* the target *)
  match type of Hr1 with
  | _ = bind ?m ?k s1 =>
    pose proof (bind_inv m k s1) as Hb;
    pose proof (emits_resolveTarget anyIC fuel p d cl (fun _ _ => I) s1 I) as [Hl2 _];
    pose proof (resolveTarget_notFound fuel p d cl s1 e) as Hnf;
    rewrite <- Hr1 in Hb; clear Hr1;
    destruct (out (m s1)) as [[[app skipDiff] d']|x|c]
  end.
  2,3: subst r1; cbn [log st out prepend] in Hin |- *; destruct (Hnf Hin He) as [Hstrat _];
       (split; [exact Hstrat|]);
       (eapply Forall_impl; [exact Hl2|]); intros x0 Hx0; apply K_target_skipped, Hx0.
  subst r1. cbn [log st out prepend] in Hin |- *.
  assert (Hs2 : Forall skipped (log (resolveTarget C fuel p d cl s1))).
  { eapply Forall_impl; [exact Hl2|]. intros x Hx. apply K_target_skipped, Hx. }
  assert (Hin2 : In e (log (resolveTarget C fuel p d cl s1))).
  { apply in_app_or in Hin as [Hin|Hin]; [exact Hin|]. exfalso.
    eapply K_afterTarget_found; [|exact He].
    eapply emits_In; [|exact Hin].
    unfold K_afterTarget. emits_go; emits_phase. }
  destruct (Hnf Hin2 He) as [Hstrat Hskip].
  rewrite (Hskip app skipDiff d' eq_refl) in *.
  destruct (afterTarget_skip p d' app data cl _ Hstrat) as [Hl3 Hstrat3].
  split; [exact Hstrat3|]. apply Forall_app. split; assumption.
Qed.

End C1.

(** C1.  When the remote lookup reports that the application is not found,
    the command is left with the strategy [replace], whatever the strategy
    given; the remote configuration diff is not computed and the
    confirmation prompt is not shown anywhere in the run; every push of the
    run is made with [replace]; and the target part of [importApp], when it
    falls through, does so with [skipDiff] set. *)
Theorem C1_not_found_forces_replace_and_skips_diff
    (C : Collab) (fuel : nat) (args : list string) (s : State C) (e : Event) :
  isNotFoundLookup e ->
  In e (log (Run C fuel args s)) ->
  flagStrategy (ic (st (Run C fuel args s))) = importStrategyReplace
  /\ Forall notDiffOrConfirm (log (Run C fuel args s))
  /\ Forall pushesReplace (log (Run C fuel args s))
  /\ (forall p d cl s' app skipDiff d',
        In e (log (resolveTarget C fuel p d cl s')) ->
        out (resolveTarget C fuel p d cl s') = Val (app, skipDiff, d') ->
        skipDiff = true).
Proof.
  intros He Hin.
  assert (Hrun : flagStrategy (ic (st (Run C fuel args s))) = importStrategyReplace
                 /\ Forall skipped (log (Run C fuel args s))).
  { destruct (Run_shape fuel args s) as [(msg & Hlog & _) | (tail & Hlog & Htail & Hic)].
    - exfalso. rewrite Hlog in Hin. simpl in Hin.
      destruct Hin as [<- | [<- | []]]; exact He.
    - rewrite Hlog in Hin |- *. rewrite Hic.
      assert (Hin' : In e (log (importApp C fuel (parsedState C args s)))).
      { destruct Hin as [<- | Hin]; [contradiction He|].
        apply in_app_or in Hin as [Hin | Hin]; [exact Hin|]. exfalso.
        rewrite List.Forall_forall in Htail. specialize (Htail e Hin).
        destruct e; simpl in *; contradiction. }
      destruct (importApp_notFound fuel _ e Hin' He) as [Hstrat Hall].
      split; [exact Hstrat|].
      constructor; [unfold skipped, notDiffOrConfirm; simpl; tauto|].
      apply Forall_app. split; [exact Hall|].
      eapply Forall_impl; [exact Htail|].
      intros x; destruct x; unfold skipped, notDiffOrConfirm; simpl; tauto. }
  destruct Hrun as [Hstrat Hall]. split; [exact Hstrat|]. split; [|split].
  - eapply Forall_impl; [exact Hall|]. intros x [Hx _]. exact Hx.
  - eapply Forall_impl; [exact Hall|]. intros x [_ Hx]. exact Hx.
  - intros p d cl s' app skipDiff d' Hin' Hout.
    exact (proj2 (resolveTarget_notFound fuel p d cl s' e Hin' He) _ _ _ Hout).
Qed.

Lemma C1_witness :
  flagStrategy (ic (st (Run (scripted scCreate) 2 [] (start scCreate [true]))))
  = importStrategyReplace
  /\ Forall notDiffOrConfirm (log (Run (scripted scCreate) 2 [] (start scCreate [true])))
  /\ Forall pushesReplace (log (Run (scripted scCreate) 2 [] (start scCreate [true])))
  /\ (forall p d cl s' app skipDiff d',
        In (EvFetchAppByClientAppID "my-app-nysja"
              (Err (mkError ErrAppNotFound "app not found")))
           (log (resolveTarget (scripted scCreate) 2 p d cl s')) ->
        out (resolveTarget (scripted scCreate) 2 p d cl s') = Val (app, skipDiff, d') ->
        skipDiff = true).
Proof.
  apply (C1_not_found_forces_replace_and_skips_diff (scripted scCreate) 2 []
           (start scCreate [true])
           (EvFetchAppByClientAppID "my-app-nysja"
              (Err (mkError ErrAppNotFound "app not found")))).
  - reflexivity.
  - vm_compute. tauto.
Defined.

Lemma C5_witness :
  out (Run (scripted scPushFails) 1 [] (start scPushFails [])) = Ret 1%Z
  /\ exists pre,
       log (Run (scripted scPushFails) 1 [] (start scPushFails []))
       = pre ++ [EvImport "g-1" "5d1" "{}" "merge" (Some (errors_New "bad gateway"));
                 EvUIError ("failed to import app: " ++ "bad gateway")]
       /\ Forall notAfterPush pre.
Proof.
  apply (C5_push_failure_aborts (scripted scPushFails) 1 [] (start scPushFails [])
           "g-1" "5d1" "{}" "merge" (errors_New "bad gateway")).
  vm_compute. tauto.
Defined.

(** ** C4: the strategy flag *)

Section C4.

Context {C : Collab}.

Lemma setFlag_keeps_strategy c name v :
  name <> importFlagStrategy ->
  flagStrategy (setFlag c (name, v)) = flagStrategy c.
Proof.
  intros Hname. unfold setFlag. destruct v as [v|b].
  - repeat match goal with
           | |- context [String.eqb ?a ?b] => destruct (String.eqb_spec a b)
           end; try reflexivity.
    contradiction.
  - repeat match goal with
           | |- context [String.eqb ?a ?b] => destruct (String.eqb_spec a b)
           end; reflexivity.
Qed.

Lemma fold_setFlag_keeps_strategy assigned c :
  (forall v, ~ In (importFlagStrategy, v) assigned) ->
  flagStrategy (fold_left setFlag assigned c) = flagStrategy c.
Proof.
  revert c. induction assigned as [|[name v] l IH]; intros c Hno; simpl.
  - reflexivity.
  - rewrite IH.
    + apply setFlag_keeps_strategy. intros ->. apply (Hno v). left. reflexivity.
    + intros v' Hin. apply (Hno v'). right. exact Hin.
Qed.

Lemma importApp_starts fuel s :
  exists rest,
    log (importApp C fuel s) = EvUser (errOf (fst (c_User C (world s)))) :: rest.
Proof.
  unfold importApp, loadDeclaration.
  match goal with
  | |- context [bind (bind ?m ?k) ?k' s] =>
    pose proof (bind_inv (bind m k) k' s) as Hb;
    pose proof (bind_inv m k s) as Hb'
  end.
  cbn [call out st log] in Hb'. rewrite Hb' in Hb.
  cbn [prepend out st log app] in Hb.
  match type of Hb with
  | match ?o with _ => _ end => destruct o
  end; rewrite Hb; cbn [prepend log app]; rewrite ?Hb'; cbn [prepend log app]; eauto.
Qed.

End C4.

(** C4.  With the strategy the command holds after the flags were parsed:
    when it is neither [merge] nor [replace], the command exits with code 1
    after nothing but the parsing of the flags and the report of an error,
    which, when the parsing itself succeeded, is the unknown-strategy
    message; when it is [merge] or [replace] and the parsing succeeded, the
    command runs [importApp], which starts with the user lookup; and when
    the flag is not on the command line, the strategy is [merge]. *)
Theorem C4_strategy_validated_before_import
    (C : Collab) (fuel : nat) (args : list string) (s : State C) :
  let br := fst (c_baseRun C args (world s)) in
  let strategy := flagStrategy (parsedCommand C args s) in
  (strategy <> importStrategyMerge -> strategy <> importStrategyReplace ->
     out (Run C fuel args s) = Ret 1%Z
     /\ exists msg,
          log (Run C fuel args s) = [EvBaseRun args br; EvUIError msg]
          /\ (br_err br = None -> msg = unknownStrategyMessage C strategy))
  /\ (br_err br = None ->
      strategy = importStrategyMerge \/ strategy = importStrategyReplace ->
      exists user rest tail,
        log (importApp C fuel (parsedState C args s)) = EvUser user :: rest
        /\ log (Run C fuel args s)
           = EvBaseRun args br :: log (importApp C fuel (parsedState C args s)) ++ tail
        /\ Forall isUIError tail)
  /\ ((forall v, ~ In (importFlagStrategy, v) (br_assigned br)) ->
      strategy = importStrategyMerge).
Proof.
  intros br strategy.
  pose proof (Run_cases fuel args s) as H. cbv zeta in H.
  fold br in H. fold strategy in H.
  assert (Hvalid : validStrategy strategy = true
                   <-> strategy = importStrategyMerge \/ strategy = importStrategyReplace).
  { unfold validStrategy.
    destruct (String.eqb_spec strategy importStrategyMerge);
      destruct (String.eqb_spec strategy importStrategyReplace); simpl;
      intuition discriminate. }
  split; [|split].
  - intros Hm Hr.
    destruct (validStrategy strategy) eqn:Hv.
    { exfalso. destruct (proj1 Hvalid eq_refl); contradiction. }
    clear Hvalid.
    destruct (br_err br) as [err|].
    + destruct H as (Hlog & Hout & _). split; [exact Hout|].
      exists (Error err). split; [exact Hlog | intros Hn; discriminate Hn].
    + destruct H as (Hlog & Hout & _). split; [exact Hout|].
      exists (unknownStrategyMessage C strategy).
      split; [exact Hlog | intros _; reflexivity].
  - intros Hparse Hs. rewrite Hparse in H.
    rewrite (proj2 Hvalid Hs) in H. destruct H as (tail & Hlog & Htail & _).
    destruct (importApp_starts fuel (parsedState C args s)) as (rest & Hstart).
    eexists _, rest, tail. split; [exact Hstart | split; assumption].
  - intros Hno. unfold strategy, parsedCommand.
    rewrite fold_setFlag_keeps_strategy; [reflexivity | exact Hno].
Qed.

Lemma C4_witness :
  out (Run (scripted scBadStrategy) 1 ["--strategy=overwrite"] (start scBadStrategy []))
  = Ret 1%Z
  /\ exists msg,
       log (Run (scripted scBadStrategy) 1 ["--strategy=overwrite"]
              (start scBadStrategy []))
       = [EvBaseRun ["--strategy=overwrite"]
            (fst (c_baseRun (scripted scBadStrategy) ["--strategy=overwrite"] []));
          EvUIError msg]
       /\ (br_err (fst (c_baseRun (scripted scBadStrategy) ["--strategy=overwrite"] []))
           = None ->
           msg = unknownStrategyMessage (scripted scBadStrategy) "overwrite").
Proof.
  apply (proj1 (C4_strategy_validated_before_import (scripted scBadStrategy) 1
                  ["--strategy=overwrite"] (start scBadStrategy []))).
  - vm_compute. discriminate.
  - vm_compute. discriminate.
Defined.

(** ** C7: a dirty asset cache *)

Section C7.

Context {C : Collab}.








End C7.



Section C7Parts.

Context {C : Collab}.





End C7Parts.



(** ** Further properties *)

Section FurtherRules.

Context {C : Collab}.

Lemma emits_bind_yields {R A B} Inv K (V : A -> Prop)
    (m : M (State C) R A) (f : A -> M (State C) R B) :
  emits Inv K m -> yields Inv V m -> (forall a, V a -> emits Inv K (f a)) ->
  emits Inv K (bind m f).
Proof.
  intros Hm Hv Hf s Hs. destruct (Hm s Hs) as [H1 H2]. unfold bind.
  destruct (out (m s)) as [a| |] eqn:Ho; simpl; [|split; assumption..].
  destruct (Hf a (Hv s a Hs Ho) (st (m s)) H2) as [H3 H4].
  split; [apply Forall_app; split; assumption | assumption].
Qed.

Lemma outOfFuelAfter_bind {R A B} X (m : M (State C) R A) (f : A -> M (State C) R B) :
  outOfFuelAfter X m -> (forall a, outOfFuelAfter X (f a)) ->
  outOfFuelAfter X (bind m f).
Proof.
  intros Hm Hf s. unfold bind. specialize (Hm s).
  destruct (out (m s)) as [a|r|c]; simpl; [|discriminate|].
  - intros H. apply Exists_app. right. apply Hf, H.
  - intros H. apply Hm. injection H as ->. reflexivity.
Qed.

Lemma outOfFuelAfter_invoke {R R'} X (body : M (State C) R' R') :
  outOfFuelAfter X body -> outOfFuelAfter X (invoke body : M (State C) R R').
Proof.
  intros Hb s. unfold invoke. specialize (Hb s).
  destruct (out (body s)) as [x|x|c]; simpl; [discriminate | discriminate |].
  intros H. apply Hb. injection H as ->. reflexivity.
Qed.

Lemma outOfFuelAfter_forEach {R A} X (l : list A) (body : A -> M (State C) R unit) :
  (forall x, outOfFuelAfter X (body x)) -> outOfFuelAfter X (forEach l body).
Proof.
  intros H. induction l as [|x l IH]; simpl.
  - intros s. discriminate.
  - apply outOfFuelAfter_bind; [apply H | intros _; exact IH].
Qed.

(** Past a call whose event is in [X], nothing is left to show. *)
Lemma outOfFuelAfter_call {R A B} (X : Event -> Prop)
    (f : W C -> A * W C) ev (k : A -> M (State C) R B) :
  (forall a, X (ev a)) -> outOfFuelAfter X (bind (call f ev) k).
Proof.
  intros HX s _. unfold bind, call. simpl. apply Exists_cons. left. apply HX.
Qed.

End FurtherRules.

Ltac outOfFuel_step :=
  lazymatch goal with
  | |- outOfFuelAfter _ (ret _) => intros ?; discriminate
  | |- outOfFuelAfter _ (return_ _) => intros ?; discriminate
  | |- outOfFuelAfter _ (crash Panic) => intros ?; discriminate
  | |- outOfFuelAfter _ getIC => intros ?; discriminate
  | |- outOfFuelAfter _ (observe _) => intros ?; discriminate
  | |- outOfFuelAfter _ (call _ _) => intros ?; discriminate
  | |- outOfFuelAfter _ (modifyIC _) => intros ?; discriminate
  | |- outOfFuelAfter _ (forEach _ _) => apply outOfFuelAfter_forEach; intros
  | |- outOfFuelAfter _ (invoke _) => apply outOfFuelAfter_invoke
  | |- outOfFuelAfter _ (bind (call _ _) _) =>
    first [ apply outOfFuelAfter_call; solve [intros; simpl; exact I]
          | apply outOfFuelAfter_bind; [ | intros ] ]
  | |- outOfFuelAfter _ (bind _ _) => apply outOfFuelAfter_bind; [ | intros ]
  | |- outOfFuelAfter _ (match ?x with _ => _ end) => destruct x
  | |- outOfFuelAfter _ (let _ := _ in _) => cbv zeta
  end.

Ltac outOfFuel_go := unfold UIInfo, UIError, AskYesNo; repeat outOfFuel_step.

(** *** The unconditional-yes override *)

Section Yes.

Context {C : Collab}.

Lemma confirmDiff_yes app data diffs skip cl :
  emits yesGiven notDiffOrConfirm (confirmDiff C app data diffs skip cl).
Proof.
  unfold confirmDiff. apply emits_getIC_bind. intros c Hc.
  unfold yesGiven in Hc. rewrite Hc. simpl. emits_go.
Qed.

Lemma importApp_yes fuel : emits yesGiven notDiffOrConfirm (importApp C fuel).
Proof.
  unfold importApp. emits_go.
  - eapply emits_weaken; [apply emits_loadDeclaration | apply K_load_skipped].
  - eapply emits_weaken; [apply emits_resolveTarget | apply K_target_skipped].
    intros c Hc. exact Hc.
  - eapply emits_weaken; [apply emits_prepareAssets | unfold notDiffOrConfirm; event_cases].
  - apply confirmDiff_yes.
  - eapply emits_weaken; [apply emits_applyAndSync | unfold notDiffOrConfirm; event_cases].
Qed.

End Yes.

(** X1.  With the unconditional-yes override set in the command,
    [importApp] computes no remote configuration diff and shows no
    confirmation prompt, whatever else happens. *)
Theorem yes_skips_diff_and_confirmation
    (C : Collab) (fuel : nat) (s : State C) :
  flagYes (ic s) = true -> Forall notDiffOrConfirm (log (importApp C fuel s)).
Proof. intros Hyes. exact (proj1 (importApp_yes fuel s Hyes)). Qed.

Lemma yes_skips_diff_and_confirmation_witness :
  Forall notDiffOrConfirm
    (log (importApp (scripted scPlain) 1
            (parsedState (scripted scPlain) [] (start scPlain [])))).
Proof.
  apply (yes_skips_diff_and_confirmation (scripted scPlain) 1
           (parsedState (scripted scPlain) [] (start scPlain []))).
  vm_compute. reflexivity.
Defined.

(** *** The strategy sent to the service *)

Section Strategy.

Context {C : Collab}.
Variable given : string.

Lemma strategyFrom_uses c :
  strategyFrom given c ->
  (flagStrategy c = given \/ flagStrategy c = importStrategyReplace)
  /\ (flagStrategy c = importStrategyMerge \/ flagStrategy c = importStrategyReplace).
Proof.
  intros [H1 H2]. split; [exact H1|]. unfold validStrategy in H2.
  destruct (String.eqb_spec (flagStrategy c) importStrategyMerge) as [->|_]; [auto|].
  destruct (String.eqb_spec (flagStrategy c) importStrategyReplace) as [->|_]; [auto|].
  discriminate H2.
Qed.

Lemma strategyFrom_merge c :
  strategyFrom given c ->
  String.eqb (flagStrategy c) importStrategyMerge = true -> given = importStrategyMerge.
Proof.
  intros [[H|H] _] Heq; apply String.eqb_eq in Heq.
  - congruence.
  - rewrite H in Heq. discriminate Heq.
Qed.

Lemma strategyFrom_replace c :
  strategyFrom given c -> strategyFrom given (set_flagStrategy importStrategyReplace c).
Proof. intros _. split; [right; reflexivity | reflexivity]. Qed.

Lemma prepareAssets_strategy p d app cl :
  emits (strategyFrom given) (usesStrategy given) (prepareAssets C p d app cl).
Proof.
  unfold prepareAssets. emits_go. apply strategyFrom_merge. assumption.
Qed.

Lemma confirmDiff_strategy app data diffs skip cl :
  emits (strategyFrom given) (usesStrategy given) (confirmDiff C app data diffs skip cl).
Proof.
  unfold confirmDiff. emits_go. apply strategyFrom_uses. assumption.
Qed.

Lemma applyAndSync_strategy p app data root diffs cl :
  emits (strategyFrom given) (usesStrategy given) (applyAndSync C p app data root diffs cl).
Proof.
  unfold applyAndSync. emits_go. apply strategyFrom_uses. assumption.
Qed.

Lemma importApp_strategy fuel :
  emits (strategyFrom given) (usesStrategy given) (importApp C fuel).
Proof.
  unfold importApp. emits_go.
  - eapply emits_weaken; [apply emits_loadDeclaration | event_cases].
  - eapply emits_weaken;
      [apply emits_resolveTarget, strategyFrom_replace | event_cases].
  - apply prepareAssets_strategy.
  - apply confirmDiff_strategy.
  - apply applyAndSync_strategy.
Qed.

End Strategy.

(** X2.  Every remote diff and every push of a run is made with the
    strategy given on the command line or with [replace], and with one of
    the two strategies the service knows; the asset diff merges only when
    the strategy given is [merge]. *)
Theorem run_sends_only_known_strategy
    (C : Collab) (fuel : nat) (args : list string) (s : State C) :
  Forall (usesStrategy (flagStrategy (parsedCommand C args s)))
         (log (Run C fuel args s)).
Proof.
  pose proof (Run_cases fuel args s) as H. cbv zeta in H.
  destruct (br_err (fst (c_baseRun C args (world s)))) as [err|].
  { destruct H as (-> & _). repeat constructor. }
  destruct (validStrategy (flagStrategy (parsedCommand C args s))) eqn:Hvalid.
  2: { destruct H as (-> & _). repeat constructor. }
  destruct H as (tail & -> & Htail & _).
  constructor; [exact I|]. apply Forall_app. split.
  - apply (importApp_strategy _ fuel (parsedState C args s)).
    split; [left; reflexivity | exact Hvalid].
  - eapply Forall_impl; [exact Htail|]. intros e; destruct e; simpl; tauto.
Qed.

(** *** The project id of the command line *)

Section Route.

Context {C : Collab}.
Variable project : string.

Lemma fetchAppByClientAppID_routed id :
  emits (projectIs project) (routed project) (fetchAppByClientAppID C id).
Proof.
  unfold fetchAppByClientAppID.
  apply emits_bind; [emits_go | intros [cl|err]]; [|emits_go].
  apply emits_getIC_bind. intros c Hc. unfold projectIs in Hc. subst project.
  destruct (String.eqb_spec (flagGroupID c) "") as [Heq|Hne].
  - emits_go. exact Heq.
  - emits_go. split; [reflexivity | exact Hne].
Qed.

Lemma resolveGroupID_loop_routed Inv fuel a g m :
  emits Inv (routed "") (resolveGroupID_loop C fuel a g m).
Proof.
  revert a g m. induction fuel as [|fuel IH]; intros; simpl; emits_go;
    try reflexivity; try (intros; reflexivity).
  apply IH.
Qed.

Lemma resolveGroupID_routed fuel :
  emits (projectIs project) (routed project) (resolveGroupID C fuel).
Proof.
  unfold resolveGroupID. apply emits_getIC_bind. intros c Hc.
  unfold projectIs in Hc. subst project.
  destruct (String.eqb_spec (flagGroupID c) "") as [Heq|Hne]; simpl; [|emits_go].
  rewrite Heq. emits_go; try reflexivity. apply resolveGroupID_loop_routed.
Qed.

(** With a project id on the command line, [resolveGroupID] returns it. *)
Lemma resolveGroupID_given {R} fuel :
  yields (R := R) (projectIs project) (fun r => project <> "" -> r = Ok project)
         (invoke (resolveGroupID C fuel)).
Proof.
  intros s r Hs Hout Hne. unfold projectIs in Hs.
  unfold invoke, resolveGroupID, bind, getIC in Hout. simpl in Hout.
  rewrite Hs in Hout.
  destruct (String.eqb_spec project "") as [Heq|_]; [contradiction|].
  simpl in Hout. congruence.
Qed.

Lemma askCreateEmptyApp_routed fuel q n l d cl :
  emits (projectIs project) (routed project) (askCreateEmptyApp C fuel q n l d cl).
Proof.
  unfold askCreateEmptyApp. apply emits_getIC_bind. intros c Hc. cbv zeta.
  apply emits_bind; [emits_go | intros [confirm|err]]; [|emits_go].
  destruct (negb confirm); [emits_go|].
  apply emits_bind; [emits_go; discriminate | intros [appName|err]]; [|emits_go].
  eapply emits_bind_yields;
    [apply emits_invoke, resolveGroupID_routed | apply resolveGroupID_given |].
  intros [groupID|err] Hgiven; [|emits_go].
  assert (Hg : project <> "" -> groupID = project).
  { intros Hne. specialize (Hgiven Hne). congruence. }
  emits_go; exact Hg.
Qed.

Lemma resolveTarget_routed fuel p d cl :
  emits (projectIs project) (routed project) (resolveTarget C fuel p d cl).
Proof.
  unfold resolveTarget. emits_go.
  - apply fetchAppByClientAppID_routed.
  - apply askCreateEmptyApp_routed.
Qed.

Lemma importApp_routed fuel :
  emits (projectIs project) (routed project) (importApp C fuel).
Proof.
  unfold importApp. emits_go.
  - eapply emits_weaken; [apply emits_loadDeclaration | event_cases].
  - apply resolveTarget_routed.
  - eapply emits_weaken; [apply emits_prepareAssets | event_cases].
  - eapply emits_weaken; [apply emits_confirmDiff | event_cases].
  - eapply emits_weaken; [apply emits_applyAndSync | event_cases].
Qed.

End Route.

Section Bound.

Context {C : Collab}.

Lemma resolveGroupID_outOfFuel fuel : outOfFuelAfter isGroups (resolveGroupID C fuel).
Proof. unfold resolveGroupID. outOfFuel_go. Qed.

Lemma importApp_outOfFuel fuel : outOfFuelAfter isGroups (importApp C fuel).
Proof.
  unfold importApp, loadDeclaration, resolveTarget, prepareAssets, confirmDiff,
    applyAndSync, resolveAppDirectory, resolveAppInstanceData, fetchAppByClientAppID,
    askCreateEmptyApp.
  outOfFuel_go. apply resolveGroupID_outOfFuel.
Qed.

End Bound.

(** X3.  The project id of the command routes the calls of [importApp]:
    without one, the application is looked up by its client app id alone;
    with one, the application is looked up in that project, the apps of
    that project are listed and the new app is created in it, and neither
    Atlas nor the user is asked for a project. *)
Theorem project_id_routes_the_calls (C : Collab) (fuel : nat) (s : State C) :
  Forall (routed (flagGroupID (ic s))) (log (importApp C fuel s)).
Proof. exact (proj1 (importApp_routed (flagGroupID (ic s)) fuel s eq_refl)). Qed.


(** *** Failures are not passed over *)

Section UponMore.

Context {C : Collab}.

Lemma emits_anyEvent {R A} (m : M (State C) R A) : emits anyIC anyEvent m.
Proof.
  intros s _. split; [|exact I]. apply List.Forall_forall. intros; exact I.
Qed.

(** At a call of a function of the command: the event may occur in the
    callee or after the call. *)
Lemma upon_invoke {R R' B} (P E : Event -> Prop) (Q : _ -> _ -> Fate R -> Prop)
    (Q' : _ -> _ -> Fate R' -> Prop) (body : M (State C) R' R')
    (k : R' -> M (State C) R B) :
  upon P E Q' body ->
  (forall e post l o, E e -> Q' e post Falls -> Q e (post ++ l) o) ->
  (forall e post c, E e -> Q' e post (Cut c) -> Q e post (Cut c)) ->
  (forall e post r' s, E e -> Q' e post (Returns r') ->
     Q e (post ++ log (k r' s)) (fate (out (k r' s)))) ->
  emits anyIC P body -> (forall a, upon P E Q (k a)) ->
  upon P E Q (bind (invoke body) k).
Proof.
  intros Hb Hfall Hcut Hret Hem Hk s pre e post Hlog He.
  unfold bind, invoke in Hlog |- *.
  destruct (out (body s)) as [a|r'|c] eqn:Ho; simpl in *.
  - apply app_eq_mid in Hlog as [(post1 & H1 & ->) | (pre2 & H2 & ->)].
    + destruct (Hb s _ _ _ H1 He) as [Hp Hq]. rewrite Ho in Hq.
      split; [exact Hp | apply Hfall; assumption].
    + destruct (Hk a _ _ _ _ H2 He) as [Hp Hq]. split; [|exact Hq].
      apply Forall_app. split; [apply (Hem s I) | exact Hp].
  - apply app_eq_mid in Hlog as [(post1 & H1 & ->) | (pre2 & H2 & ->)].
    + destruct (Hb s _ _ _ H1 He) as [Hp Hq]. rewrite Ho in Hq.
      split; [exact Hp | apply Hret; assumption].
    + destruct (Hk r' _ _ _ _ H2 He) as [Hp Hq]. split; [|exact Hq].
      apply Forall_app. split; [apply (Hem s I) | exact Hp].
  - destruct (Hb s _ _ _ Hlog He) as [Hp Hq]. rewrite Ho in Hq.
    split; [exact Hp | apply Hcut; assumption].
Qed.

(** A last call, whose event is not in [E]. *)
Lemma upon_call_last {R A} (P E : Event -> Prop) (Q : _ -> _ -> Fate R -> Prop)
    (f : W C -> A * W C) ev :
  (forall a, ~ E (ev a)) -> upon P E Q (call f ev).
Proof.
  intros HE s pre e post Hlog He. exfalso. unfold call in Hlog. simpl in Hlog.
  destruct pre as [|x [|y pre]]; simpl in Hlog; try discriminate Hlog.
  injection Hlog as <- _. exact (HE _ He).
Qed.

Lemma failsWith_lasting {R} (wrap : error -> R -> Prop) tail :
  lasting (failsWith C wrap tail).
Proof. intros e post l o (_ & err & r & H & _). discriminate H. Qed.

End UponMore.

(** Upon a failure the function returns at once. *)
Ltac fails_unfold :=
  unfold failsWith, nothingAfter, onlyClose, asErr, asOtherErr, asSomeErr.

Ltac fails_now :=
  fails_unfold; simpl;
  split;
  [ auto
  | do 2 eexists;
    split;
    [ reflexivity
    | split;
      [ first [reflexivity | split; [reflexivity | congruence]]
      | first [eassumption | reflexivity] ] ] ].

Ltac fatal_split :=
  repeat match goal with
         | x : result _ |- _ => destruct x
         | x : option _ |- _ => destruct x
         | x : bool |- _ => destruct x
         | x : _ * _ |- _ => destruct x
         end.

(** The tests the command makes on an error. *)
Ltac fatal_tests He :=
  repeat first
    [ match goal with
      | |- context [os_IsNotExist ?x] => destruct (os_IsNotExist x)
      | |- context [errKind ?x] => destruct (errKind x) eqn:?
      end
    | match type of He with
      | context [os_IsNotExist ?x] => destruct (os_IsNotExist x)
      | context [errKind ?x] => destruct (errKind x) eqn:?
      end ];
  simpl in He |- *.

Ltac not_fatal He := exfalso; unfold isFatal in He; apply He; reflexivity.

Ltac fatal_step :=
  lazymatch goal with
  | |- upon _ _ _ (ret _) => apply upon_silent; upon_silent_tac
  | |- upon _ _ _ (return_ _) => apply upon_silent; upon_silent_tac
  | |- upon _ _ _ (crash _) => apply upon_silent; upon_silent_tac
  | |- upon _ _ _ (call _ _) =>
    apply upon_call_last;
    solve [let He := fresh "He" in intros ? He; not_fatal He]
  | |- upon _ _ _ (bind getIC _) => apply upon_silent_bind; [upon_silent_tac | intros]
  | |- upon _ _ _ (bind (modifyIC _) _) =>
    apply upon_silent_bind; [upon_silent_tac | intros]
  | |- upon _ _ _ (bind (call _ _) _) =>
    apply upon_call;
    [ intros; exact I
    | let He := fresh "He" in
      intros ? ? He; unfold isFatal in He; fails_unfold; simpl in He |- *;
      fatal_split; simpl in He |- *; fatal_tests He;
      first [not_fatal He | solve [fails_now]]
    | intros ]
  | |- upon _ _ _ (bind (forEach _ _) _) =>
    eapply upon_skip with (K := isUIInfo);
    [ emits_go
    | let Hk := fresh "Hk" in
      let He := fresh "He" in
      intros [] Hk; try contradiction Hk; split; [exact I | intros He; not_fatal He]
    | intros ]
  | |- upon _ _ _ (bind (invoke _) _) => fail
  | |- upon _ _ _ (bind (observe _) _) =>
    apply upon_observe;
    [ exact I
    | solve [let He := fresh "He" in intros ? He; not_fatal He]
    | ]
  | |- upon _ _ _ (bind _ _) =>
    apply upon_bind; [apply failsWith_lasting | apply emits_anyEvent | | intros]
  | |- upon _ _ _ (match ?x with _ => _ end) => destruct x
  | |- upon _ _ _ (let _ := _ in _) => cbv zeta
  end.

Ltac fatal_go := unfold UIInfo, UIError, AskYesNo; repeat fatal_step.

(** A callee that fails makes its caller return. *)
Tactic Notation "fatal_invoke" uconstr(lemma) :=
  eapply upon_invoke;
  [ apply lemma
  | intros ? ? ? ? _ (_ & ? & ? & H & _); discriminate H
  | intros ? ? ? _ (_ & ? & ? & H & _); discriminate H
  | let H := fresh "H" in
    let Hr := fresh "Hr" in
    let Hw := fresh "Hw" in
    let Hm := fresh "Hm" in
    intros ? ? ? ? _ (H & ? & ? & Hr & Hw & Hm); injection Hr as <-;
    unfold nothingAfter in H; subst
  | apply emits_anyEvent
  | intros ].

Section Fatal.

Context {C : Collab}.

Lemma resolveAppDirectory_fatal :
  upon anyEvent (isFatal C) (failsWith C asErr nothingAfter) (resolveAppDirectory C).
Proof. unfold resolveAppDirectory. fatal_go. Qed.

Lemma resolveAppInstanceData_fatal p :
  upon anyEvent (isFatal C) (failsWith C asErr nothingAfter) (resolveAppInstanceData C p).
Proof. unfold resolveAppInstanceData. fatal_go. Qed.

Lemma fetchAppByClientAppID_fatal id :
  upon anyEvent (isFatal C) (failsWith C asOtherErr nothingAfter) (fetchAppByClientAppID C id).
Proof. unfold fetchAppByClientAppID. fatal_go. Qed.

Lemma resolveGroupID_loop_fatal fuel a g m :
  upon anyEvent (isFatal C) (failsWith C asErr nothingAfter) (resolveGroupID_loop C fuel a g m).
Proof.
  revert a g m. induction fuel as [|fuel IH]; intros; simpl; fatal_go. apply IH.
Qed.

End Fatal.

Section FatalParts.

Context {C : Collab}.

Lemma resolveGroupID_fatal fuel :
  upon anyEvent (isFatal C) (failsWith C asErr nothingAfter) (resolveGroupID C fuel).
Proof.
  unfold resolveGroupID.
  apply upon_silent_bind; [reflexivity | intros c].
  destruct (negb _); [fatal_go|].
  fatal_step. destruct a as [atlasClient|err]; [|fatal_go].
  apply upon_call.
  - intros; exact I.
  - intros [[|g groups]|err] s He; unfold isFatal in He; simpl in He.
    + cbv zeta. cbn [foldl]. rewrite map_size_empty. fails_now.
    + not_fatal He.
    + fails_now.
  - intros [groups|err]; [|fatal_go]. cbv zeta.
    destruct (Nat.eqb _ 0); fatal_go. apply resolveGroupID_loop_fatal.
Qed.

Lemma askCreateEmptyApp_fatal fuel q n l d cl :
  upon anyEvent (isFatal C) (failsWith C asErr nothingAfter)
       (askCreateEmptyApp C fuel q n l d cl).
Proof.
  unfold askCreateEmptyApp. fatal_go.
  fatal_invoke (resolveGroupID_fatal fuel).
  - unfold asErr in Hw. subst. fails_now.
  - fatal_go.
Qed.

Lemma loadDeclaration_fatal :
  upon anyEvent (isFatal C) (failsWith C asSomeErr nothingAfter) (loadDeclaration C).
Proof.
  unfold loadDeclaration. fatal_go.
  destruct (LoggedIn C a) eqn:Hin.
  2: { apply upon_observe; [exact I | intros; fails_now | simpl negb; cbv iota; fatal_go]. }
  apply upon_observe; [exact I | intros s He; not_fatal He |].
  simpl negb. cbv iota.
  fatal_invoke resolveAppDirectory_fatal.
  { unfold asErr in Hw. subst. fails_now. }
  destruct a0 as [appPath|err]; [|fatal_go].
  fatal_invoke (resolveAppInstanceData_fatal appPath).
  { unfold asErr in Hw. subst. fails_now. }
  fatal_go.
  destruct (json_Marshal C a1) as [appData|err].
  - apply upon_observe; [exact I | intros s He; not_fatal He | fatal_go].
  - apply upon_observe; [exact I | intros; fails_now | fatal_go].
Qed.

Lemma resolveTarget_fatal fuel p d cl :
  upon anyEvent (isFatal C) (failsWith C asSomeErr nothingAfter)
       (resolveTarget C fuel p d cl).
Proof.
  unfold resolveTarget.
  fatal_invoke (fetchAppByClientAppID_fatal (AppID C d)).
  { destruct Hw as [-> Hkind]. simpl. destruct (errKind x); [contradiction|..];
      fails_now. }
  destruct a as [app|err]; [fatal_go|].
  destruct (errKind err); [|fatal_go..]. cbv zeta.
  apply upon_silent_bind; [reflexivity | intros _].
  match goal with
  | |- upon _ _ _ (bind (invoke (askCreateEmptyApp C ?f ?q ?n ?l ?dm ?c)) _) =>
    fatal_invoke (askCreateEmptyApp_fatal f q n l dm c)
  end.
  { unfold asErr in Hw. subst. fails_now. }
  fatal_go.
Qed.

Lemma prepareAssets_fatal p d app cl :
  upon anyEvent (isFatal C) (failsWith C asSomeErr nothingAfter)
       (prepareAssets C p d app cl).
Proof. unfold prepareAssets. fatal_go. Qed.

Lemma confirmDiff_fatal app data diffs skip cl :
  upon anyEvent (isFatal C) (failsWith C asSomeErr nothingAfter)
       (confirmDiff C app data diffs skip cl).
Proof. unfold confirmDiff. fatal_go. Qed.

Lemma applyAndSync_fatal p app data root diffs cl :
  upon anyEvent (isFatal C) (failsWith C asSomeErr onlyClose)
       (applyAndSync C p app data root diffs cl).
Proof. unfold applyAndSync. fatal_go. Qed.

Lemma failsWith_tail {R A} (wrap : error -> R -> Prop) (tail tail' : list Event -> Prop)
    P E (m : M (State C) R A) :
  (forall post, tail post -> tail' post) ->
  upon P E (failsWith C wrap tail) m -> upon P E (failsWith C wrap tail') m.
Proof.
  intros Ht H s pre e post Hlog He. destruct (H s pre e post Hlog He) as [Hp [Hq Hr]].
  split; [exact Hp | split; [apply Ht, Hq | exact Hr]].
Qed.

Lemma importApp_fatal fuel :
  upon anyEvent (isFatal C) (failsWith C asSomeErr onlyClose) (importApp C fuel).
Proof.
  assert (Hnil : forall post, nothingAfter post -> onlyClose post)
    by (intros post H; left; exact H).
  unfold importApp.
  apply upon_bind; [apply failsWith_lasting | apply emits_anyEvent | |].
  { eapply failsWith_tail; [exact Hnil | apply loadDeclaration_fatal]. }
  intros [[[p d] data] cl].
  apply upon_bind; [apply failsWith_lasting | apply emits_anyEvent | |].
  { eapply failsWith_tail; [exact Hnil | apply resolveTarget_fatal]. }
  intros [[app skip] d'].
  apply upon_bind; [apply failsWith_lasting | apply emits_anyEvent | |].
  { eapply failsWith_tail; [exact Hnil | apply prepareAssets_fatal]. }
  intros [root diffs].
  apply upon_bind; [apply failsWith_lasting | apply emits_anyEvent | |].
  { eapply failsWith_tail; [exact Hnil | apply confirmDiff_fatal]. }
  intros _. apply applyAndSync_fatal.
Qed.

Lemma Run_fatal fuel args :
  upon anyEvent (isFatal C) (failureReported C) (Run C fuel args).
Proof.
  eapply Run_upon; [apply importApp_fatal | ..].
  - intros; exact I.
  - intros [] [H|H] He; simpl in H; try contradiction H; apply He; reflexivity.
  - intros e post l o _ (_ & err & r & H & _). discriminate H.
  - intros e post c _ (_ & err & r & H & _). discriminate H.
  - intros e post err _ (Hpost & err' & r & Hr & Hw & Hm).
    injection Hr as <-. unfold asSomeErr in Hw. injection Hw as <-.
    split; [reflexivity|]. exists (Error err). split; [exact Hm|].
    destruct Hpost as [-> | ->]; simpl; auto.
  - intros e post _ (_ & err & r & Hr & Hw & _). injection Hr as <-. discriminate Hw.
Qed.

End FatalParts.

(** *** The exit code *)

Section Exit.

Context {C : Collab}.

Lemma bind_neverFalls {R A B} (m : M (State C) R A) (f : A -> M (State C) R B) :
  (forall a s b, out (f a s) <> Val b) -> forall s b, out (bind m f s) <> Val b.
Proof.
  intros Hf s b. unfold bind. destruct (out (m s)) as [a|r|c]; simpl;
    [apply Hf | discriminate..].
Qed.

(** The last part of [importApp] ends in a [return] on every path. *)
Lemma applyAndSync_returns p app data root diffs cl s b :
  out (applyAndSync C p app data root diffs cl s) <> Val b.
Proof.
  unfold applyAndSync, UIInfo, UIError, bind, call, getIC, return_, ret. simpl.
  repeat match goal with
         | |- context [match ?x with _ => _ end] => destruct x; simpl
         end; discriminate.
Qed.

Lemma importApp_returns fuel s b : out (importApp C fuel s) <> Val b.
Proof.
  unfold importApp. revert s b.
  apply bind_neverFalls. intros [[[p d] data] cl].
  apply bind_neverFalls. intros [[app skip] d'].
  apply bind_neverFalls. intros [root diffs].
  apply bind_neverFalls. intros _. apply applyAndSync_returns.
Qed.

Lemma Run_ends fuel args s :
  let br := fst (c_baseRun C args (world s)) in
  (out (Run C fuel args s) = Ret 1%Z
   /\ exists pre msg, log (Run C fuel args s) = pre ++ [EvUIError msg])
  \/ (out (Run C fuel args s) = Ret 0%Z
      /\ out (importApp C fuel (parsedState C args s)) = Ret None
      /\ log (Run C fuel args s)
         = EvBaseRun args br :: log (importApp C fuel (parsedState C args s)))
  \/ (out (Run C fuel args s) = Crash OutOfFuel
      /\ out (importApp C fuel (parsedState C args s)) = Crash OutOfFuel).
Proof.
  intros br. subst br. pose proof (importApp_noPanic (C := C) fuel) as Hnp.
  pose proof (importApp_returns fuel) as Hret.
  unfold parsedState, parsedCommand.
  unfold Run. remember (importApp C fuel) as imp eqn:Himp.
  unfold BaseCommand_run, bind, invoke, call, modifyIC, getIC, UIError, call,
    return_. simpl.
  destruct (br_err (fst (c_baseRun C args (world s)))) as [err|]; simpl.
  { left. split; [reflexivity|]. exists [EvBaseRun args (fst (c_baseRun C args (world s)))].
    eexists. reflexivity. }
  destruct (negb _ && negb _); simpl.
  { left. split; [reflexivity|]. exists [EvBaseRun args (fst (c_baseRun C args (world s)))].
    eexists. reflexivity. }
  match goal with
  | |- context [out (imp ?s1)] =>
    specialize (Hnp s1); specialize (Hret s1);
    destruct (out (imp s1)) as [b|[err|]|[|]]
  end; simpl.
  { exfalso. exact (Hret b eq_refl). }
  all: try (left; split; [reflexivity|];
            eexists (EvBaseRun _ _ :: _), _; simpl; reflexivity).
  all: try (right; left; rewrite app_nil_r; split; [reflexivity|]; split; reflexivity).
  all: try (contradiction Hnp; reflexivity).
  all: right; right; split; reflexivity.
Qed.

End Exit.

(** X5.  With a project id in the command, [importApp] never enters the
    prompt loop of [resolveGroupID]: it ends with a [return], whatever the
    bound on the iterations of the loop, even none. *)
Theorem project_id_given_no_prompt_loop (C : Collab) (fuel : nat) (s : State C) :
  flagGroupID (ic s) <> "" ->
  exists r, out (importApp C fuel s) = Ret r.
Proof.
  intros Hne. destruct (out (importApp C fuel s)) as [b|r|[|]] eqn:Hout.
  - exfalso. exact (importApp_returns fuel s b Hout).
  - exists r. reflexivity.
  - exfalso. exact (importApp_noPanic fuel s Hout).
  - exfalso. apply importApp_outOfFuel in Hout. apply List.Exists_exists in Hout.
    destruct Hout as (e & Hin & He).
    pose proof (proj1 (importApp_routed (flagGroupID (ic s)) fuel s eq_refl)) as Hall.
    rewrite List.Forall_forall in Hall. specialize (Hall e Hin).
    destruct e; simpl in He, Hall; contradiction.
Qed.

Lemma project_id_given_no_prompt_loop_witness :
  exists r,
    out (importApp (played xsProject) 0
           (parsedState (played xsProject) [] (onStage xsProject [] [])))
    = Ret r.
Proof.
  apply (project_id_given_no_prompt_loop (played xsProject) 0
           (parsedState (played xsProject) [] (onStage xsProject [] []))).
  vm_compute. discriminate.
Defined.


(** X6.  A run ends with the exit code 0 or 1, never with a run-time
    panic; it can fail to end only in the prompt loop that asks for a
    project.  The exit code 1 always comes with an error report as the last
    thing the command does, and the exit code 0 only when [importApp]
    returned no error. *)
Theorem run_exits_with_0_or_1
    (C : Collab) (fuel : nat) (args : list string) (s : State C) :
  (out (Run C fuel args s) = Ret 0%Z \/ out (Run C fuel args s) = Ret 1%Z
   \/ out (Run C fuel args s) = Crash OutOfFuel)
  /\ (out (Run C fuel args s) = Ret 1%Z ->
      exists pre msg, log (Run C fuel args s) = pre ++ [EvUIError msg])
  /\ (out (Run C fuel args s) = Ret 0%Z ->
      out (importApp C fuel (parsedState C args s)) = Ret None)
  /\ (out (Run C fuel args s) = Crash OutOfFuel ->
      Exists isGroups (log (importApp C fuel (parsedState C args s)))).
Proof.
  destruct (Run_ends fuel args s) as [[Ho Hlog] | [[Ho [Himp Hlog]] | [Ho Himp]]];
    rewrite Ho.
  - split; [auto|]. split; [auto|]. split; discriminate.
  - split; [auto|]. split; [discriminate|]. split; [auto | discriminate].
  - split; [auto|]. split; [discriminate|]. split; [discriminate|].
    intros _. apply importApp_outOfFuel, Himp.
Qed.

(** *** A missing asset cache file *)

Section MissingCache.

Context {C : Collab}.

Lemma freshCacheNext_ext {R R'} e post l (o : Fate R) (o' : Fate R') :
  freshCacheNext e post o -> freshCacheNext e (post ++ l) o'.
Proof.
  intros (appID & rootDir & cache & r & rest & ->).
  exists appID, rootDir, cache, r, (rest ++ l).
  reflexivity.
Qed.

Lemma prepareAssets_missingCache p d app cl :
  upon notNewAssetCache isMissingCache freshCacheNext (prepareAssets C p d app cl).
Proof.
  unfold prepareAssets, notNewAssetCache. upon_go.
  apply upon_call.
  - intros; simpl; tauto.
  - intros [cache|cErr] s He; simpl in He; [contradiction|].
    unfold bind, call, observe, ret. simpl. rewrite He. simpl.
    eexists _, _, _, _, _. reflexivity.
  - intros r. eapply upon_never with (K := fun e => ~ isMissingCache e); [|tauto].
    destruct r; emits_go; simpl; tauto.
Qed.

Lemma importApp_missingCache fuel :
  upon notNewAssetCache isMissingCache freshCacheNext (importApp C fuel).
Proof.
  unfold importApp, notNewAssetCache.
  eapply upon_skip;
    [apply emits_loadDeclaration | event_cases | intros [[[p d] data] cl]].
  eapply upon_skip;
    [apply emits_resolveTarget; intros; exact I | event_cases | intros [[app skip] d']].
  eapply upon_then_never with (K := K_afterAssets).
  - intros e post l o. apply freshCacheNext_ext.
  - apply prepareAssets_missingCache.
  - intros [root diffs]. unfold K_afterAssets.
    emits_go; (eapply emits_weaken;
                 [first [apply emits_confirmDiff | apply emits_applyAndSync]|tauto]).
  - unfold K_afterAssets. event_cases.
Qed.

Lemma Run_missingCache fuel args :
  upon notNewAssetCache isMissingCache freshCacheNext (Run C fuel args).
Proof.
  eapply Run_upon; [apply importApp_missingCache | unfold notNewAssetCache..].
  1-2: event_cases.
  - intros e post l o _. apply freshCacheNext_ext.
  - intros e post c _ H. rewrite <- (app_nil_r post).
    exact (freshCacheNext_ext e post [] _ _ H).
  - intros e post err _ H. exact (freshCacheNext_ext e post _ _ _ H).
  - intros e post _ H. rewrite <- (app_nil_r post).
    exact (freshCacheNext_ext e post [] _ _ H).
Qed.

End MissingCache.

(** X7.  An asset cache file that does not exist is no error: the command
    makes a fresh cache, which it had not done before in the run, and goes
    on to hash the local assets with it. *)
Theorem missing_cache_file_gives_fresh_cache
    (C : Collab) (fuel : nat) (args : list string) (s : State C)
    (cachePath : string) (cErr : error) :
  os_IsNotExist cErr = true ->
  In (EvCacheFileToAssetCache cachePath (Some cErr)) (log (Run C fuel args s)) ->
  exists pre appID rootDir cache r rest,
    log (Run C fuel args s)
    = pre ++ EvCacheFileToAssetCache cachePath (Some cErr)
          :: EvNewAssetCache :: EvListLocalAssetMetadata appID rootDir cache r :: rest
    /\ Forall notNewAssetCache pre.
Proof.
  intros Hne Hin.
  destruct (upon_In _ _ _ _ s _ (Run_missingCache fuel args) Hin Hne)
    as (pre & post & Hlog & Hpre & (appID & rootDir & cache & r & rest & ->)).
  exists pre, appID, rootDir, cache, r, rest. auto.
Qed.

Lemma missing_cache_file_gives_fresh_cache_witness :
  exists pre appID rootDir cache r rest,
    log (Run (played xsCreate) 3 []
           (onStage xsCreate [true] ["my-app"; "nope"; "Sandbox"]))
    = pre ++ EvCacheFileToAssetCache "/cfg/hosting_cache.json"
               (Some (mkError ErrNotExist "hosting_cache.json: no such file"))
          :: EvNewAssetCache :: EvListLocalAssetMetadata appID rootDir cache r :: rest
    /\ Forall notNewAssetCache pre.
Proof.
  apply (missing_cache_file_gives_fresh_cache (played xsCreate) 3 []
           (onStage xsCreate [true] ["my-app"; "nope"; "Sandbox"])
           "/cfg/hosting_cache.json"
           (mkError ErrNotExist "hosting_cache.json: no such file")).
  - reflexivity.
  - vm_compute. tauto.
Defined.

(** *** The exported body is closed *)

Section Close.

Context {C : Collab}.

Lemma applyAndSync_close p app data root diffs cl :
  upon notClose isExport (bodyClosed closedLast)
       (applyAndSync C p app data root diffs cl).
Proof.
  unfold applyAndSync. upon_go.
  eapply upon_skip with (K := K_hosting); [emits_go | event_cases | intros _].
  apply upon_call.
  - intros; exact I.
  - intros [body|err] s _; unfold bodyClosed; simpl.
    + unfold bind, call, UIInfo, call, return_. simpl.
      destruct (fst (c_writeToDirectory C p body true (world s))) as [err|]; simpl.
      * split; [discriminate|]. eexists _, _, _. split; [reflexivity|].
        exists []. split; [reflexivity | constructor].
      * split; [discriminate|]. eexists _, _, _. split; [reflexivity|].
        exists [EvUIInfo ("Successfully imported '" ++ ClientAppID app ++ "'")].
        split; [reflexivity | repeat constructor].
    + split; [discriminate | constructor].
  - intros r. eapply upon_never with (K := fun e => ~ isExport e); [|tauto].
    destruct r; emits_go; simpl; tauto.
Qed.

Lemma importApp_close fuel :
  upon notClose isExport (bodyClosed closedLast) (importApp C fuel).
Proof.
  unfold importApp.
  eapply upon_skip;
    [apply emits_loadDeclaration | event_cases | intros [[[p d] data] cl]].
  eapply upon_skip;
    [apply emits_resolveTarget; intros; exact I | event_cases | intros [[app skip] d']].
  eapply upon_skip; [apply emits_prepareAssets | event_cases | intros [root diffs]].
  eapply upon_skip; [apply emits_confirmDiff | event_cases | intros _].
  apply applyAndSync_close.
Qed.

Lemma closedLast_once rest tail :
  closedLast rest -> Forall notClose tail -> closedOnce (rest ++ tail).
Proof.
  intros (mid & -> & Hmid) Htail. exists mid, tail. rewrite <- app_assoc. auto.
Qed.

Lemma Run_close fuel args :
  upon notClose isExport (bodyClosed closedOnce) (Run C fuel args).
Proof.
  eapply Run_upon; [apply importApp_close | ..].
  - event_cases.
  - event_cases.
  - intros e post l o _ [H _]. contradiction H. reflexivity.
  - intros [] post c _ [_ H]; try contradiction H.
    split; [discriminate|]. destruct err; [exact H|].
    destruct H as (dest & w & rest & -> & H). exists dest, w, rest.
    split; [reflexivity|]. rewrite <- (app_nil_r rest).
    apply closedLast_once; [exact H | constructor].
  - intros [] post err' _ [_ H]; try contradiction H.
    split; [discriminate|]. destruct err.
    + apply Forall_app. split; [exact H | repeat constructor].
    + destruct H as (dest & w & rest & -> & H). exists dest, w, (rest ++ [EvUIError (Error err')]).
      split; [reflexivity|]. apply closedLast_once; [exact H | repeat constructor].
  - intros [] post _ [_ H]; try contradiction H.
    split; [discriminate|]. destruct err; [exact H|].
    destruct H as (dest & w & rest & -> & H). exists dest, w, rest.
    split; [reflexivity|]. rewrite <- (app_nil_r rest).
    apply closedLast_once; [exact H | constructor].
Qed.

End Close.

(** X8.  The body of the export is closed exactly when there is one.  When
    the re-fetch succeeds, the write-back into the local directory is the
    next thing the command does, and the body is closed once in the run,
    after the write-back, whether the write-back failed or not.  When the
    re-fetch fails, no body is closed in the run. *)
Theorem exported_body_is_closed_once
    (C : Collab) (fuel : nat) (args : list string) (s : State C)
    (groupID appID : string) (isTemplated : bool) (err : option error) :
  In (EvExport groupID appID isTemplated err) (log (Run C fuel args s)) ->
  match err with
  | None =>
    exists pre dest w mid tail,
      log (Run C fuel args s)
      = pre ++ EvExport groupID appID isTemplated None
            :: EvWriteToDirectory dest true w :: mid ++ EvBodyClose :: tail
      /\ Forall notClose pre /\ Forall notClose mid /\ Forall notClose tail
  | Some _ => Forall notClose (log (Run C fuel args s))
  end.
Proof.
  intros Hin.
  destruct (upon_In _ _ _ _ s _ (Run_close fuel args) Hin I)
    as (pre & post & Hlog & Hpre & _ & Hpost).
  destruct err as [err|].
  - rewrite Hlog. apply Forall_app. split; [exact Hpre|].
    constructor; [exact I | exact Hpost].
  - destruct Hpost as (dest & w & rest & -> & (mid & tail & -> & Hmid & Htail)).
    exists pre, dest, w, mid, tail. auto.
Qed.

Lemma exported_body_is_closed_once_witness :
  exists pre dest w mid tail,
    log (Run (scripted scPlain) 1 [] (start scPlain []))
    = pre ++ EvExport "g-1" "5d1" false None
          :: EvWriteToDirectory dest true w :: mid ++ EvBodyClose :: tail
    /\ Forall notClose pre /\ Forall notClose mid /\ Forall notClose tail.
Proof.
  apply (exported_body_is_closed_once (scripted scPlain) 1 [] (start scPlain [])
           "g-1" "5d1" false None).
  vm_compute. tauto.
Defined.

(** *** One push *)

Section OnePush.

Context {C : Collab}.

(** At a call whose event is in [E], when what follows logs no event of
    [E]. *)
Lemma upon_call_end {R A B} (P E : Event -> Prop) (Q : _ -> _ -> Fate R -> Prop) K
    (f : W C -> A * W C) ev (k : A -> M (State C) R B) :
  (forall a s, E (ev a) -> Forall K (log (k a s)) ->
     Q (ev a) (log (k a s)) (fate (out (k a s)))) ->
  (forall a, emits anyIC K (k a)) -> (forall e, K e -> ~ E e) ->
  upon P E Q (bind (call f ev) k).
Proof.
  intros Hnow Hk HK s pre e post Hlog He. unfold bind, call in Hlog |- *.
  simpl in *.
  destruct (Hk (fst (f (world s))) (mkState (ic s) (snd (f (world s)))) I)
    as [Hall _].
  destruct pre as [|x pre]; simpl in Hlog; injection Hlog as Hx Hlog.
  - subst e. split; [constructor|]. rewrite <- Hlog. apply Hnow; [exact He|].
    exact Hall.
  - exfalso. rewrite Hlog in Hall. apply Forall_app in Hall as [_ Hall].
    inversion Hall; subst. eapply HK; eauto.
Qed.

Lemma applyAndSync_onePush p app data root diffs cl :
  upon notPush isPush noPushAfter (applyAndSync C p app data root diffs cl).
Proof.
  unfold applyAndSync, notPush. upon_go.
  eapply upon_call_end with (K := K_afterPush).
  - intros e s _ Hall. split.
    + destruct e as [importErr|]; [discriminate|].
      unfold bind, call, UIInfo, call, return_, ret. simpl.
      repeat match goal with
             | |- context [match ?x with _ => _ end] => destruct x; simpl
             end; discriminate.
    + eapply Forall_impl; [exact Hall|]. intros x; destruct x; unfold notPush; simpl; tauto.
  - intros e. destruct e; emits_go.
  - event_cases.
Qed.

Lemma importApp_onePush fuel :
  upon notPush isPush noPushAfter (importApp C fuel).
Proof.
  unfold importApp, notPush.
  eapply upon_skip;
    [apply emits_loadDeclaration | event_cases | intros [[[p d] data] cl]].
  eapply upon_skip;
    [apply emits_resolveTarget; intros; exact I | event_cases | intros [[app skip] d']].
  eapply upon_skip; [apply emits_prepareAssets | event_cases | intros [root diffs]].
  eapply upon_skip; [apply emits_confirmDiff | event_cases | intros _].
  apply applyAndSync_onePush.
Qed.

Lemma Run_onePush fuel args :
  upon notPush isPush noPushAfter (Run C fuel args).
Proof.
  eapply Run_upon; [apply importApp_onePush | unfold notPush..].
  - event_cases.
  - event_cases.
  - intros e post l o _ [H _]. contradiction H. reflexivity.
  - intros e post c _ [_ H]. split; [discriminate | exact H].
  - intros e post err _ [_ H]. split; [discriminate|].
    apply Forall_app. split; [exact H|]. repeat constructor. intros [].
  - intros e post _ [_ H]. split; [discriminate | exact H].
Qed.

End OnePush.

(** X9.  A run pushes the configuration at most once: no other push comes
    before a push, and none after it. *)
Theorem configuration_is_pushed_at_most_once
    (C : Collab) (fuel : nat) (args : list string) (s : State C)
    (groupID appID appData strategy : string) (err : option error) :
  In (EvImport groupID appID appData strategy err) (log (Run C fuel args s)) ->
  exists pre post,
    log (Run C fuel args s) = pre ++ EvImport groupID appID appData strategy err :: post
    /\ Forall notPush pre /\ Forall notPush post.
Proof.
  intros Hin.
  destruct (upon_In _ _ _ _ s _ (Run_onePush fuel args) Hin I)
    as (pre & post & Hlog & Hpre & _ & Hpost).
  exists pre, post. auto.
Qed.

Lemma configuration_is_pushed_at_most_once_witness :
  exists pre post,
    log (Run (scripted scPlain) 1 [] (start scPlain []))
    = pre ++ EvImport "g-1" "5d1" "{}" "merge" None :: post
    /\ Forall notPush pre /\ Forall notPush post.
Proof.
  apply (configuration_is_pushed_at_most_once (scripted scPlain) 1 []
           (start scPlain []) "g-1" "5d1" "{}" "merge" None).
  vm_compute. tauto.
Defined.

(** *** The name of a new app is not taken *)

Section NoDuplicate.

Context {C : Collab}.

Lemma precedes_silent_bind {R A B} X E (m : M (State C) R A) (f : A -> M (State C) R B) :
  (forall s, log (m s) = []) -> (forall a, precedes X E (f a)) ->
  precedes X E (bind m f).
Proof.
  intros H Hf. eapply precedes_skip with (K := fun _ => False); [|tauto|exact Hf].
  intros s _. rewrite H. split; [constructor | exact I].
Qed.

(** What holds of [importApp] carries over to [Run]. *)
Lemma Run_precedes X E fuel args :
  precedes X E (importApp C fuel) ->
  (forall e, isBaseRun e \/ isUIError e -> ~ E e) ->
  precedes X E (Run C fuel args).
Proof.
  intros Himp HE. unfold Run.
  apply precedes_silent_bind; [reflexivity | intros _].
  eapply precedes_skip with (K := isBaseRun);
    [apply emits_invoke, emits_BaseCommand_run; intros; exact I
    | intros e He; apply HE; tauto | intros err].
  destruct err as [err|].
  { eapply precedes_never with (K := isUIError);
      [emits_go | intros e He; apply HE; tauto]. }
  apply precedes_silent_bind; [reflexivity | intros c].
  destruct (negb _ && negb _).
  { eapply precedes_never with (K := isUIError);
      [emits_go | intros e He; apply HE; tauto]. }
  apply precedes_bind; [apply precedes_invoke, Himp | intros r].
  eapply precedes_never with (K := isUIError);
    [destruct r; emits_go | intros e He; apply HE; tauto].
Qed.

Lemma precedes_In {R A} X E (m : M (State C) R A) s e :
  precedes X E m -> In e (log (m s)) -> E e ->
  exists pre post, log (m s) = pre ++ e :: post /\ Exists X pre.
Proof.
  intros H Hin He. apply in_split in Hin as (pre & post & Hlog).
  exists pre, post. split; [exact Hlog | exact (H s pre e post Hlog He)].
Qed.

Variables g n : string.

Lemma askCreateEmptyApp_noDuplicate fuel q dn l d cl :
  precedes (listsWithout g n) (isCreateIn g n) (askCreateEmptyApp C fuel q dn l d cl).
Proof.
  unfold askCreateEmptyApp, AskYesNo.
  apply precedes_silent_bind; [reflexivity | intros c]. cbv zeta.
  apply precedes_call; [intros a [] | intros [confirm|err]; right].
  2: { eapply precedes_never with (K := fun _ => False); [emits_go | tauto]. }
  destruct (negb confirm).
  { eapply precedes_never with (K := fun _ => False); [emits_go | tauto]. }
  apply precedes_call; [intros a [] | intros [appName|err]; right].
  2: { eapply precedes_never with (K := fun _ => False); [emits_go | tauto]. }
  eapply precedes_skip with (K := K_groupID);
    [apply emits_invoke, emits_resolveGroupID | event_cases | intros [groupID|err]].
  2: { eapply precedes_never with (K := fun _ => False); [emits_go | tauto]. }
  apply precedes_call; [intros a [] | intros [apps|err]].
  2: { right. eapply precedes_never with (K := fun _ => False); [emits_go | tauto]. }
  destruct (existsb (fun app => String.eqb (Name app) appName) apps) eqn:Hex.
  { right. eapply precedes_never with (K := fun _ => False); [emits_go | tauto]. }
  destruct (string_dec groupID g) as [Hg|Hg], (string_dec appName n) as [Hn|Hn].
  { left. simpl. subst. auto. }
  all: right; eapply precedes_never with (K := fun e => ~ isCreateIn g n e); [|tauto];
    emits_go; simpl; tauto.
Qed.

Lemma resolveTarget_noDuplicate fuel p d cl :
  precedes (listsWithout g n) (isCreateIn g n) (resolveTarget C fuel p d cl).
Proof.
  unfold resolveTarget.
  eapply precedes_skip with (K := K_fetch);
    [apply emits_invoke, emits_fetchAppByClientAppID | event_cases | intros [app|err]].
  { eapply precedes_never with (K := fun _ => False); [emits_go | tauto]. }
  destruct (errKind err).
  2,3: eapply precedes_never with (K := fun _ => False); [emits_go | tauto].
  cbv zeta. apply precedes_silent_bind; [reflexivity | intros _].
  apply precedes_bind; [apply precedes_invoke, askCreateEmptyApp_noDuplicate | intros r].
  eapply precedes_never with (K := isWriteAppConfig); [|event_cases].
  destruct r as [[app|]|err']; emits_go.
Qed.

Lemma importApp_noDuplicate fuel :
  precedes (listsWithout g n) (isCreateIn g n) (importApp C fuel).
Proof.
  unfold importApp.
  eapply precedes_skip;
    [apply emits_loadDeclaration | event_cases | intros [[[p d] data] cl]].
  apply precedes_bind; [apply resolveTarget_noDuplicate | intros [[app skip] d']].
  eapply precedes_never with (K := K_afterTarget); [|event_cases].
  unfold K_afterTarget. emits_go; emits_phase.
Qed.

End NoDuplicate.

(** X10.  An app is created only under a name that is not taken: before
    the call that creates an app in a project, the apps of that project
    were listed, and none of them has the name of the new app. *)
Theorem app_is_created_under_a_free_name
    (C : Collab) (fuel : nat) (args : list string) (s : State C)
    (groupID name location deploymentModel : string) (r : result App) :
  In (EvCreateEmptyApp groupID name location deploymentModel r)
     (log (Run C fuel args s)) ->
  exists pre post apps,
    log (Run C fuel args s)
    = pre ++ EvCreateEmptyApp groupID name location deploymentModel r :: post
    /\ In (EvFetchAppsByGroupID groupID (Ok apps)) pre
    /\ existsb (fun app => String.eqb (Name app) name) apps = false.
Proof.
  intros Hin.
  assert (Hrun : precedes (listsWithout groupID name) (isCreateIn groupID name)
                          (Run C fuel args)).
  { apply Run_precedes; [apply importApp_noDuplicate|].
    intros e [He|He]; destruct e; simpl in *; tauto. }
  destruct (precedes_In _ _ _ s _ Hrun Hin (conj eq_refl eq_refl))
    as (pre & post & Hlog & Hex).
  apply List.Exists_exists in Hex as (x & Hx & Hlists).
  destruct x; simpl in Hlists; try contradiction.
  destruct r0 as [apps|err]; [|contradiction]. destruct Hlists as [-> Hfree].
  exists pre, post, apps. auto.
Qed.

Lemma app_is_created_under_a_free_name_witness :
  exists pre post apps,
    log (Run (played xsCreate) 3 []
           (onStage xsCreate [true] ["my-app"; "nope"; "Sandbox"]))
    = pre ++ EvCreateEmptyApp "5a0000000000000000000002" "my-app" "" ""
               (Ok (mkApp "5d2" "5a0000000000000000000002" "my-app-abcde" "my-app"))
          :: post
    /\ In (EvFetchAppsByGroupID "5a0000000000000000000002" (Ok apps)) pre
    /\ existsb (fun app => String.eqb (Name app) "my-app") apps = false.
Proof.
  apply (app_is_created_under_a_free_name (played xsCreate) 3 []
           (onStage xsCreate [true] ["my-app"; "nope"; "Sandbox"])
           "5a0000000000000000000002" "my-app" "" ""
           (Ok (mkApp "5d2" "5a0000000000000000000002" "my-app-abcde" "my-app"))).
  vm_compute. tauto.
Defined.

(** *** The project id that is resolved *)

Section Gives.

Context {C : Collab}.

Lemma gives_ret {R A} (V : A -> Prop) (G : R -> Prop) a :
  V a -> gives V G (ret a : M (State C) R A).
Proof. intros H s. exact H. Qed.

Lemma gives_return {R A} (V : A -> Prop) (G : R -> Prop) r :
  G r -> gives V G (return_ r : M (State C) R A).
Proof. intros H s. exact H. Qed.

Lemma gives_crash {R A} (V : A -> Prop) (G : R -> Prop) c :
  gives V G (crash c : M (State C) R A).
Proof. intros s. exact I. Qed.

Lemma gives_bind {R A B} (V' : A -> Prop) (V : B -> Prop) (G : R -> Prop)
    (m : M (State C) R A) (f : A -> M (State C) R B) :
  gives V' G m -> (forall a, V' a -> gives V G (f a)) -> gives V G (bind m f).
Proof.
  intros Hm Hf s. unfold bind. specialize (Hm s).
  destruct (out (m s)) as [a|r|c]; simpl; [|exact Hm | exact I].
  apply (Hf a Hm).
Qed.

Lemma gives_getIC {R} (G : R -> Prop) : gives anyValue G (getIC : M (State C) R _).
Proof. intros s. exact I. Qed.

Lemma gives_call {R A} (G : R -> Prop) (f : W C -> A * W C) ev :
  gives anyValue G (call f ev : M (State C) R A).
Proof. intros s. exact I. Qed.

Lemma gives_observe {R} (G : R -> Prop) ev :
  gives anyValue G (observe ev : M (State C) R unit).
Proof. intros s. exact I. Qed.

Lemma gives_forEach {R A} (G : R -> Prop) (l : list A) (body : A -> M (State C) R unit) :
  (forall x, gives anyValue G (body x)) -> gives anyValue G (forEach l body).
Proof.
  intros H. induction l as [|x l IH]; simpl.
  - apply gives_ret. exact I.
  - eapply gives_bind; [apply H | intros _ _; exact IH].
Qed.

Lemma gives_invoke {R R'} (G' : R' -> Prop) (G : R -> Prop) (body : M (State C) R' R') :
  gives G' G' body -> gives G' G (invoke body : M (State C) R R').
Proof.
  intros H s. unfold invoke. specialize (H s).
  destruct (out (body s)); simpl; [exact H | exact H | exact I].
Qed.

Lemma gives_yields {R A} Inv (V : A -> Prop) (G : R -> Prop) (m : M (State C) R A) :
  gives V G m -> yields Inv V m.
Proof. intros H s a _ Ho. specialize (H s). rewrite Ho in H. exact H. Qed.

Lemma isObjectIDHex_not_empty s : isObjectIDHex s = true -> s <> "".
Proof. intros H ->. discriminate H. Qed.

Lemma resolveGroupID_loop_resolved fuel a g m :
  gives (fun groupID => groupID <> "") resolved (resolveGroupID_loop C fuel a g m).
Proof.
  revert a g m. induction fuel as [|fuel IH]; intros; simpl; [apply gives_crash|].
  eapply gives_bind with (V' := anyValue).
  { destruct g; [apply gives_crash | apply gives_ret; exact I]. }
  intros g0 _.
  eapply gives_bind; [apply gives_call | intros [projectResponse|err] _].
  2: { apply gives_return. exact I. }
  destruct (isObjectIDHex projectResponse) eqn:Hhex.
  { apply gives_ret, isObjectIDHex_not_empty, Hhex. }
  cbv zeta.
  destruct (String.eqb_spec (default "" (m !! projectResponse)) "") as [_|Hne]; simpl.
  2: { apply gives_ret, Hne. }
  eapply gives_bind; [apply gives_call | intros [groupFromName|err] _].
  2: { apply gives_return. exact I. }
  destruct (String.eqb_spec (GroupId groupFromName) "") as [_|Hne]; simpl.
  2: { apply gives_ret, Hne. }
  eapply gives_bind; [apply gives_call | intros _ _]. apply IH.
Qed.

Lemma resolveGroupID_resolved fuel : gives resolved resolved (resolveGroupID C fuel).
Proof.
  unfold resolveGroupID.
  eapply gives_bind; [apply gives_getIC | intros c _].
  destruct (String.eqb_spec (flagGroupID c) "") as [_|Hne]; simpl.
  2: { apply gives_return. exact Hne. }
  eapply gives_bind; [apply gives_call | intros [atlasClient|err] _].
  2: { apply gives_return. exact I. }
  eapply gives_bind; [apply gives_call | intros [groups|err] _].
  2: { apply gives_return. exact I. }
  cbv zeta. destruct (Nat.eqb _ 0).
  { apply gives_return. exact I. }
  eapply gives_bind; [apply gives_call | intros _ _].
  eapply gives_bind; [apply gives_forEach; intros; apply gives_call | intros _ _].
  eapply gives_bind; [apply resolveGroupID_loop_resolved | intros groupID Hne].
  apply gives_return. exact Hne.
Qed.

Lemma askCreateEmptyApp_projectGiven Inv fuel q n l d cl :
  emits Inv projectGiven (askCreateEmptyApp C fuel q n l d cl).
Proof.
  unfold askCreateEmptyApp. apply emits_getIC_bind. intros c Hc. cbv zeta.
  apply emits_bind; [emits_go | intros [confirm|err]]; [|emits_go].
  destruct (negb confirm); [emits_go|].
  apply emits_bind; [emits_go | intros [appName|err]]; [|emits_go].
  eapply emits_bind_yields with (V := resolved).
  - eapply emits_weaken; [apply emits_invoke, emits_resolveGroupID | event_cases].
  - apply gives_yields with (G := anyValue). apply gives_invoke, resolveGroupID_resolved.
  - intros [groupID|err] Hne; [|emits_go]. simpl in Hne. emits_go; exact Hne.
Qed.

Lemma importApp_projectGiven fuel : emits anyIC projectGiven (importApp C fuel).
Proof.
  unfold importApp. emits_go.
  - eapply emits_weaken; [apply emits_loadDeclaration | event_cases].
  - unfold resolveTarget. emits_go.
    + eapply emits_weaken; [apply emits_fetchAppByClientAppID | event_cases].
    + apply askCreateEmptyApp_projectGiven.
  - eapply emits_weaken; [apply emits_prepareAssets | event_cases].
  - eapply emits_weaken; [apply emits_confirmDiff | event_cases].
  - eapply emits_weaken; [apply emits_applyAndSync | event_cases].
Qed.

End Gives.

(** X11.  The project id that [resolveGroupID] returns is not empty,
    whether it comes from the command line, from the user as an id, from
    the projects listed or from the lookup by name: in a run, the apps are
    listed and the new app is created in a project whose id is not
    empty. *)
Theorem resolved_project_id_is_not_empty
    (C : Collab) (fuel : nat) (args : list string) (s : State C) :
  (forall s' groupID,
     out (resolveGroupID C fuel s') = Ret (Ok groupID) -> groupID <> "")
  /\ Forall projectGiven (log (Run C fuel args s)).
Proof.
  split.
  - intros s' groupID Hout. pose proof (resolveGroupID_resolved fuel s') as H.
    rewrite Hout in H. exact H.
  - pose proof (Run_shape fuel args s) as H. cbv zeta in H.
    destruct H as [(msg & -> & _) | (tail & -> & Htail & _)];
      [repeat constructor|].
    constructor; [exact I|]. apply Forall_app. split.
    + apply (importApp_projectGiven fuel (parsedState C args s) I).
    + eapply Forall_impl; [exact Htail|]. intros e; destruct e; simpl; tauto.
Qed.

(** *** The instance data *)

(** X12.  The instance data [resolveAppInstanceData] returns is the data
    of stitch.json with one change at most: an app id given on the command
    line replaces the app id of the file, and no other field is touched.
    A file that does not exist counts as an empty one. *)
Theorem app_id_flag_overrides_file
    (C : Collab) (path : string) (s : State C) (d : AppInstanceData) :
  out (resolveAppInstanceData C path s) = Ret (Ok d) ->
  let file := fileData (fst (c_UnmarshalFile C path (world s))) in
  AppID C d = (if String.eqb (flagAppID (ic s)) "" then AppID C file
               else flagAppID (ic s))
  /\ forall field, field <> AppIDField C -> d !! field = file !! field.
Proof.
  unfold resolveAppInstanceData, bind, call, getIC, return_. simpl.
  destruct (fst (c_UnmarshalFile C path (world s))) as [file|err]; simpl.
  - destruct (String.eqb_spec (flagAppID (ic s)) "") as [Heq|Hne]; simpl;
      intros H; injection H as <-.
    + split; [reflexivity | intros; reflexivity].
    + split.
      * unfold AppID. rewrite lookup_insert_eq. reflexivity.
      * intros field Hf. apply lookup_insert_ne. congruence.
  - destruct (os_IsNotExist err); simpl; intros H; [|discriminate H].
    injection H as <-. split.
    + unfold AppID. rewrite lookup_singleton_eq, lookup_empty. simpl.
      destruct (String.eqb_spec (flagAppID (ic s)) ""); congruence.
    + intros field Hf. rewrite lookup_empty. apply lookup_singleton_ne. congruence.
Qed.

Lemma app_id_flag_overrides_file_witness :
  AppID (played xsOverride) (<[ "app_id" := "cli-app" ]> {[ "app_id" := "file-app" ]})
  = (if String.eqb
          (flagAppID (ic (parsedState (played xsOverride) [] (onStage xsOverride [] []))))
          ""
     then AppID (played xsOverride)
            (fileData (fst (c_UnmarshalFile (played xsOverride) "/work/app"
                              (world (parsedState (played xsOverride) []
                                        (onStage xsOverride [] []))))))
     else flagAppID (ic (parsedState (played xsOverride) [] (onStage xsOverride [] []))))
  /\ forall field,
       field <> AppIDField (played xsOverride) ->
       (<[ "app_id" := "cli-app" ]> {[ "app_id" := "file-app" ]} : AppInstanceData)
         !! field
       = fileData (fst (c_UnmarshalFile (played xsOverride) "/work/app"
                          (world (parsedState (played xsOverride) []
                                    (onStage xsOverride [] [])))))
           !! field.
Proof.
  apply (app_id_flag_overrides_file (played xsOverride) "/work/app"
           (parsedState (played xsOverride) [] (onStage xsOverride [] []))
           (<[ "app_id" := "cli-app" ]> {[ "app_id" := "file-app" ]})).
  vm_compute. reflexivity.
Defined.

(** *** A new app is recorded *)

Section Recorded.

Context {C : Collab}.

Lemma createdRecorded_ext {R R'} e post l (o : Fate R) (o' : Fate R') :
  createdRecorded C e post o -> createdRecorded C e (post ++ l) o'.
Proof.
  destruct e; simpl; try tauto. destruct r as [app|err]; [|tauto].
  intros (dest & d & w & rest & -> & Hd). exists dest, d, w, (rest ++ l). auto.
Qed.

Lemma askCreateEmptyApp_created fuel q n l d cl :
  upon notWriteAppConfig isCreated createdReturned (askCreateEmptyApp C fuel q n l d cl).
Proof. unfold askCreateEmptyApp, notWriteAppConfig. upon_go. Qed.

Lemma recordsApp_insert app (d : AppInstanceData) :
  recordsApp C app (<[ AppNameField C := Name app ]>
                      (<[ AppIDField C := ClientAppID app ]> d)).
Proof.
  split.
  - apply lookup_insert_eq.
  - intros Hne. rewrite lookup_insert_ne by congruence. apply lookup_insert_eq.
Qed.

Lemma resolveTarget_created fuel p d cl :
  upon notWriteAppConfig isCreated (createdRecorded C) (resolveTarget C fuel p d cl).
Proof.
  unfold resolveTarget, notWriteAppConfig. upon_go.
  eapply upon_invoke_end with (Q' := createdReturned) (K := isWriteAppConfig).
  - apply askCreateEmptyApp_created.
  - intros [] post l o He H; simpl in *; try contradiction.
    destruct r; [|contradiction]. destruct H as [_ H]. discriminate H.
  - intros [] post c He H; simpl in *; try contradiction.
    destruct r; [|contradiction]. destruct H as [_ H]. discriminate H.
  - intros [] post r' s He H; simpl in *; try contradiction.
    destruct r as [app|]; [|contradiction]. destruct H as [-> H].
    injection H as ->. unfold bind, call. simpl.
    eexists _, _, _, _. split; [reflexivity | apply recordsApp_insert].
  - intros [[app|]|err']; emits_go.
  - event_cases.
Qed.

Lemma importApp_created fuel :
  upon notWriteAppConfig isCreated (createdRecorded C) (importApp C fuel).
Proof.
  unfold importApp, notWriteAppConfig.
  eapply upon_skip;
    [apply emits_loadDeclaration | event_cases | intros [[[p d] data] cl]].
  eapply upon_then_never with (K := K_afterTarget).
  - intros e post l o. apply createdRecorded_ext.
  - apply resolveTarget_created.
  - intros [[app skip] d']. unfold K_afterTarget. emits_go; emits_phase.
  - event_cases.
Qed.

Lemma Run_created fuel args :
  upon notWriteAppConfig isCreated (createdRecorded C) (Run C fuel args).
Proof.
  eapply Run_upon; [apply importApp_created | unfold notWriteAppConfig..].
  1-2: event_cases.
  - intros e post l o _. apply createdRecorded_ext.
  - intros e post c _ H. rewrite <- (app_nil_r post).
    exact (createdRecorded_ext e post [] _ _ H).
  - intros e post err _ H. exact (createdRecorded_ext e post _ _ _ H).
  - intros e post _ H. rewrite <- (app_nil_r post).
    exact (createdRecorded_ext e post [] _ _ H).
Qed.

End Recorded.

(** X13.  A new app is recorded at once.  When the call that creates an
    app succeeds, the command shows the notice and then writes the instance
    data back to stitch.json, before it does anything else; the data
    written carries the name of the new app, and its client app id; the
    file had not been written before in the run. *)
Theorem created_app_is_recorded_at_once
    (C : Collab) (fuel : nat) (args : list string) (s : State C)
    (groupID name location deploymentModel : string) (app : App) :
  In (EvCreateEmptyApp groupID name location deploymentModel (Ok app))
     (log (Run C fuel args s)) ->
  exists pre dest d w rest,
    log (Run C fuel args s)
    = pre ++ EvCreateEmptyApp groupID name location deploymentModel (Ok app)
          :: EvUIInfo ("New app created: " ++ ClientAppID app)
          :: EvWriteAppConfigToFile dest d w :: rest
    /\ Forall notWriteAppConfig pre
    /\ d !! AppNameField C = Some (Name app)
    /\ (AppIDField C <> AppNameField C -> d !! AppIDField C = Some (ClientAppID app)).
Proof.
  intros Hin.
  destruct (upon_In _ _ _ _ s _ (Run_created fuel args) Hin I)
    as (pre & post & Hlog & Hpre & (dest & d & w & rest & -> & Hname & Hid)).
  exists pre, dest, d, w, rest. auto.
Qed.

Lemma created_app_is_recorded_at_once_witness :
  exists pre dest d w rest,
    log (Run (played xsCreate) 3 []
           (onStage xsCreate [true] ["my-app"; "nope"; "Sandbox"]))
    = pre ++ EvCreateEmptyApp "5a0000000000000000000002" "my-app" "" ""
               (Ok (mkApp "5d2" "5a0000000000000000000002" "my-app-abcde" "my-app"))
          :: EvUIInfo ("New app created: " ++ "my-app-abcde")
          :: EvWriteAppConfigToFile dest d w :: rest
    /\ Forall notWriteAppConfig pre
    /\ d !! AppNameField (played xsCreate) = Some "my-app"
    /\ (AppIDField (played xsCreate) <> AppNameField (played xsCreate) ->
        d !! AppIDField (played xsCreate) = Some "my-app-abcde").
Proof.
  apply (created_app_is_recorded_at_once (played xsCreate) 3 []
           (onStage xsCreate [true] ["my-app"; "nope"; "Sandbox"])
           "5a0000000000000000000002" "my-app" "" ""
           (mkApp "5d2" "5a0000000000000000000002" "my-app-abcde" "my-app")).
  vm_compute. tauto.
Defined.

(** *** The parts of [importApp], one after the other *)

Section Parts.

Context {C : Collab}.

Lemma bind_cases {S R A B} (m : M S R A) (f : A -> M S R B) (s : S) :
  (exists a, out (m s) = Val a /\ bind m f s = prepend (log (m s)) (f a (st (m s))))
  \/ ((forall a, out (m s) <> Val a) /\ bind m f s = mkRes (match out (m s) with
                                                            | Val _ => Crash Panic
                                                            | Ret r => Ret r
                                                            | Crash c => Crash c
                                                            end) (st (m s)) (log (m s))).
Proof.
  unfold bind. destruct (out (m s)) as [a|r|c]; [left; eauto | right..];
    (split; [discriminate | reflexivity]).
Qed.

(** Either [importApp] stops in one of its first two parts, or the target
    part falls through with the app, and the rest runs on it. *)
Lemma importApp_target fuel s :
  (exists p d data cl app skip d',
     out (loadDeclaration C s) = Val (p, d, data, cl)
     /\ out (resolveTarget C fuel p d cl (st (loadDeclaration C s)))
        = Val (app, skip, d')
     /\ importApp C fuel s
        = prepend (log (loadDeclaration C s)
                   ++ log (resolveTarget C fuel p d cl (st (loadDeclaration C s))))
            (afterTarget C p d' app data skip cl
               (st (resolveTarget C fuel p d cl (st (loadDeclaration C s))))))
  \/ Forall (fun e => K_load e \/ K_target e) (log (importApp C fuel s)).
Proof.
  unfold importApp.
  match goal with
  | |- context [bind ?m ?f s] =>
    destruct (bind_cases m f s) as [([[[p d] data] cl] & Ho1 & Hb1) | [_ Hb1]]
  end; rewrite Hb1; clear Hb1.
  2: { right. cbn [log]. eapply Forall_impl; [apply (emits_loadDeclaration anyIC s I)|].
       tauto. }
  cbv beta iota zeta.
  match goal with
  | |- context [bind ?m ?f ?s1] =>
    destruct (bind_cases m f s1) as [([[app skip] d'] & Ho2 & Hb2) | [_ Hb2]]
  end; rewrite Hb2; clear Hb2.
  2: { right. unfold prepend. cbn [log]. apply Forall_app. split.
       - eapply Forall_impl; [apply (emits_loadDeclaration anyIC s I) | tauto].
       - eapply Forall_impl;
           [apply (emits_resolveTarget anyIC fuel p d cl (fun _ _ => I) _ I) | tauto]. }
  left. exists p, d, data, cl, app, skip, d'. split; [exact Ho1|]. split; [exact Ho2|].
  unfold prepend. cbn [log out st]. rewrite app_assoc. reflexivity.
Qed.

(** Either what comes after the target part stops before the push, or the
    asset part and the confirmation fall through, and the last part runs. *)
Lemma afterTarget_cases p d app data skip cl s :
  (exists root diffs,
     out (prepareAssets C p d app cl s) = Val (root, diffs)
     /\ out (confirmDiff C app data diffs skip cl (st (prepareAssets C p d app cl s)))
        = Val tt
     /\ afterTarget C p d app data skip cl s
        = prepend (log (prepareAssets C p d app cl s)
                   ++ log (confirmDiff C app data diffs skip cl
                             (st (prepareAssets C p d app cl s))))
            (applyAndSync C p app data root diffs cl
               (st (confirmDiff C app data diffs skip cl
                      (st (prepareAssets C p d app cl s))))))
  \/ Forall (fun e => K_assets e \/ K_confirm e)
            (log (afterTarget C p d app data skip cl s)).
Proof.
  unfold afterTarget.
  match goal with
  | |- context [bind ?m ?f s] =>
    destruct (bind_cases m f s) as [([root diffs] & Ho1 & Hb1) | [_ Hb1]]
  end; rewrite Hb1; clear Hb1.
  2: { right. cbn [log]. eapply Forall_impl; [apply (emits_prepareAssets anyIC p d app cl s I)|].
       tauto. }
  cbv beta iota zeta.
  match goal with
  | |- context [bind ?m ?f ?s1] =>
    destruct (bind_cases m f s1) as [([] & Ho2 & Hb2) | [_ Hb2]]
  end; rewrite Hb2; clear Hb2.
  2: { right. unfold prepend. cbn [log]. apply Forall_app. split.
       - eapply Forall_impl; [apply (emits_prepareAssets anyIC p d app cl s I) | tauto].
       - eapply Forall_impl;
           [apply (emits_confirmDiff anyIC app data diffs skip cl _ I) | tauto]. }
  left. exists root, diffs. split; [exact Ho1|]. split; [exact Ho2|].
  unfold prepend. cbn [log out st]. rewrite app_assoc. reflexivity.
Qed.

Lemma afterTarget_targets p d app data skip cl :
  emits anyIC (targets app) (afterTarget C p d app data skip cl).
Proof.
  unfold afterTarget, prepareAssets, confirmDiff, applyAndSync. emits_go; simpl; auto.
Qed.

End Parts.

(** *** What the target part falls through with *)

Section Unless.

Context {C : Collab}.

Lemma unless_ret {R A} X (V : A -> Prop) (G : R -> Prop) a :
  V a -> unless X V G (ret a : M (State C) R A).
Proof. intros H s. right. exact H. Qed.

Lemma unless_return {R A} X (V : A -> Prop) (G : R -> Prop) r :
  G r -> unless X V G (return_ r : M (State C) R A).
Proof. intros H s. right. exact H. Qed.

Lemma unless_bind {R A B} X (V' : A -> Prop) (V : B -> Prop) (G : R -> Prop)
    (m : M (State C) R A) (f : A -> M (State C) R B) :
  unless X V' G m -> (forall a, V' a -> unless X V G (f a)) -> unless X V G (bind m f).
Proof.
  intros Hm Hf s. unfold bind. destruct (Hm s) as [H|H].
  - left. destruct (out (m s)); simpl; [apply Exists_app; left|..]; exact H.
  - destruct (out (m s)) as [a|r|c]; simpl; [|right; exact H | right; exact I].
    destruct (Hf a H (st (m s))) as [H'|H'].
    + left. apply Exists_app. right. exact H'.
    + right. exact H'.
Qed.

(** A part that does not return. *)
Lemma unless_falls {R A} X (G : R -> Prop) (m : M (State C) R A) :
  (forall s r, out (m s) <> Ret r) -> unless X anyValue G m.
Proof.
  intros H s. right. specialize (H s).
  destruct (out (m s)) as [a|r|c]; [exact I | contradiction (H r); reflexivity | exact I].
Qed.

Lemma unless_call {R A B} (X : Event -> Prop) (V : B -> Prop) (G : R -> Prop)
    (f : W C -> A * W C) ev (k : A -> M (State C) R B) :
  (forall a, X (ev a) \/ unless X V G (k a)) -> unless X V G (bind (call f ev) k).
Proof.
  intros Hk s. unfold bind, call. simpl.
  destruct (Hk (fst (f (world s)))) as [H|H].
  - left. apply Exists_cons. left. exact H.
  - destruct (H (mkState (ic s) (snd (f (world s))))) as [H'|H'].
    + left. apply Exists_cons. right. exact H'.
    + right. exact H'.
Qed.

Lemma unless_invoke {R R'} X (G' : R' -> Prop) (G : R -> Prop) (body : M (State C) R' R') :
  unless X G' G' body -> unless X G' G (invoke body : M (State C) R R').
Proof.
  intros H s. unfold invoke. destruct (H s) as [H'|H'].
  - left. destruct (out (body s)); exact H'.
  - right. destruct (out (body s)); simpl; [exact H' | exact H' | exact I].
Qed.

Lemma invoke_falls {R R'} (body : M (State C) R' R') s (r : R) :
  out (invoke body s) <> Ret r.
Proof. unfold invoke. destruct (out (body s)); discriminate. Qed.

Lemma App_eq_dec (a b : App) : {a = b} + {a <> b}.
Proof. decide equality; apply string_dec. Qed.

(** **** The app comes from the lookup or from the creation *)

Variable app : App.

Lemma fetchAppByClientAppID_givesApp id :
  unless (givesApp app) (fun r => r <> Ok app) (fun r => r <> Ok app)
         (fetchAppByClientAppID C id).
Proof.
  unfold fetchAppByClientAppID.
  apply unless_call. intros [cl|err]; right; [|apply unless_return; discriminate].
  eapply unless_bind;
    [apply unless_falls with (m := getIC); intros; discriminate | intros c _].
  destruct (String.eqb (flagGroupID c) "").
  - apply unless_call. intros [app'|err]; [|right; apply unless_return; discriminate].
    destruct (App_eq_dec app' app) as [Heq|Hne]; [left; exact Heq | right].
    apply unless_return. congruence.
  - apply unless_call. intros [app'|err]; [|right; apply unless_return; discriminate].
    destruct (App_eq_dec app' app) as [Heq|Hne]; [left; exact Heq | right].
    apply unless_return. congruence.
Qed.

Lemma askCreateEmptyApp_givesApp fuel q n l d cl :
  unless (givesApp app) (fun r => r <> Ok (Some app)) (fun r => r <> Ok (Some app))
         (askCreateEmptyApp C fuel q n l d cl).
Proof.
  unfold askCreateEmptyApp, AskYesNo, UIInfo.
  eapply unless_bind;
    [apply unless_falls with (m := getIC); intros; discriminate | intros c _].
  cbv zeta.
  apply unless_call. intros [confirm|err]; right; [|apply unless_return; discriminate].
  destruct (negb confirm); [apply unless_return; discriminate|].
  apply unless_call. intros [appName|err]; right; [|apply unless_return; discriminate].
  eapply unless_bind; [apply unless_falls, invoke_falls | intros [groupID|err] _].
  2: { apply unless_return; discriminate. }
  apply unless_call. intros [apps|err]; right; [|apply unless_return; discriminate].
  destruct (existsb _ apps); [apply unless_return; discriminate|].
  apply unless_call. intros [location|err]; right; [|apply unless_return; discriminate].
  apply unless_call. intros [model|err]; right; [|apply unless_return; discriminate].
  apply unless_call. intros [app'|err]; [|right; apply unless_return; discriminate].
  destruct (App_eq_dec app' app) as [Heq|Hne]; [left; exact Heq | right].
  apply unless_call. intros _. right. apply unless_return. congruence.
Qed.

Lemma resolveTarget_givesApp fuel p d cl :
  unless (givesApp app) (otherTarget C app) (fun _ => True) (resolveTarget C fuel p d cl).
Proof.
  unfold resolveTarget, otherTarget.
  eapply unless_bind;
    [apply unless_invoke, fetchAppByClientAppID_givesApp | intros [app'|err] Hr].
  { apply unless_ret. simpl. congruence. }
  destruct (errKind err); [|apply unless_return; exact I..]. cbv zeta.
  eapply unless_bind;
    [apply unless_falls with (m := modifyIC _); intros; discriminate | intros _ _].
  eapply unless_bind;
    [apply unless_invoke, askCreateEmptyApp_givesApp | intros [[app'|]|err'] Hr'].
  2,3: apply unless_return; exact I.
  apply unless_call. intros [writeErr|]; right.
  - apply unless_return. exact I.
  - apply unless_ret. simpl. congruence.
Qed.

(** **** Without a lookup that finds the app, the user agreed to create it *)

Lemma askCreateEmptyApp_consent fuel q n l d cl :
  unless isConsent (fun r => forall a, r <> Ok (Some a)) (fun r => forall a, r <> Ok (Some a))
         (askCreateEmptyApp C fuel q n l d cl).
Proof.
  unfold askCreateEmptyApp, AskYesNo.
  eapply unless_bind;
    [apply unless_falls with (m := getIC); intros; discriminate | intros c _].
  cbv zeta.
  apply unless_call. intros [[|]|err].
  - left. simpl. right. eexists. reflexivity.
  - right. apply unless_return. discriminate.
  - right. apply unless_return. discriminate.
Qed.

Lemma resolveTarget_consent fuel p d cl :
  unless isConsent diffNotSkipped (fun _ => True) (resolveTarget C fuel p d cl).
Proof.
  unfold resolveTarget, diffNotSkipped.
  eapply unless_bind; [apply unless_falls, invoke_falls | intros [app'|err] _].
  { apply unless_ret. reflexivity. }
  destruct (errKind err); [|apply unless_return; exact I..]. cbv zeta.
  eapply unless_bind;
    [apply unless_falls with (m := modifyIC _); intros; discriminate | intros _ _].
  eapply unless_bind;
    [apply unless_invoke, askCreateEmptyApp_consent | intros [[app'|]|err'] Hr'].
  2,3: apply unless_return; exact I.
  contradiction (Hr' app'). reflexivity.
Qed.

End Unless.

Section Target.

Context {C : Collab}.

Lemma onApp_afterTarget e : K_load e \/ K_target e -> ~ isOnApp e.
Proof. destruct e; simpl; tauto. Qed.

Lemma importApp_onApp fuel s e :
  isOnApp e -> In e (log (importApp C fuel s)) ->
  exists pre post app x,
    log (importApp C fuel s) = pre ++ e :: post
    /\ In x pre /\ givesApp app x /\ targets app e.
Proof.
  intros He Hin.
  destruct (importApp_target fuel s)
    as [(p & d & data & cl & app & skip & d' & Ho1 & Ho2 & Heq) | Hall].
  2: { exfalso. rewrite List.Forall_forall in Hall.
       exact (onApp_afterTarget e (Hall e Hin) He). }
  rewrite Heq in Hin |- *. unfold prepend in Hin |- *. cbn [log] in Hin |- *.
  apply in_app_or in Hin as [Hin|Hin].
  { exfalso. apply (onApp_afterTarget e); [|exact He].
    apply in_app_or in Hin as [Hin|Hin].
    - left. exact (emits_In _ _ _ _ (emits_loadDeclaration anyIC) Hin).
    - right. exact (emits_In _ _ _ _ (emits_resolveTarget anyIC fuel p d cl (fun _ _ => I)) Hin). }
  pose proof (emits_In _ _ _ _ (afterTarget_targets p d' app data skip cl) Hin) as Ht.
  apply in_split in Hin as (pre & post & Hlog).
  destruct (resolveTarget_givesApp app fuel p d cl (st (loadDeclaration C s)))
    as [Hex|Hno].
  2: { exfalso. rewrite Ho2 in Hno. apply Hno. reflexivity. }
  apply List.Exists_exists in Hex as (x & Hx & Hgives).
  exists ((log (loadDeclaration C s)
           ++ log (resolveTarget C fuel p d cl (st (loadDeclaration C s)))) ++ pre),
    post, app, x.
  split; [rewrite Hlog, <- !app_assoc; reflexivity|].
  split; [|split; assumption].
  apply in_or_app. left. apply in_or_app. right. exact Hx.
Qed.

Lemma confirmDiff_consent app data diffs cl s :
  flagYes (ic s) = false ->
  out (confirmDiff C app data diffs false cl s) = Val tt ->
  In (EvAskYesNo confirmQuery (Ok true)) (log (confirmDiff C app data diffs false cl s)).
Proof.
  intros Hyes. unfold confirmDiff, AskYesNo, UIInfo, bind, call, getIC, observe,
    ret, return_, prepend. cbn [out st log ic world]. rewrite Hyes. cbn [negb andb].
  cbn [out st log ic world].
  repeat match goal with
         | |- context [negb ?b] => destruct b; cbn [negb out st log ic world]
         | |- context [match ?x with _ => _ end] => destruct x; cbn [out st log ic world]
         end; intros H; try discriminate H.
  all: repeat first [apply in_eq | apply in_or_app; right | apply in_cons].
Qed.

End Target.

Section Consent.

Context {C : Collab}.

Lemma push_not_before e :
  isPush e -> ~ (K_load e \/ K_target e \/ K_assets e \/ K_confirm e).
Proof. destruct e; simpl; tauto. Qed.

Lemma importApp_consent fuel s e :
  flagYes (ic s) = false -> isPush e -> In e (log (importApp C fuel s)) ->
  exists pre post x,
    log (importApp C fuel s) = pre ++ e :: post /\ In x pre /\ isConsent x.
Proof.
  intros Hyes He Hin.
  destruct (importApp_target fuel s)
    as [(p & d & data & cl & app & skip & d' & Ho1 & Ho2 & Heq) | Hall].
  2: { exfalso. rewrite List.Forall_forall in Hall. specialize (Hall e Hin).
       apply (push_not_before e He). tauto. }
  rewrite Heq in Hin |- *. unfold prepend in Hin |- *. cbn [log] in Hin |- *. clear Heq.
  pose proof (emits_loadDeclaration yesNotGiven s Hyes) as [Hl1 Hy1].
  pose proof (emits_resolveTarget yesNotGiven fuel p d cl (fun _ H => H) _ Hy1)
    as [Hl2 Hy2].
  remember (st (resolveTarget C fuel p d cl (st (loadDeclaration C s)))) as s2 eqn:Hs2.
  apply in_app_or in Hin as [Hin|Hin].
  { exfalso. apply in_app_or in Hin as [Hin|Hin].
    - rewrite List.Forall_forall in Hl1. specialize (Hl1 e Hin).
      apply (push_not_before e He). tauto.
    - rewrite List.Forall_forall in Hl2. specialize (Hl2 e Hin).
      apply (push_not_before e He). tauto. }
  destruct (afterTarget_cases p d' app data skip cl s2)
    as [(root & diffs & Ho3 & Ho4 & Heq) | Hall].
  2: { exfalso. rewrite List.Forall_forall in Hall. specialize (Hall e Hin).
       apply (push_not_before e He). tauto. }
  rewrite Heq in Hin |- *. unfold prepend in Hin |- *. cbn [log] in Hin |- *. clear Heq.
  pose proof (emits_prepareAssets yesNotGiven p d' app cl s2 Hy2) as [Hl3 Hy3].
  remember (st (prepareAssets C p d' app cl s2)) as s3 eqn:Hs3.
  pose proof (emits_confirmDiff yesNotGiven app data diffs skip cl s3 Hy3) as [Hl4 _].
  apply in_app_or in Hin as [Hin|Hin].
  { exfalso. apply in_app_or in Hin as [Hin|Hin].
    - rewrite List.Forall_forall in Hl3. specialize (Hl3 e Hin).
      apply (push_not_before e He). tauto.
    - rewrite List.Forall_forall in Hl4. specialize (Hl4 e Hin).
      apply (push_not_before e He). tauto. }
  apply in_split in Hin as (pre & post & Hlog). rewrite Hlog.
  assert (Hx : exists x,
             (In x (log (resolveTarget C fuel p d cl (st (loadDeclaration C s))))
              \/ In x (log (confirmDiff C app data diffs skip cl s3)))
             /\ isConsent x).
  { destruct skip.
    - destruct (resolveTarget_consent fuel p d cl (st (loadDeclaration C s)))
        as [Hex|Hno].
      + apply List.Exists_exists in Hex as (x & Hx & Hc). exists x. auto.
      + rewrite Ho2 in Hno. discriminate Hno.
    - exists (EvAskYesNo confirmQuery (Ok true)). split; [|simpl; auto].
      right. apply confirmDiff_consent; [exact Hy3 | exact Ho4]. }
  destruct Hx as (x & Hx & Hc).
  match goal with
  | |- exists _ _ _, ?a ++ ?b ++ _ = _ /\ _ => exists (a ++ b ++ pre), post, x
  end.
  split; [rewrite <- !app_assoc; reflexivity|].
  split; [|exact Hc].
  destruct Hx as [Hx|Hx].
  - apply in_or_app. left. apply in_or_app. right. exact Hx.
  - apply in_or_app. right. apply in_or_app. left. apply in_or_app. right. exact Hx.
Qed.

End Consent.

(** X14.  The configuration is pushed only with consent.  When the
    unconditional-yes override is not set, a push is made only after the
    user answered yes at a prompt of the command: the confirmation of the
    diff, or the question whether to create the app. *)
Theorem push_needs_consent
    (C : Collab) (fuel : nat) (s : State C)
    (groupID appID appData strategy : string) (err : option error) :
  flagYes (ic s) = false ->
  In (EvImport groupID appID appData strategy err) (log (importApp C fuel s)) ->
  exists pre post q,
    log (importApp C fuel s)
    = pre ++ EvImport groupID appID appData strategy err :: post
    /\ In (EvAskYesNo q (Ok true)) pre
    /\ (q = confirmQuery \/ isCreateQuery q).
Proof.
  intros Hyes Hin.
  destruct (importApp_consent fuel s (EvImport groupID appID appData strategy err)
              Hyes I Hin) as (pre & post & x & Hlog & Hx & Hc).
  destruct x; simpl in Hc; try contradiction.
  destruct r as [[|]|]; try contradiction.
  exists pre, post, query. auto.
Qed.

Lemma push_needs_consent_witness :
  exists pre post q,
    log (importApp (scripted scConfirm) 1
           (parsedState (scripted scConfirm) [] (start scConfirm [true])))
    = pre ++ EvImport "g-1" "5d1" "{}" "merge" None :: post
    /\ In (EvAskYesNo q (Ok true)) pre
    /\ (q = confirmQuery \/ isCreateQuery q).
Proof.
  apply (push_needs_consent (scripted scConfirm) 1
           (parsedState (scripted scConfirm) [] (start scConfirm [true]))
           "g-1" "5d1" "{}" "merge" None).
  - vm_compute. reflexivity.
  - vm_compute. tauto.
Defined.

(** X15.  The remote calls on an app are made on the app the command
    resolved: the listing of the remote assets, the diff, the push, the
    asset import and the re-fetch take the project id and the id of an app
    that the remote lookup found or that the creation returned earlier in
    the run. *)
Theorem remote_calls_target_the_resolved_app
    (C : Collab) (fuel : nat) (s : State C) (e : Event) :
  isOnApp e ->
  In e (log (importApp C fuel s)) ->
  exists pre post app x,
    log (importApp C fuel s) = pre ++ e :: post
    /\ In x pre /\ givesApp app x /\ targets app e.
Proof. intros He Hin. exact (importApp_onApp fuel s e He Hin). Qed.

Lemma remote_calls_target_the_resolved_app_witness :
  exists pre post app x,
    log (importApp (played xsCreate) 3
           (parsedState (played xsCreate) []
              (onStage xsCreate [true] ["my-app"; "nope"; "Sandbox"])))
    = pre ++ EvImport "5a0000000000000000000002" "5d2" "{}" "replace" None :: post
    /\ In x pre /\ givesApp app x
    /\ targets app (EvImport "5a0000000000000000000002" "5d2" "{}" "replace" None).
Proof.
  apply (remote_calls_target_the_resolved_app (played xsCreate) 3
           (parsedState (played xsCreate) []
              (onStage xsCreate [true] ["my-app"; "nope"; "Sandbox"]))
           (EvImport "5a0000000000000000000002" "5d2" "{}" "replace" None)).
  - exact I.
  - vm_compute. tauto.
Defined.

(** *** The login comes first *)

Section Login.

Context {C : Collab}.

Lemma unless_observe {R B} (X : Event -> Prop) (V : B -> Prop) (G : R -> Prop)
    ev (k : unit -> M (State C) R B) :
  X ev \/ unless X V G (k tt) -> unless X V G (bind (observe ev) k).
Proof.
  intros Hk s. unfold bind, observe. simpl. destruct Hk as [H|H].
  - left. apply Exists_cons. left. exact H.
  - destruct (H s) as [H'|H'].
    + left. apply Exists_cons. right. exact H'.
    + right. exact H'.
Qed.

Lemma precedes_observe {R B} (X E : Event -> Prop) ev (k : unit -> M (State C) R B) :
  ~ E ev -> X ev \/ precedes X E (k tt) -> precedes X E (bind (observe ev) k).
Proof.
  intros HE Hk s pre e post Hlog He. unfold bind, observe in Hlog. simpl in Hlog.
  destruct pre as [|x pre]; simpl in Hlog; injection Hlog as Hx Hlog.
  - subst e. contradiction.
  - subst x. destruct Hk as [HX | Hp].
    + apply Exists_cons. left. exact HX.
    + apply Exists_cons. right. exact (Hp _ _ _ _ Hlog He).
Qed.

(** Past a part that falls through only when it has logged an event of
    [X]. *)
Lemma precedes_bind_unless {R A B} X E (G : R -> Prop)
    (m : M (State C) R A) (f : A -> M (State C) R B) :
  precedes X E m -> unless X never G m -> precedes X E (bind m f).
Proof.
  intros Hm Hu s pre e post Hlog He. unfold bind in Hlog.
  destruct (out (m s)) as [a|r|c] eqn:Ho; simpl in Hlog;
    [|exact (Hm s _ _ _ Hlog He)..].
  apply app_eq_mid in Hlog as [(post1 & H1 & ->) | (pre2 & H2 & ->)].
  - exact (Hm s _ _ _ H1 He).
  - apply Exists_app. left. destruct (Hu s) as [H|H]; [exact H|].
    rewrite Ho in H. contradiction H.
Qed.

Lemma loadDeclaration_login_first :
  precedes isLoggedInUser needsLogin (loadDeclaration C).
Proof.
  unfold loadDeclaration.
  apply precedes_call; [intros a H; exact H | intros [user|err]; right].
  2: { eapply precedes_never with (K := fun _ => False); [emits_go | tauto]. }
  apply precedes_observe; [intros H; exact H|].
  destruct (LoggedIn C user); [left; exact I | right]. simpl negb. cbv iota.
  eapply precedes_never with (K := fun _ => False); [emits_go | tauto].
Qed.

Lemma loadDeclaration_login_unless :
  unless isLoggedInUser never (fun _ : option error => True) (loadDeclaration C).
Proof.
  unfold loadDeclaration.
  apply unless_call. intros [user|err]; right; [|apply unless_return; exact I].
  apply unless_observe.
  destruct (LoggedIn C user); [left; exact I | right]. simpl negb. cbv iota.
  apply unless_return. exact I.
Qed.

Lemma importApp_login_first fuel : precedes isLoggedInUser needsLogin (importApp C fuel).
Proof.
  unfold importApp. eapply precedes_bind_unless.
  - apply loadDeclaration_login_first.
  - apply loadDeclaration_login_unless.
Qed.

End Login.

(** X16.  The login comes first.  Whatever the command does past the
    parsing of the flags, the report of an error apart, it does after it
    found the user logged in: no file is read, no prompt is shown and no
    remote call is made before. *)
Theorem nothing_happens_before_login
    (C : Collab) (fuel : nat) (args : list string) (s : State C) (e : Event) :
  needsLogin e ->
  In e (log (Run C fuel args s)) ->
  exists pre post,
    log (Run C fuel args s) = pre ++ e :: post /\ In (EvLoggedIn true) pre.
Proof.
  intros He Hin.
  assert (Hrun : precedes isLoggedInUser needsLogin (Run C fuel args)).
  { apply Run_precedes; [apply importApp_login_first|].
    intros x [Hx|Hx]; destruct x; simpl in *; tauto. }
  destruct (precedes_In _ _ _ s _ Hrun Hin He) as (pre & post & Hlog & Hex).
  exists pre, post. split; [exact Hlog|].
  apply List.Exists_exists in Hex as (x & Hx & Hlogin).
  destruct x; simpl in Hlogin; try contradiction.
  destruct b; [exact Hx | contradiction].
Qed.

Lemma nothing_happens_before_login_witness :
  exists pre post,
    log (Run (scripted scPlain) 1 [] (start scPlain []))
    = pre ++ EvUnmarshalFromDir "/work/app" None :: post
    /\ In (EvLoggedIn true) pre.
Proof.
  apply (nothing_happens_before_login (scripted scPlain) 1 [] (start scPlain [])
           (EvUnmarshalFromDir "/work/app" None)).
  - exact I.
  - vm_compute. tauto.
Defined.

(** *** One app directory *)

Section OnePath.

Context {C : Collab}.

Lemma sided_prefix {R A0 B0} (A B : Event -> Prop) (V : B0 -> bool)
    (m : M (State C) R A0) (f : A0 -> M (State C) R B0) :
  emits anyIC (fun e => A e /\ B e) m -> (forall a, sided A B V (f a)) ->
  sided A B V (bind m f).
Proof.
  intros Hm Hf s. destruct (Hm s I) as [Hall _]. unfold bind.
  assert (HA : Forall A (log (m s)))
    by (eapply Forall_impl; [exact Hall | intros x [Hx _]; exact Hx]).
  assert (HB : Forall B (log (m s)))
    by (eapply Forall_impl; [exact Hall | intros x [_ Hx]; exact Hx]).
  destruct (out (m s)) as [a|r|c]; simpl.
  - destruct (Hf a (st (m s))) as [[H1 H2]|[H1 H2]].
    + left. split; [apply Forall_app; auto | exact H2].
    + right. split; [apply Forall_app; auto | exact H2].
  - left. split; [exact HA | discriminate].
  - left. split; [exact HA | discriminate].
Qed.

Lemma sided_left {R A0} (A B : Event -> Prop) (V : A0 -> bool) (m : M (State C) R A0) :
  emits anyIC A m -> gives (fun a => V a = true) anyValue m -> sided A B V m.
Proof.
  intros Hm Hg s. left. split; [apply (Hm s I)|].
  intros a Ho. specialize (Hg s). rewrite Ho in Hg. exact Hg.
Qed.

Lemma sided_right {R A0} (A B : Event -> Prop) (V : A0 -> bool) (m : M (State C) R A0) :
  emits anyIC B m -> gives (fun a => V a = false) anyValue m -> sided A B V m.
Proof.
  intros Hm Hg s. right. split; [apply (Hm s I)|].
  intros a Ho. specialize (Hg s). rewrite Ho in Hg. exact Hg.
Qed.

(** The rest of a computation, by the side its first part fell on. *)
Lemma sided_bind {R A0 B0} (A B : Event -> Prop) (V : A0 -> bool)
    (m : M (State C) R A0) (f : A0 -> M (State C) R B0) s :
  sided A B V m ->
  (forall a, V a = true -> emits anyIC A (f a)) ->
  (forall a, V a = false -> emits anyIC B (f a)) ->
  Forall A (log (bind m f s)) \/ Forall B (log (bind m f s)).
Proof.
  intros Hm HA HB. unfold bind. destruct (Hm s) as [[H1 H2]|[H1 H2]].
  - left. destruct (out (m s)) as [a|r|c]; simpl; [|exact H1..].
    apply Forall_app. split; [exact H1|]. apply (HA a (H2 a eq_refl) _ I).
  - right. destruct (out (m s)) as [a|r|c]; simpl; [|exact H1..].
    apply Forall_app. split; [exact H1|]. apply (HB a (H2 a eq_refl) _ I).
Qed.

Variable p : string.

Lemma pathFree_user e :
  match e with EvUser _ | EvLoggedIn _ => True | _ => K_appDirectory e end ->
  usesPath C p e /\ notNamesPath p e.
Proof. destruct e; unfold notNamesPath; simpl; intuition discriminate. Qed.

Lemma loadDeclaration_sided :
  sided (usesPath C p) (notNamesPath p) (loadedFrom C p) (loadDeclaration C).
Proof.
  unfold loadDeclaration, loadedFrom.
  apply sided_prefix;
    [emits_go; unfold notNamesPath; simpl; split; [exact I | discriminate]
    | intros [user|err]].
  2: { apply sided_left; [emits_go | apply gives_return; exact I]. }
  apply sided_prefix;
    [emits_go; unfold notNamesPath; simpl; split; [exact I | discriminate] | intros _].
  destruct (negb _).
  { apply sided_left; [emits_go | apply gives_return; exact I]. }
  apply sided_prefix.
  { eapply emits_weaken; [apply emits_invoke, emits_resolveAppDirectory|].
    intros e He. apply pathFree_user. destruct e; simpl in *; tauto. }
  intros [appPath|err].
  2: { apply sided_left; [emits_go | apply gives_return; exact I]. }
  unfold resolveAppInstanceData.
  destruct (String.eqb_spec appPath p) as [->|Hne].
  - apply sided_left.
    + emits_go; reflexivity.
    + repeat first
        [ apply gives_return; exact I
        | apply gives_ret; simpl; apply String.eqb_refl
        | eapply gives_bind;
          [first [apply gives_call | apply gives_getIC | apply gives_observe
                 | apply gives_invoke with (G' := anyValue)] | intros ? _]
        | match goal with |- gives _ _ (match ?x with _ => _ end) => destruct x end ].
      all: repeat first
        [ apply gives_return; exact I
        | apply gives_ret; exact I
        | eapply gives_bind; [first [apply gives_call | apply gives_getIC] | intros ? _]
        | match goal with |- gives _ _ (match ?x with _ => _ end) => destruct x end ].
  - apply sided_right.
    + emits_go; unfold notNamesPath; simpl; congruence.
    + assert (Hf : String.eqb appPath p = false) by (apply String.eqb_neq; exact Hne).
      repeat first
        [ apply gives_return; exact I
        | apply gives_ret; simpl; exact Hf
        | eapply gives_bind;
          [first [apply gives_call | apply gives_getIC | apply gives_observe
                 | apply gives_invoke with (G' := anyValue)] | intros ? _]
        | match goal with |- gives _ _ (match ?x with _ => _ end) => destruct x end ].
      all: repeat first
        [ apply gives_return; exact I
        | apply gives_ret; exact I
        | eapply gives_bind; [first [apply gives_call | apply gives_getIC] | intros ? _]
        | match goal with |- gives _ _ (match ?x with _ => _ end) => destruct x end ].
Qed.

Lemma afterLoad_usesPath fuel d data cl :
  emits anyIC (usesPath C p)
    (t <- resolveTarget C fuel p d cl ;;
     let '(app, skipDiff, appInstanceData) := t in
     a <- prepareAssets C p appInstanceData app cl ;;
     let '(rootDir, assetMetadataDiffs) := a in
     confirmDiff C app data assetMetadataDiffs skipDiff cl ;;
     applyAndSync C p app data rootDir assetMetadataDiffs cl)%go.
Proof.
  unfold resolveTarget, prepareAssets, confirmDiff, applyAndSync.
  emits_go; try reflexivity.
  - eapply emits_weaken; [apply emits_fetchAppByClientAppID | event_cases].
  - eapply emits_weaken; [apply emits_askCreateEmptyApp | event_cases].
Qed.

Lemma afterLoad_notNamesPath fuel p' d data cl :
  p' <> p ->
  emits anyIC (notNamesPath p)
    (t <- resolveTarget C fuel p' d cl ;;
     let '(app, skipDiff, appInstanceData) := t in
     a <- prepareAssets C p' appInstanceData app cl ;;
     let '(rootDir, assetMetadataDiffs) := a in
     confirmDiff C app data assetMetadataDiffs skipDiff cl ;;
     applyAndSync C p' app data rootDir assetMetadataDiffs cl)%go.
Proof.
  intros Hne. unfold resolveTarget, prepareAssets, confirmDiff, applyAndSync.
  emits_go; unfold notNamesPath; simpl; try congruence.
  - eapply emits_weaken; [apply emits_fetchAppByClientAppID|].
    intros ev; destruct ev; unfold notNamesPath; simpl; try tauto; discriminate.
  - eapply emits_weaken; [apply emits_askCreateEmptyApp|].
    intros ev; destruct ev; unfold notNamesPath; simpl; try tauto; discriminate.
Qed.

Lemma importApp_onePath fuel s :
  Forall (usesPath C p) (log (importApp C fuel s))
  \/ Forall (notNamesPath p) (log (importApp C fuel s)).
Proof.
  unfold importApp. apply sided_bind with (V := loadedFrom C p).
  - apply loadDeclaration_sided.
  - intros [[[p' d] data] cl] Hp. unfold loadedFrom in Hp. simpl in Hp.
    apply String.eqb_eq in Hp. subst p'. apply afterLoad_usesPath.
  - intros [[[p' d] data] cl] Hp. unfold loadedFrom in Hp. simpl in Hp.
    apply String.eqb_neq in Hp. apply afterLoad_notNamesPath, Hp.
Qed.

End OnePath.

(** X17.  A run works on one app directory.  When the command reads or
    writes the app directory under a path, every read and write of the run
    is made under that path: the instance data and the declaration are read
    from it, the hosting files and their metadata are looked up under it,
    and the instance data of a new app and the re-fetched app are written
    back into it. *)
Theorem run_works_on_one_app_directory
    (C : Collab) (fuel : nat) (args : list string) (s : State C)
    (e : Event) (appPath : string) :
  pathOf e = Some appPath ->
  In e (log (Run C fuel args s)) ->
  Forall (usesPath C appPath) (log (Run C fuel args s)).
Proof.
  intros He Hin.
  pose proof (Run_shape fuel args s) as H. cbv zeta in H.
  destruct H as [(msg & Hlog & _) | (tail & Hlog & Htail & _)]; rewrite Hlog in Hin |- *.
  { repeat constructor. }
  constructor; [exact I|]. apply Forall_app. split.
  - destruct (importApp_onePath appPath fuel (parsedState C args s)) as [H|H];
      [exact H|]. exfalso.
    destruct Hin as [<-|Hin]; [discriminate He|].
    apply in_app_or in Hin as [Hin|Hin].
    + rewrite List.Forall_forall in H. exact (H e Hin He).
    + rewrite List.Forall_forall in Htail. specialize (Htail e Hin).
      destruct e; simpl in Htail; try contradiction. discriminate He.
  - eapply Forall_impl; [exact Htail|]. intros x; destruct x; simpl; tauto.
Qed.

Lemma run_works_on_one_app_directory_witness :
  Forall (usesPath (played xsCreate) "/work/app")
    (log (Run (played xsCreate) 3 []
            (onStage xsCreate [true] ["my-app"; "nope"; "Sandbox"]))).
Proof.
  apply (run_works_on_one_app_directory (played xsCreate) 3 []
           (onStage xsCreate [true] ["my-app"; "nope"; "Sandbox"])
           (EvUnmarshalFromDir "/work/app" None) "/work/app").
  - reflexivity.
  - vm_compute. tauto.
Defined.

(** *** The questions about a new app *)

Section Questions.

Context {C : Collab}.
Variable d : AppInstanceData.
Variable flagName : string.

Lemma resolveGroupID_loop_asks Inv fuel a g m :
  emits Inv (asksAbout C d flagName) (resolveGroupID_loop C fuel a g m).
Proof.
  revert a g m. induction fuel as [|fuel IH]; intros; simpl; emits_go.
  - right. reflexivity.
  - apply IH.
Qed.

Lemma resolveGroupID_asks Inv fuel :
  emits Inv (asksAbout C d flagName) (resolveGroupID C fuel).
Proof. unfold resolveGroupID. emits_go. apply resolveGroupID_loop_asks. Qed.

Lemma askCreateEmptyApp_asks fuel err cl :
  emits (appNameIs flagName) (asksAbout C d flagName)
    (askCreateEmptyApp C fuel
       (Error (if String.eqb (AppID C d) "" then errors_New "this app does not exist yet"
               else err))
       (AppName C d) (AppLocation C d) (AppDeploymentModel C d) cl).
Proof.
  unfold askCreateEmptyApp. apply emits_getIC_bind. intros c Hc.
  unfold appNameIs in Hc. rewrite Hc. cbv zeta. emits_go.
  - split; [eexists; reflexivity|]. intros Hid. rewrite Hid. reflexivity.
  - left. split; [reflexivity|]. destruct (String.eqb flagName ""); reflexivity.
  - apply resolveGroupID_asks.
  - left. auto.
  - right. auto.
Qed.

Lemma resolveTarget_asks fuel p cl :
  emits (appNameIs flagName) (asksAbout C d flagName) (resolveTarget C fuel p d cl).
Proof.
  unfold resolveTarget. emits_go.
  - eapply emits_weaken; [apply emits_fetchAppByClientAppID | event_cases].
  - apply askCreateEmptyApp_asks.
Qed.

End Questions.

(** X18.  What the user is asked when the app is not found.  The question
    whether to create an app says that the app does not exist yet when the
    instance data has no app id.  The app name proposed is the one given on
    the command line, or else the one of the instance data; the location
    and the deployment model proposed are those of the instance data, with
    the options of the command. *)
Theorem questions_about_a_new_app
    (C : Collab) (fuel : nat) (appPath : string) (appInstanceData : AppInstanceData)
    (stitchClient : StitchClient C) (s : State C) :
  Forall (asksAbout C appInstanceData (flagAppName (ic s)))
         (log (resolveTarget C fuel appPath appInstanceData stitchClient s)).
Proof.
  exact (proj1 (resolveTarget_asks appInstanceData (flagAppName (ic s)) fuel appPath
                  stitchClient s eq_refl)).
Qed.

(** *** The asset import comes after the hashing and the listing *)

Section AssetImport.

Context {C : Collab}.

Lemma precedes_bind_unless_val {R A B} X E (V : A -> Prop) (G : R -> Prop)
    (m : M (State C) R A) (f : A -> M (State C) R B) :
  precedes X E m -> unless X V G m -> (forall a, V a -> precedes X E (f a)) ->
  precedes X E (bind m f).
Proof.
  intros Hm Hu Hf s pre e post Hlog He. unfold bind in Hlog.
  destruct (out (m s)) as [a|r|c] eqn:Ho; simpl in Hlog;
    [|exact (Hm s _ _ _ Hlog He)..].
  apply app_eq_mid in Hlog as [(post1 & H1 & ->) | (pre2 & H2 & ->)].
  - exact (Hm s _ _ _ H1 He).
  - apply Exists_app. destruct (Hu s) as [H|H]; [left; exact H | right].
    rewrite Ho in H. exact (Hf a H _ _ _ _ H2 He).
Qed.

Lemma unless_last_call {R A} X (G : R -> Prop) (f : W C -> A * W C) ev :
  unless X anyValue G (call f ev : M (State C) R A).
Proof. apply unless_falls. intros; discriminate. Qed.

End AssetImport.

(** Along a part, claiming an event of [X] where there is one. *)
Ltac unless_walk fin :=
  unfold UIInfo, UIError;
  repeat first
    [ apply unless_return; exact I
    | apply unless_ret; first [exact I | fin]
    | apply unless_last_call
    | apply unless_call;
      let a := fresh "a" in
      intros a; try destruct a;
      first [left; solve [simpl; auto] | right]; cbv beta iota zeta
    | apply unless_observe; right
    | eapply unless_bind;
      [apply unless_falls with (m := getIC); intros; discriminate | intros ? _]
    | eapply unless_bind with (V' := anyValue); [ | intros ? _]
    | match goal with
      | |- unless _ _ _ (match ?x with _ => _ end) => destruct x
      end ].

Section AssetImportOrder.

Context {C : Collab}.
Variables g id root : string.

Lemma prepareAssets_hashed p d app cl :
  unless (isHashed root) (noAssetImport C app g id root) (fun _ => True)
         (prepareAssets C p d app cl).
Proof.
  unfold prepareAssets.
  apply unless_call; intros [rootDir|err]; right; [|apply unless_return; exact I].
  destruct (string_dec rootDir root) as [->|Hne].
  2: { unless_walk ltac:(unfold noAssetImport; simpl; auto). }
  eapply unless_bind;
    [apply unless_falls with (m := getIC); intros; discriminate | intros c _].
  destruct (flagIncludeHosting c); [|apply unless_ret; left; reflexivity].
  apply unless_call; intros [descs|err]; right; [|apply unless_return; exact I].
  apply unless_call; intros [cachePath|err]; right; [|apply unless_return; exact I].
  apply unless_call; intros r; right.
  eapply unless_bind with (V' := anyValue); [unless_walk idtac | intros cache _].
  apply unless_call; intros [[m|err] cache']; simpl;
    [left; reflexivity | right; apply unless_return; exact I].
Qed.

Lemma prepareAssets_listed p d app cl :
  unless (isListed g id) (noAssetImport C app g id root) (fun _ => True)
         (prepareAssets C p d app cl).
Proof.
  unfold prepareAssets.
  destruct (string_dec (GroupID app) g) as [Hg|Hg].
  2: { unless_walk ltac:(unfold noAssetImport; simpl; auto). }
  destruct (string_dec (ID app) id) as [Hi|Hi].
  2: { unless_walk ltac:(unfold noAssetImport; simpl; auto). }
  unless_walk ltac:(unfold noAssetImport; simpl; auto).
Qed.

Lemma afterTarget_assetImport X p d app data skip cl :
  unless X (noAssetImport C app g id root) (fun _ => True) (prepareAssets C p d app cl) ->
  precedes X (isAssetImport g id root) (afterTarget C p d app data skip cl).
Proof.
  intros Hu. unfold afterTarget.
  eapply precedes_bind_unless_val; [|exact Hu|].
  { eapply precedes_never; [apply emits_prepareAssets | event_cases]. }
  intros [root' diffs] Hno. unfold noAssetImport in Hno. simpl in Hno.
  eapply precedes_never with (K := fun e => ~ isAssetImport g id root e); [|tauto].
  unfold confirmDiff, applyAndSync. emits_go; simpl; try tauto.
  intros (Hg & Hi & Hr). destruct Hno as [Hno|[Hno|[Hno|Hno]]];
    [discriminate Hno | contradiction..].
Qed.

Lemma importApp_assetImport X fuel :
  (forall p d app cl,
     unless X (noAssetImport C app g id root) (fun _ => True)
            (prepareAssets C p d app cl)) ->
  precedes X (isAssetImport g id root) (importApp C fuel).
Proof.
  intros Hu. unfold importApp.
  eapply precedes_skip;
    [apply emits_loadDeclaration | event_cases | intros [[[p d] data] cl]].
  eapply precedes_skip;
    [apply emits_resolveTarget; intros; exact I | event_cases | intros [[app skip] d']].
  apply (afterTarget_assetImport X p d' app data skip cl), Hu.
Qed.

End AssetImportOrder.

(** X19.  The assets are imported only after the local assets were hashed
    and the remote assets were listed, both with success: the directory the
    asset import reads is the one that was hashed, and the app it writes to
    is the one whose assets were listed. *)
Theorem assets_are_imported_after_hashing_and_listing
    (C : Collab) (fuel : nat) (args : list string) (s : State C)
    (groupID appID rootDir : string) (resetCache : bool) (err : option error) :
  In (EvImportHosting groupID appID rootDir resetCache err) (log (Run C fuel args s)) ->
  exists pre post localAppID cache,
    log (Run C fuel args s)
    = pre ++ EvImportHosting groupID appID rootDir resetCache err :: post
    /\ In (EvListLocalAssetMetadata localAppID rootDir cache None) pre
    /\ In (EvListAssetsForAppID groupID appID None) pre.
Proof.
  intros Hin. apply in_split in Hin as (pre & post & Hlog).
  assert (HE : forall x, isBaseRun x \/ isUIError x ->
                         ~ isAssetImport groupID appID rootDir x).
  { intros x [Hx|Hx]; destruct x; simpl in *; tauto. }
  assert (He : isAssetImport groupID appID rootDir
                 (EvImportHosting groupID appID rootDir resetCache err))
    by (simpl; auto).
  pose proof (Run_precedes _ _ fuel args
                (importApp_assetImport groupID appID rootDir _ fuel
                   (prepareAssets_hashed groupID appID rootDir)) HE
                s pre _ post Hlog He) as Hhashed.
  pose proof (Run_precedes _ _ fuel args
                (importApp_assetImport groupID appID rootDir _ fuel
                   (prepareAssets_listed groupID appID rootDir)) HE
                s pre _ post Hlog He) as Hlisted.
  apply List.Exists_exists in Hhashed as (x & Hx & Hh).
  apply List.Exists_exists in Hlisted as (y & Hy & Hl).
  destruct x; simpl in Hh; try contradiction.
  destruct err0; [contradiction|]. subst rootDir0.
  destruct y; simpl in Hl; try contradiction.
  destruct err0; [contradiction|]. destruct Hl as [-> ->].
  exists pre, post, appID0, cache. auto.
Qed.

Lemma assets_are_imported_after_hashing_and_listing_witness :
  exists pre post localAppID cache,
    log (Run (played xsHosting) 1 [] (onStage xsHosting [] []))
    = pre ++ EvImportHosting "g-1" "5d1" "/work/app/hosting/files" false None :: post
    /\ In (EvListLocalAssetMetadata localAppID "/work/app/hosting/files" cache None) pre
    /\ In (EvListAssetsForAppID "g-1" "5d1" None) pre.
Proof.
  apply (assets_are_imported_after_hashing_and_listing (played xsHosting) 1 []
           (onStage xsHosting [] []) "g-1" "5d1" "/work/app/hosting/files" false None).
  vm_compute. tauto.
Defined.

(** *** The answer at the project prompt *)

Section Answer.

Context {C : Collab}.

Lemma resolveGroupID_loop_answer fuel a groups m s groupID :
  out (resolveGroupID_loop C fuel a groups m s) = Val groupID ->
  exists pre def resp after,
    log (resolveGroupID_loop C fuel a groups m s)
    = pre ++ EvAsk projectPrompt def (Ok resp) :: after
    /\ understoodAs m resp groupID after.
Proof.
  revert s groupID. induction fuel as [|fuel IH]; intros s groupID; simpl;
    [discriminate|].
  unfold bind, call, ret, return_, crash, UIInfo, call, prepend.
  destruct groups as [|g0 groups]; cbn [out st log]; [discriminate|].
  destruct (fst (c_Ask C "Atlas Project Name or ID" (GroupName g0) (world s)))
    as [resp|err] eqn:Hask; cbn [out st log]; [|discriminate].
  destruct (isObjectIDHex resp) eqn:Hhex; cbn [out st log].
  { intros H. injection H as <-. exists [], (GroupName g0), resp, [].
    split; [reflexivity|]. left. auto. }
  destruct (String.eqb_spec (default "" (m !! resp)) "") as [Hnone|Hsome];
    cbn [negb out st log].
  2: { intros H. injection H as <-. exists [], (GroupName g0), resp, [].
       split; [reflexivity|]. right. left. split; [exact Hhex|].
       split; [|split; [exact Hsome | reflexivity]].
       destruct (m !! resp) as [x|]; [reflexivity | contradiction Hsome; reflexivity]. }
  match goal with
  | |- context [c_GroupByName C a resp ?w] =>
    destruct (fst (c_GroupByName C a resp w)) as [g|err] eqn:Hg
  end; cbn [out st log]; [|discriminate].
  destruct (String.eqb_spec (GroupId g) "") as [Hgnone|Hgsome]; cbn [negb out st log].
  2: { intros H. injection H as <-. exists [], (GroupName g0), resp, [EvGroupByName resp (Ok g)].
       split; [reflexivity|]. right. right. split; [exact Hhex|].
       split; [exact Hnone|]. split; [exact Hgsome|]. exists g. auto. }
  intros H. apply IH in H as (pre & def & resp' & after & Hlog & Hu).
  rewrite Hlog.
  exists (EvAsk "Atlas Project Name or ID" (GroupName g0) (Ok resp)
          :: EvGroupByName resp (Ok g)
          :: EvUIInfo "Could not understand response, please try again" :: pre),
    def, resp', after.
  split; [reflexivity | exact Hu].
Qed.

(** The loop returns only on an error. *)
Lemma resolveGroupID_loop_returns fuel a groups m :
  gives anyValue (fun r : result string => exists err, r = Err err)
        (resolveGroupID_loop C fuel a groups m).
Proof.
  revert a groups m. induction fuel as [|fuel IH]; intros; simpl; [apply gives_crash|].
  eapply gives_bind with (V' := anyValue).
  { destruct groups; [apply gives_crash | apply gives_ret; exact I]. }
  intros g0 _.
  eapply gives_bind; [apply gives_call | intros [projectResponse|err] _].
  2: { apply gives_return. eauto. }
  destruct (isObjectIDHex projectResponse); [apply gives_ret; exact I|].
  cbv zeta. destruct (negb _); [apply gives_ret; exact I|].
  eapply gives_bind; [apply gives_call | intros [groupFromName|err] _].
  2: { apply gives_return. eauto. }
  destruct (negb _); [apply gives_ret; exact I|].
  eapply gives_bind; [apply gives_call | intros _ _]. apply IH.
Qed.

Lemma forEach_falls {R A} (l : list A) (body : A -> M (State C) R unit) s :
  (forall x s', exists u, out (body x s') = Val u) -> out (forEach l body s) = Val tt.
Proof.
  intros H. revert s. induction l as [|x l IH]; intros s; simpl; [reflexivity|].
  unfold bind. destruct (H x s) as [u ->]. apply IH.
Qed.

End Answer.

(** X20.  How [resolveGroupID] comes to the project id it returns.  With a
    project id in the command, it is that id and nothing is asked.
    Otherwise the id comes from the last answer at the project prompt, read
    in this order: an answer that is an id of 24 hex digits is the project
    id as it stands; else, the name of a project that Atlas listed gives the
    id of that project; else, Atlas is asked for the project by name.
    Nothing follows the answer but that lookup. *)
Theorem project_answer_is_read_in_order
    (C : Collab) (fuel : nat) (s : State C) (groupID : string) :
  out (resolveGroupID C fuel s) = Ret (Ok groupID) ->
  (flagGroupID (ic s) <> "" /\ groupID = flagGroupID (ic s)
   /\ log (resolveGroupID C fuel s) = [])
  \/ (flagGroupID (ic s) = ""
      /\ exists groups pre def resp after,
           log (resolveGroupID C fuel s)
           = pre ++ EvAsk projectPrompt def (Ok resp) :: after
           /\ In (EvGroups (Ok groups)) pre
           /\ understoodAs
                (foldl (fun m group => <[GroupName group := GroupId group]> m) ∅ groups)
                resp groupID after).
Proof.
  unfold resolveGroupID, bind, getIC, call, return_, UIInfo, call, prepend.
  cbn [out st log ic world].
  destruct (String.eqb_spec (flagGroupID (ic s)) "") as [Hnone|Hsome];
    cbn [negb out st log ic world].
  2: { intros H. injection H as <-. left. auto. }
  destruct (fst (c_AtlasClient C (world s))) as [atlasClient|err];
    cbn [out st log ic world]; [|discriminate].
  match goal with
  | |- context [c_Groups C atlasClient ?w] =>
    destruct (fst (c_Groups C atlasClient w)) as [groups|err]
  end; cbn [out st log ic world]; [|discriminate].
  destruct (Nat.eqb _ 0); cbn [out st log ic world]; [intros H; discriminate H|].
  match goal with
  | |- context [out (forEach ?l ?body ?s1)] =>
    rewrite (forEach_falls l body s1) by (intros; eexists; reflexivity);
    cbn [out st log ic world]
  end.
  match goal with
  | |- context [out (resolveGroupID_loop C fuel atlasClient groups ?m ?s2)] =>
    pose proof (resolveGroupID_loop_answer fuel atlasClient groups m s2) as Hloop;
    pose proof (resolveGroupID_loop_returns fuel atlasClient groups m s2) as Hret;
    destruct (out (resolveGroupID_loop C fuel atlasClient groups m s2))
      as [g|r|c]; cbn [out st log ic world];
      [ | destruct Hret as (err & ->); intros H; discriminate H
        | intros H; discriminate H ]
  end.
  intros H. injection H as <-.
  destruct (Hloop g eq_refl) as (pre & def & resp & after & Hlog & Hu).
  right. split; [exact Hnone|].
  rewrite Hlog. rewrite app_nil_r. cbn [app].
  match goal with
  | |- exists _ _ _ _ _, ?e1 :: ?e2 :: ?e3 :: ?l ++ _ = _ /\ _ =>
    exists groups, (e1 :: e2 :: e3 :: l ++ pre), def, resp, after
  end.
  split; [|split; [right; left; reflexivity | exact Hu]].
  cbn [app]. rewrite <- !app_assoc. reflexivity.
Qed.

Lemma project_answer_is_read_in_order_witness :
  (flagGroupID (ic (onStage xsLoop [] ["nope"; "Sandbox"])) <> ""
   /\ "5a0000000000000000000002" = flagGroupID (ic (onStage xsLoop [] ["nope"; "Sandbox"]))
   /\ log (resolveGroupID (played xsLoop) 2 (onStage xsLoop [] ["nope"; "Sandbox"])) = [])
  \/ (flagGroupID (ic (onStage xsLoop [] ["nope"; "Sandbox"])) = ""
      /\ exists groups pre def resp after,
           log (resolveGroupID (played xsLoop) 2 (onStage xsLoop [] ["nope"; "Sandbox"]))
           = pre ++ EvAsk projectPrompt def (Ok resp) :: after
           /\ In (EvGroups (Ok groups)) pre
           /\ understoodAs
                (foldl (fun m group => <[GroupName group := GroupId group]> m) ∅ groups)
                resp "5a0000000000000000000002" after).
Proof.
  apply (project_answer_is_read_in_order (played xsLoop) 2
           (onStage xsLoop [] ["nope"; "Sandbox"]) "5a0000000000000000000002").
  vm_compute. reflexivity.
Defined.

(** *** Failures, each at its place in the run *)

Section FailurePlace.

Context {C : Collab}.

(** In the first part of [importApp], a client that cannot be made ends
    the function, whatever the error. *)
Lemma loadDeclaration_client :
  upon anyEvent isClientFailure clientFailureReturned (loadDeclaration C).
Proof. unfold loadDeclaration, anyEvent. upon_go. Qed.

(** The first part falls through only with a client. *)
Lemma loadDeclaration_client_called :
  unless clientCalled never (fun _ : option error => True) (loadDeclaration C).
Proof.
  unfold loadDeclaration.
  apply unless_call. intros [user|err]; right; [|apply unless_return; exact I].
  apply unless_observe. right.
  destruct (negb _); [apply unless_return; exact I|].
  eapply unless_bind with (V' := anyValue);
    [apply unless_falls; intros; apply invoke_falls | intros [appPath|err] _];
    [|apply unless_return; exact I].
  eapply unless_bind with (V' := anyValue);
    [apply unless_falls; intros; apply invoke_falls | intros [d|err] _];
    [|apply unless_return; exact I].
  apply unless_call. intros [loadedApp|err]; right; [|apply unless_return; exact I].
  apply unless_observe. right.
  destruct (json_Marshal C loadedApp) as [appData|err]; [|apply unless_return; exact I].
  apply unless_call. intros r. left. reflexivity.
Qed.

Lemma importApp_firstClient fuel s pre err post :
  log (importApp C fuel s) = pre ++ EvStitchClient (Some err) :: post ->
  existsb isClientCall pre = false ->
  post = [] /\ out (importApp C fuel s) = Ret (Some err).
Proof.
  unfold importApp. intros Hlog Hpre.
  match type of Hlog with
  | log (bind ?m ?f s) = _ => pose proof (bind_inv m f s) as Hb
  end.
  pose proof (loadDeclaration_client s) as Hc.
  destruct (out (loadDeclaration C s)) as [a|r|c] eqn:Ho;
    rewrite Hb in Hlog |- *; clear Hb; cbn [log out prepend] in Hlog |- *.
  - apply app_eq_mid in Hlog as [(post1 & H1 & ->) | (pre2 & H2 & ->)].
    + destruct (Hc _ _ _ H1 I) as [_ [_ Hq]]. rewrite ?Ho in Hq. discriminate Hq.
    + exfalso. rewrite existsb_app in Hpre. apply orb_false_elim in Hpre as [Hpre _].
      destruct (loadDeclaration_client_called s) as [Hex|Hnever].
      * apply List.Exists_exists in Hex as (x & Hx & Hcall).
        assert (Htrue : existsb isClientCall (log (loadDeclaration C s)) = true)
          by (apply existsb_exists; exists x; split; assumption).
        congruence.
      * rewrite ?Ho in Hnever. exact Hnever.
  - destruct (Hc _ _ _ Hlog I) as [_ [-> Hq]]. rewrite ?Ho in Hq.
    injection Hq as ->. split; reflexivity.
  - destruct (Hc _ _ _ Hlog I) as [_ [_ Hq]]. rewrite ?Ho in Hq. discriminate Hq.
Qed.

(** [Run] reports the error [importApp] returns. *)
Lemma Run_reports fuel args s err :
  br_err (fst (c_baseRun C args (world s))) = None ->
  validStrategy (flagStrategy (parsedCommand C args s)) = true ->
  out (importApp C fuel (parsedState C args s)) = Ret (Some err) ->
  log (Run C fuel args s)
  = EvBaseRun args (fst (c_baseRun C args (world s)))
      :: log (importApp C fuel (parsedState C args s)) ++ [EvUIError (Error err)]
  /\ out (Run C fuel args s) = Ret 1%Z.
Proof.
  unfold validStrategy, parsedState, parsedCommand.
  unfold Run. remember (importApp C fuel) as imp eqn:Himp.
  unfold BaseCommand_run, bind, invoke, call, modifyIC, getIC, UIError, call,
    return_. simpl.
  intros Hbr Hvalid Hout. rewrite Hbr. simpl.
  destruct (negb _ && negb _); [discriminate Hvalid|]. simpl.
  rewrite Hout. simpl. split; reflexivity.
Qed.

(** The flags are parsed first, and once. *)
Lemma Run_parsed fuel args s pre args' r post :
  log (Run C fuel args s) = pre ++ EvBaseRun args' r :: post ->
  pre = [] /\ r = fst (c_baseRun C args (world s)).
Proof.
  intros Hlog.
  assert (Hno : forall l tail,
             Forall K_import l -> Forall isUIError tail ->
             ~ In (EvBaseRun args' r) (l ++ tail)).
  { intros l tail Hl Ht Hin. apply in_app_or in Hin as [Hin|Hin].
    - rewrite List.Forall_forall in Hl. specialize (Hl _ Hin).
      unfold K_import in Hl. simpl in Hl. tauto.
    - rewrite List.Forall_forall in Ht. exact (Ht _ Hin). }
  destruct (Run_shape (C := C) fuel args s)
    as [(msg & Hshape & _) | (tail & Hshape & Htail & _)]; cbv zeta in Hshape;
    rewrite Hshape in Hlog; destruct pre as [|x pre]; simpl in Hlog.
  - injection Hlog as _ <- _. split; reflexivity.
  - exfalso. injection Hlog as _ Hrest.
    apply (Hno [] [EvUIError msg]); [constructor | repeat constructor|].
    rewrite Hrest. apply in_elt.
  - injection Hlog as _ <- _. split; reflexivity.
  - exfalso. injection Hlog as _ Hrest.
    apply (Hno (log (importApp C fuel (parsedState C args s))) tail);
      [apply (emits_importApp anyIC fuel (fun _ _ => I) _ I) | exact Htail|].
    rewrite Hrest. apply in_elt.
Qed.

End FailurePlace.

(** X4.  No call that fails is passed over, and each failure is reported
    with its message.  When a call fails in a run (the flags cannot be
    parsed, the user is not logged in, a file cannot be read, the
    declaration cannot be encoded, the client of the service cannot be
    made, a prompt or a remote call returns an error, Atlas lists no
    project), the command stops there: it closes the exported body if it
    holds one, reports the message of the failure (the message of the
    error, wrapped for the failures of the asset part, of the diff, of the
    push and of the syncs), and exits with code 1.  The four failures the
    command goes on after are not meant: a stitch.json or an asset cache
    file that does not exist, a lookup that finds no app (an error of the
    type [api.ErrAppNotFound], of the lookup or of the client made for
    it), an asset cache file that cannot be written. *)
Theorem failure_stops_the_run_with_its_message
    (C : Collab) (fuel : nat) (args : list string) (s : State C)
    (pre : list Event) (e : Event) (post : list Event) (msg : string) :
  log (Run C fuel args s) = pre ++ e :: post ->
  reportAt C pre e = Some msg ->
  out (Run C fuel args s) = Ret 1%Z
  /\ (log (Run C fuel args s) = pre ++ [e; EvUIError msg]
      \/ log (Run C fuel args s) = pre ++ [e; EvBodyClose; EvUIError msg]).
Proof.
  intros Hlog Hmsg.
  assert (Hcases :
            reportOf C e = Some msg
            \/ (exists args' r err,
                  e = EvBaseRun args' r /\ br_err r = Some err /\ msg = Error err)
            \/ (exists err,
                  e = EvStitchClient (Some err) /\ existsb isClientCall pre = false
                  /\ msg = Error err)).
  { destruct e; try (left; exact Hmsg); simpl in Hmsg.
    - right. left. destruct (br_err r) as [err|] eqn:Hbr; [|discriminate Hmsg].
      injection Hmsg as <-.
      do 3 eexists. split; [reflexivity|]. split; [eassumption | reflexivity].
    - destruct err as [err|]; [|left; exact Hmsg].
      destruct (existsb isClientCall pre) eqn:Hpre; [left; exact Hmsg|].
      right. right. injection Hmsg as <-. exists err. auto. }
  destruct Hcases as [He | [(args' & r & err & -> & Hbr & ->) | (err & -> & Hpre & ->)]].
  - (* a failure the command tells by the event alone *)
    assert (Hfatal : isFatal C e) by (unfold isFatal; rewrite He; discriminate).
    destruct (Run_fatal fuel args s pre e post Hlog Hfatal)
      as (_ & Hout & (msg' & Hm & Hpost)).
    rewrite He in Hm. injection Hm as <-.
    split.
    + destruct (out (Run C fuel args s)); simpl in Hout; try discriminate Hout.
      injection Hout as ->. reflexivity.
    + rewrite Hlog. destruct Hpost as [-> | ->]; auto.
  - (* the flags *)
    destruct (Run_parsed fuel args s pre args' r post Hlog) as [-> ->].
    pose proof (Run_cases (C := C) fuel args s) as H. cbv zeta in H.
    rewrite Hbr in H. destruct H as (Hl & Hout & _).
    split; [exact Hout|]. left.
    rewrite Hl in Hlog |- *. simpl in Hlog |- *. injection Hlog as -> _. reflexivity.
  - (* the client of line 187 *)
    pose proof (Run_cases (C := C) fuel args s) as H. cbv zeta in H.
    destruct (br_err (fst (c_baseRun C args (world s)))) as [err0|] eqn:Hbr.
    { destruct H as (Hl & _). rewrite Hl in Hlog.
      destruct pre as [|x [|y pre]]; simpl in Hlog; try discriminate Hlog.
      destruct pre; discriminate Hlog. }
    destruct (validStrategy _) eqn:Hvalid.
    2: { destruct H as (Hl & _). rewrite Hl in Hlog.
         destruct pre as [|x [|y pre]]; simpl in Hlog; try discriminate Hlog.
         destruct pre; discriminate Hlog. }
    destruct H as (tail & Hl & Htail & _).
    rewrite Hl in Hlog. destruct pre as [|x pre]; simpl in Hlog;
      [discriminate Hlog | injection Hlog as <- Hlog].
    simpl in Hpre.
    apply app_eq_mid in Hlog as [(post1 & H1 & ->) | (pre2 & H2 & ->)].
    2: { exfalso. rewrite H2 in Htail. apply Forall_app in Htail as [_ Htail].
         inversion Htail as [|? ? Hx _]. exact Hx. }
    destruct (importApp_firstClient fuel _ pre err post1 H1 Hpre) as [-> Hout].
    destruct (Run_reports fuel args s err Hbr Hvalid Hout) as [Hl' Hout'].
    split; [exact Hout'|]. left. rewrite Hl', H1. simpl.
    rewrite <- app_assoc. reflexivity.
Qed.

Lemma failure_stops_the_run_with_its_message_witness :
  out (Run offline 1 [] offlineStart) = Ret 1%Z
  /\ (log (Run offline 1 [] offlineStart)
      = [EvBaseRun []
           (mkBaseResult [("project-id", FVString "5a0000000000000000000002")]
              true "/cfg" None);
         EvUser None; EvLoggedIn true;
         EvGetDirectoryContainingFile "/work/app" "stitch.json" (Ok "/work/app");
         EvUnmarshalFile "/work/app"
           (Ok ({[ "app_id" := "my-app-nysja" ]} : AppInstanceData));
         EvUnmarshalFromDir "/work/app" None; EvJsonMarshal (Ok "{}")]
        ++ [EvStitchClient (Some (mkError ErrAppNotFound "no client for this app"));
            EvUIError "no client for this app"]
      \/ log (Run offline 1 [] offlineStart)
         = [EvBaseRun []
              (mkBaseResult [("project-id", FVString "5a0000000000000000000002")]
                 true "/cfg" None);
            EvUser None; EvLoggedIn true;
            EvGetDirectoryContainingFile "/work/app" "stitch.json" (Ok "/work/app");
            EvUnmarshalFile "/work/app"
              (Ok ({[ "app_id" := "my-app-nysja" ]} : AppInstanceData));
            EvUnmarshalFromDir "/work/app" None; EvJsonMarshal (Ok "{}")]
           ++ [EvStitchClient (Some (mkError ErrAppNotFound "no client for this app"));
               EvBodyClose; EvUIError "no client for this app"]).
Proof.
  apply (failure_stops_the_run_with_its_message offline 1 [] offlineStart _ _
           [EvUIError "no client for this app"] "no client for this app").
  - vm_compute. reflexivity.
  - reflexivity.
Defined.
